(** * sharon: hashmaps and sorted sets over an ordered byte-keyed store

    A shallow embedding of [sharon.go].  The LevelDB handle the Go code wraps
    is modelled as an ordered table of byte keys together with the failures
    the store may report; every operation of the package is a function that
    takes the store and returns the new store next to its Go results. *)

From Stdlib Require Import Strings.String Strings.Byte.
From Stdlib Require Import ZArith List Bool Lia Sorted.
Import ListNotations.
Local Open Scope Z_scope.

(** ** Bytes *)

Module Bytes.

Definition bytes := list byte.

Definition Z_of_byte (b : byte) : Z := Z.of_N (Byte.to_N b).

(** The Go conversion [byte(x)]: the low eight bits. *)
Definition byte_of_Z (z : Z) : byte :=
  match Byte.of_N (Z.to_N (z mod 256)) with
  | Some b => b
  | None => x00
  end.

Definition byte_compare (x y : byte) : comparison :=
  Z.compare (Z_of_byte x) (Z_of_byte y).

(** [bytes.Compare]: [Lt], [Eq], [Gt] stand for -1, 0, +1. *)
Fixpoint bytes_compare (a b : bytes) : comparison :=
  match a, b with
  | [], [] => Eq
  | [], _ :: _ => Lt
  | _ :: _, [] => Gt
  | x :: a', y :: b' =>
      match byte_compare x y with
      | Eq => bytes_compare a' b'
      | c => c
      end
  end.

(** [bytes.Equal]; a nil slice and an empty slice are equal. *)
Definition bytes_Equal (a b : bytes) : bool :=
  match bytes_compare a b with Eq => true | _ => false end.

Definition bytes_ltb (a b : bytes) : bool :=
  match bytes_compare a b with Lt => true | _ => false end.

Definition bytes_lt (a b : bytes) : Prop := bytes_compare a b = Lt.

(** [Bconcat]: the fragments copied one after the other into one buffer. *)
Definition Bconcat (slices : list bytes) : bytes := concat slices.

(** [StringToBytesNoCopy]: the bytes of the string. *)
Definition StringToBytesNoCopy (s : string) : bytes := list_byte_of_string s.

(** A Go slice expression [b[i:]]; [None] is the run-time panic on a bound
    past the end. *)
Definition slice_from (b : bytes) (i : nat) : option bytes :=
  if (i <=? length b)%nat then Some (skipn i b) else None.

(** A Go slice expression [b[i:j]]. *)
Definition slice (b : bytes) (i j : nat) : option bytes :=
  if ((i <=? j) && (j <=? length b))%nat
  then Some (firstn (j - i) (skipn i b)) else None.

End Bytes.
Export Bytes.

(** ** Fixed-width integers *)

Module U64.

Definition scoreByteLen : nat := 8.
Definition scoreMin : Z := 0.
Definition scoreMax : Z := 2 ^ 64 - 1.

(** The conversion [uint64(x)] and the wrap-around of unsigned arithmetic. *)
Definition uint64 (z : Z) : Z := z mod 2 ^ 64.

(** Wrap-around of signed 64-bit arithmetic. *)
Definition int64 (z : Z) : Z := (z + 2 ^ 63) mod 2 ^ 64 - 2 ^ 63.

Definition is_uint64 (z : Z) : Prop := 0 <= z <= scoreMax.
Definition is_int64 (z : Z) : Prop := - 2 ^ 63 <= z < 2 ^ 63.

(** [binary.BigEndian.PutUint64] on a fresh 8-byte buffer. *)
Definition Uint64ToBytes (v : Z) : bytes :=
  [ byte_of_Z (Z.shiftr v 56); byte_of_Z (Z.shiftr v 48);
    byte_of_Z (Z.shiftr v 40); byte_of_Z (Z.shiftr v 32);
    byte_of_Z (Z.shiftr v 24); byte_of_Z (Z.shiftr v 16);
    byte_of_Z (Z.shiftr v 8);  byte_of_Z v ].

(** [binary.BigEndian.Uint64]; it is only called on eight bytes or more. *)
Definition BigEndian_Uint64 (b : bytes) : Z :=
  match b with
  | b0 :: b1 :: b2 :: b3 :: b4 :: b5 :: b6 :: b7 :: _ =>
      Z.lor (Z.lor (Z.lor (Z.lor (Z.lor (Z.lor (Z.lor
        (Z_of_byte b7)
        (Z.shiftl (Z_of_byte b6) 8))
        (Z.shiftl (Z_of_byte b5) 16))
        (Z.shiftl (Z_of_byte b4) 24))
        (Z.shiftl (Z_of_byte b3) 32))
        (Z.shiftl (Z_of_byte b2) 40))
        (Z.shiftl (Z_of_byte b1) 48))
        (Z.shiftl (Z_of_byte b0) 56)
  | _ => 0
  end.

Definition BytesToUint64 (v : bytes) : Z :=
  if (length v <? 8)%nat then 0 else BigEndian_Uint64 (firstn 8 v).

(** The number a byte string denotes when read most significant byte first. *)
Fixpoint be_val (l : bytes) : Z :=
  match l with
  | [] => 0
  | x :: r => Z_of_byte x * 256 ^ Z.of_nat (length r) + be_val r
  end.

End U64.
Export U64.

(** ** The ordered store

    The external collaborator: an ordered map from byte keys to byte values
    with point reads and writes, atomic batches and range iteration.  The
    table is kept in strictly ascending key order, which is the order an
    iterator walks it in.  Besides the table the handle carries the failures
    the store reports (a read error for a key, an iterator error, a write
    error) and the trace of the batches submitted to it. *)

Module Store.

Definition table := list (bytes * bytes).

(** Go [error] values: those built by [errors.New] in this package, the
    store's not-found error, and any other error of the store. *)
Inductive error :=
| errors_New (msg : string)
| ErrNotFound
| ErrStore (msg : string).

Definition replyOK : string := "ok".
Definition replyNotFound : string := "leveldb: not found".
Definition replyError : string := "error".

(** [err.Error()]. *)
Definition Error (e : error) : string :=
  match e with
  | errors_New msg => msg
  | ErrNotFound => replyNotFound
  | ErrStore msg => msg
  end.

Inductive batch_op :=
| BPut (k v : bytes)
| BDelete (k : bytes).

Definition Batch := list batch_op.

Record DB := mkDB {
  tbl : table;
  read_fault : bytes -> option string;
  iter_fault : option string;
  write_fault : option string;
  written : list Batch
}.

Fixpoint tbl_get (k : bytes) (t : table) : option bytes :=
  match t with
  | [] => None
  | (k', v) :: t' =>
      match bytes_compare k k' with
      | Eq => Some v
      | _ => tbl_get k t'
      end
  end.

Fixpoint tbl_put (k v : bytes) (t : table) : table :=
  match t with
  | [] => [(k, v)]
  | (k', v') :: t' =>
      match bytes_compare k k' with
      | Lt => (k, v) :: t
      | Eq => (k, v) :: t'
      | Gt => (k', v') :: tbl_put k v t'
      end
  end.

Definition tbl_del (k : bytes) (t : table) : table :=
  filter (fun e => negb (bytes_Equal k (fst e))) t.

(** The records of a batch take effect in the order they were added. *)
Definition apply_op (t : table) (op : batch_op) : table :=
  match op with
  | BPut k v => tbl_put k v t
  | BDelete k => tbl_del k t
  end.

Definition apply_batch (b : Batch) (t : table) : table :=
  fold_left apply_op b t.

Definition key_lt (e1 e2 : bytes * bytes) : Prop :=
  bytes_lt (fst e1) (fst e2).

Definition ordered (t : table) : Prop := StronglySorted key_lt t.

(** [db.Get]: the value and a nil error, or a nil value and the error. *)
Definition db_Get (db : DB) (k : bytes) : bytes * option error :=
  match read_fault db k with
  | Some msg => ([], Some (ErrStore msg))
  | None =>
      match tbl_get k (tbl db) with
      | Some v => (v, None)
      | None => ([], Some ErrNotFound)
      end
  end.

(** [db.Has]. *)
Definition db_Has (db : DB) (k : bytes) : bool * option error :=
  match read_fault db k with
  | Some msg => (false, Some (ErrStore msg))
  | None =>
      match tbl_get k (tbl db) with
      | Some _ => (true, None)
      | None => (false, None)
      end
  end.

(** [db.Write]: the batch is recorded as submitted, and applied as a whole
    unless the store fails. *)
Definition db_Write (db : DB) (b : Batch) : DB * option error :=
  match write_fault db with
  | Some msg =>
      (mkDB (tbl db) (read_fault db) (iter_fault db) (write_fault db)
            (written db ++ [b]),
       Some (ErrStore msg))
  | None =>
      (mkDB (apply_batch b (tbl db)) (read_fault db) (iter_fault db)
            (write_fault db) (written db ++ [b]),
       None)
  end.

Definition db_Put (db : DB) (k v : bytes) : DB * option error :=
  db_Write db [BPut k v].

Definition db_Delete (db : DB) (k : bytes) : DB * option error :=
  db_Write db [BDelete k].

(** [util.Range]; a nil bound is the empty list.  The package never builds
    an empty bound that is not nil. *)
Record Range := mkRange { Start : bytes; Limit : bytes }.

(** The limit of [util.BytesPrefix]: the prefix cut after its last byte
    below 0xff, that byte incremented; nil when there is no such byte. *)
Fixpoint prefix_limit (prefix : bytes) : bytes :=
  match prefix with
  | [] => []
  | c :: r =>
      match prefix_limit r with
      | [] => if Z_of_byte c <? 255 then [byte_of_Z (Z_of_byte c + 1)] else []
      | l => c :: l
      end
  end.

Definition BytesPrefix (prefix : bytes) : Range :=
  mkRange prefix (prefix_limit prefix).

Definition in_range (r : Range) (k : bytes) : bool :=
  negb (bytes_ltb k (Start r)) &&
  match Limit r with
  | [] => true
  | l => bytes_ltb k l
  end.

(** An iterator over a range: the entries it yields from [First] by [Next],
    and the error [iter.Error()] reports after the walk.  [Last] and [Prev]
    yield the same entries in the opposite order. *)
Record Iterator := mkIter {
  items : list (bytes * bytes);
  iter_err : option string
}.

Definition NewIterator (db : DB) (r : Range) : Iterator :=
  mkIter (filter (fun e => in_range r (fst e)) (tbl db)) (iter_fault db).

Definition forward (it : Iterator) : list (bytes * bytes) := items it.
Definition backward (it : Iterator) : list (bytes * bytes) := rev (items it).

End Store.
Export Store.

(** ** The package *)

Module Sharon.

Definition hashPrefix : bytes := [x1e].
Definition zetKeyPrefix : bytes := [x1f].
Definition zetScorePrefix : bytes := [x1d].
Definition splitChar : bytes := [x1c].

Record Reply := mkReply { State : string; Data : list bytes }.

Record Entry := mkEntry { Key : bytes; Value : bytes }.

Definition OK (r : Reply) : bool := String.eqb (State r) replyOK.
Definition NotFound (r : Reply) : bool := String.eqb (State r) replyNotFound.

Definition bytex (r : Reply) : bytes :=
  match Data r with
  | b :: _ => b
  | [] => []
  end.

(** The loop [for i := 0; i < len(r.Data)-1; i += 2] of [List]. *)
Fixpoint pairs (data : list bytes) : list Entry :=
  match data with
  | k :: v :: rest => mkEntry k v :: pairs rest
  | _ => []
  end.

Definition List (r : Reply) : list Entry := pairs (Data r).

Definition KvLen (r : Reply) : Z := Z.of_nat (length (Data r)) / 2.

Definition overflow : error := errors_New "overflow number".
Definition odd_kvs : error := errors_New "kvs len must is an even number".

(** [len(kvs) == 0 || len(kvs)%2 != 0]. *)
Definition bad_kvs (kvs : list bytes) : bool :=
  (length kvs =? 0)%nat || negb (length kvs mod 2 =? 0)%nat.

(** *** Hashmaps *)

Definition Hset (db : DB) (name : string) (key val : bytes) : DB * option error :=
  let realKey := Bconcat [hashPrefix; StringToBytesNoCopy name; splitChar; key] in
  db_Put db realKey val.

Definition Hget (db : DB) (name : string) (key : bytes) : Reply :=
  let realKey := Bconcat [hashPrefix; StringToBytesNoCopy name; splitChar; key] in
  match db_Get db realKey with
  | (_, Some err) => mkReply (Error err) []
  | (val, None) => mkReply replyOK ([] ++ [val])
  end.

(** The loop [for i := 0; i < len(kvs)-1; i += 2] of [Hmset]. *)
Fixpoint Hmset_batch (keyPrefix : bytes) (kvs : list bytes) : Batch :=
  match kvs with
  | k :: v :: rest => BPut (Bconcat [keyPrefix; k]) v :: Hmset_batch keyPrefix rest
  | _ => []
  end.

Definition Hmset (db : DB) (name : string) (kvs : list bytes) : DB * option error :=
  if bad_kvs kvs then (db, Some odd_kvs)
  else
    let keyPrefix := Bconcat [hashPrefix; StringToBytesNoCopy name; splitChar] in
    db_Write db (Hmset_batch keyPrefix kvs).

(** The loop of [Hmget] and [Zmget] over the keys. *)
Fixpoint mget_loop (db : DB) (keyPrefix : bytes) (keys : list bytes)
    (data : list bytes) : list bytes :=
  match keys with
  | [] => data
  | key :: rest =>
      match db_Get db (Bconcat [keyPrefix; key]) with
      | (_, Some _) => mget_loop db keyPrefix rest data
      | (val, None) => mget_loop db keyPrefix rest (data ++ [key; val])
      end
  end.

Definition mget_reply (data : list bytes) : Reply :=
  if (0 <? length data)%nat then mkReply replyOK data else mkReply replyError data.

Definition Hmget (db : DB) (name : string) (keys : list bytes) : Reply :=
  let keyPrefix := Bconcat [hashPrefix; StringToBytesNoCopy name; splitChar] in
  mget_reply (mget_loop db keyPrefix keys []).

(** The arithmetic shared by [Hincr] and [Zincr]: the new number, or [None]
    for the overflow error. *)
Definition incr_num (oldNum step : Z) : option Z :=
  if 0 <? step then
    if uint64 (scoreMax - uint64 step) <? oldNum then None
    else Some (uint64 (oldNum + uint64 step))
  else
    if oldNum <? uint64 (int64 (- step)) then None
    else Some (uint64 (oldNum - uint64 (int64 (- step)))).

Definition Hincr (db : DB) (name : string) (key : bytes) (step : Z)
    : DB * (Z * option error) :=
  let realKey := Bconcat [hashPrefix; StringToBytesNoCopy name; splitChar; key] in
  let oldNum :=
    match db_Get db realKey with
    | (val, None) => BytesToUint64 val
    | (_, Some _) => 0
    end in
  match incr_num oldNum step with
  | None => (db, (0, Some overflow))
  | Some newNum =>
      match db_Put db realKey (Uint64ToBytes newNum) with
      | (db', Some err) => (db', (0, Some err))
      | (db', None) => (db', (newNum, None))
      end
  end.

Definition HgetInt (db : DB) (name : string) (key : bytes) : Z :=
  let realKey := Bconcat [hashPrefix; StringToBytesNoCopy name; splitChar; key] in
  match db_Get db realKey with
  | (_, Some _) => 0
  | (val, None) => BytesToUint64 val
  end.

Definition HhasKey (db : DB) (name : string) (key : bytes) : bool :=
  let realKey := Bconcat [hashPrefix; StringToBytesNoCopy name; splitChar; key] in
  match db_Has db realKey with
  | (_, Some _) => false
  | (has, None) => has
  end.

Definition Hdel (db : DB) (name : string) (key : bytes) : DB * option error :=
  db_Delete db (Bconcat [hashPrefix; StringToBytesNoCopy name; splitChar; key]).

Definition Hmdel (db : DB) (name : string) (keys : list bytes) : DB * option error :=
  let keyPrefix := Bconcat [hashPrefix; StringToBytesNoCopy name; splitChar] in
  db_Write db (map (fun key => BDelete (Bconcat [keyPrefix; key])) keys).

Definition HdelBucket (db : DB) (name : string) : DB * option error :=
  let iter := NewIterator db
    (BytesPrefix (Bconcat [hashPrefix; StringToBytesNoCopy name; splitChar])) in
  let batch := map (fun e => BDelete (fst e)) (forward iter) in
  match iter_err iter with
  | Some msg => (db, Some (ErrStore msg))
  | None => db_Write db batch
  end.

(** The loop body the five scans share: an entry the test [keep] lets
    through is appended as the two buffers [emit] cuts out of it ([None] when
    a slice expression panics), the counter goes up, and the walk stops when
    the counter equals [limit]. *)
Fixpoint scan_loop (keep : bytes -> bool)
    (emit : bytes -> bytes -> option (list bytes)) (limit : Z)
    (walk : list (bytes * bytes)) (data : list bytes) (n : Z)
    : option (list bytes * Z) :=
  match walk with
  | [] => Some (data, n)
  | (k, v) :: rest =>
      if keep k then
        match emit k v with
        | None => None
        | Some kv =>
            let data' := data ++ kv in
            let n' := n + 1 in
            if n' =? limit then Some (data', n')
            else scan_loop keep emit limit rest data' n'
        end
      else scan_loop keep emit limit rest data n
  end.

(** What follows the loop: an iterator error replaces the state and empties
    the data; otherwise the state is ok when the counter is positive. *)
Definition scan_reply (it : Iterator) (res : list bytes * Z) : Reply :=
  match iter_err it with
  | Some msg => mkReply msg []
  | None =>
      if 0 <? snd res then mkReply replyOK (fst res)
      else mkReply replyError (fst res)
  end.

(** [iter.Key()[keyPrefixLen:]] and a copy of [iter.Value()]. *)
Definition emit_kv (keyPrefixLen : nat) (k v : bytes) : option (list bytes) :=
  match slice_from k keyPrefixLen with
  | Some m => Some [m; v]
  | None => None
  end.

Definition Hscan (db : DB) (name : string) (keyStart : bytes) (limit : Z)
    : option Reply :=
  let keyPrefix := Bconcat [hashPrefix; StringToBytesNoCopy name; splitChar] in
  let realKey := Bconcat [keyPrefix; keyStart] in
  let keyPrefixLen := length keyPrefix in
  let sliceRange := BytesPrefix keyPrefix in
  let '(sliceRange, realKey) :=
    if (keyPrefixLen <? length realKey)%nat
    then (mkRange realKey (Limit sliceRange), realKey)
    else (sliceRange, Start sliceRange) in
  let iter := NewIterator db sliceRange in
  match scan_loop (fun k => bytes_ltb realKey k) (emit_kv keyPrefixLen) limit
          (forward iter) [] 0 with
  | None => None
  | Some res => Some (scan_reply iter res)
  end.

Definition Hprefix (db : DB) (name : string) (prefix : bytes) (limit : Z)
    : option Reply :=
  let realKey := Bconcat [hashPrefix; StringToBytesNoCopy name; splitChar; prefix] in
  let keyPrefixLen := length realKey in
  let sliceRange := BytesPrefix realKey in
  let '(sliceRange, realKey) :=
    if (keyPrefixLen <? length realKey)%nat
    then (mkRange realKey (Limit sliceRange), realKey)
    else (sliceRange, Start sliceRange) in
  let iter := NewIterator db sliceRange in
  match scan_loop (fun k => bytes_ltb realKey k) (emit_kv keyPrefixLen) limit
          (forward iter) [] 0 with
  | None => None
  | Some res => Some (scan_reply iter res)
  end.

Definition Hrscan (db : DB) (name : string) (keyStart : bytes) (limit : Z)
    : option Reply :=
  let keyPrefix := Bconcat [hashPrefix; StringToBytesNoCopy name; splitChar] in
  let realKey := Bconcat [keyPrefix; keyStart] in
  let keyPrefixLen := length keyPrefix in
  let sliceRange := BytesPrefix keyPrefix in
  let sliceRange :=
    if (keyPrefixLen <? length realKey)%nat
    then mkRange (Start sliceRange) realKey
    else sliceRange in
  let iter := NewIterator db sliceRange in
  match scan_loop (fun _ => true) (emit_kv keyPrefixLen) limit
          (backward iter) [] 0 with
  | None => None
  | Some res => Some (scan_reply iter res)
  end.

(** *** Sorted sets *)

Definition Zget (db : DB) (name : string) (key : bytes) : Z :=
  match db_Get db (Bconcat [zetScorePrefix; StringToBytesNoCopy name; splitChar; key]) with
  | (_, Some _) => 0
  | (val, None) => BytesToUint64 val
  end.

Definition ZhasKey (db : DB) (name : string) (key : bytes) : bool :=
  match db_Has db (Bconcat [zetScorePrefix; StringToBytesNoCopy name; splitChar; key]) with
  | (_, Some _) => false
  | (has, None) => has
  end.

Definition Zset (db : DB) (name : string) (key : bytes) (val : Z)
    : DB * option error :=
  let nameB := StringToBytesNoCopy name in
  let score := Uint64ToBytes val in
  let keyScore := Bconcat [zetScorePrefix; nameB; splitChar; key] in
  let newScoreKey := Bconcat [zetKeyPrefix; nameB; splitChar; score; splitChar; key] in
  let oldScore := fst (db_Get db keyScore) in
  if negb (bytes_Equal oldScore score) then
    db_Write db
      [ BPut keyScore score;
        BPut newScoreKey [];
        BDelete (Bconcat [zetKeyPrefix; nameB; splitChar; oldScore; splitChar; key]) ]
  else (db, None).

Definition Zincr (db : DB) (name : string) (key : bytes) (step : Z)
    : DB * (Z * option error) :=
  let nameB := StringToBytesNoCopy name in
  let keyScore := Bconcat [zetScorePrefix; nameB; splitChar; key] in
  let score := Zget db name key in
  let oldScoreB := Uint64ToBytes score in
  match incr_num score step with
  | None => (db, (0, Some overflow))
  | Some score =>
      let newScoreB := Uint64ToBytes score in
      match db_Write db
              [ BPut keyScore newScoreB;
                BPut (Bconcat [zetKeyPrefix; nameB; splitChar; newScoreB; splitChar; key]) [];
                BDelete (Bconcat [zetKeyPrefix; nameB; splitChar; oldScoreB; splitChar; key]) ] with
      | (db', Some err) => (db', (0, Some err))
      | (db', None) => (db', (score, None))
      end
  end.

Definition Zdel (db : DB) (name : string) (key : bytes) : DB * option error :=
  let nameB := StringToBytesNoCopy name in
  let keyScore := Bconcat [zetScorePrefix; nameB; splitChar; key] in
  match db_Get db keyScore with
  | (_, Some err) => (db, Some err)
  | (oldScore, None) =>
      db_Write db
        [ BDelete keyScore;
          BDelete (Bconcat [zetKeyPrefix; nameB; splitChar; oldScore; splitChar; key]) ]
  end.

Definition ZdelBucket (db : DB) (name : string) : DB * option error :=
  let nameB := StringToBytesNoCopy name in
  let iter1 := NewIterator db (BytesPrefix (Bconcat [zetScorePrefix; nameB; splitChar])) in
  let batch1 := map (fun e => BDelete (fst e)) (forward iter1) in
  match iter_err iter1 with
  | Some msg => (db, Some (ErrStore msg))
  | None =>
      let iter2 := NewIterator db (BytesPrefix (Bconcat [zetKeyPrefix; nameB; splitChar])) in
      let batch2 := map (fun e => BDelete (fst e)) (forward iter2) in
      match iter_err iter2 with
      | Some msg => (db, Some (ErrStore msg))
      | None => db_Write db (batch1 ++ batch2)
      end
  end.

(** The loop of [Zmset]: every old score is read from the store as it is
    before the batch is written. *)
Fixpoint Zmset_batch (db : DB) (keyPrefix1 keyPrefix2 : bytes) (kvs : list bytes)
    : Batch :=
  match kvs with
  | key :: score :: rest =>
      let keyScore := Bconcat [keyPrefix1; key] in
      let newScoreKey := Bconcat [keyPrefix2; score; splitChar; key] in
      let oldScore := fst (db_Get db keyScore) in
      (if negb (bytes_Equal oldScore score) then
         [ BPut keyScore score;
           BPut newScoreKey [];
           BDelete (Bconcat [keyPrefix2; oldScore; splitChar; key]) ]
       else [])
      ++ Zmset_batch db keyPrefix1 keyPrefix2 rest
  | _ => []
  end.

Definition Zmset (db : DB) (name : string) (kvs : list bytes) : DB * option error :=
  if bad_kvs kvs then (db, Some odd_kvs)
  else
    let nameB := StringToBytesNoCopy name in
    let keyPrefix1 := Bconcat [zetScorePrefix; nameB; splitChar] in
    let keyPrefix2 := Bconcat [zetKeyPrefix; nameB; splitChar] in
    db_Write db (Zmset_batch db keyPrefix1 keyPrefix2 kvs).

Definition Zmget (db : DB) (name : string) (keys : list bytes) : Reply :=
  let keyPrefix := Bconcat [zetScorePrefix; StringToBytesNoCopy name; splitChar] in
  mget_reply (mget_loop db keyPrefix keys []).

Fixpoint Zmdel_batch (db : DB) (keyPrefix keyPrefix2 : bytes) (keys : list bytes)
    : Batch :=
  match keys with
  | [] => []
  | key :: rest =>
      let keyScore := Bconcat [keyPrefix; key] in
      match db_Get db keyScore with
      | (_, Some _) => Zmdel_batch db keyPrefix keyPrefix2 rest
      | (oldScore, None) =>
          BDelete keyScore
          :: BDelete (Bconcat [keyPrefix2; oldScore; splitChar; key])
          :: Zmdel_batch db keyPrefix keyPrefix2 rest
      end
  end.

Definition Zmdel (db : DB) (name : string) (keys : list bytes) : DB * option error :=
  let nameB := StringToBytesNoCopy name in
  let keyPrefix := Bconcat [zetScorePrefix; nameB; splitChar] in
  let keyPrefix2 := Bconcat [zetKeyPrefix; nameB; splitChar] in
  db_Write db (Zmdel_batch db keyPrefix keyPrefix2 keys).

(** [iter.Key()[keyBeginIndex:]] and [iter.Key()[scoreBeginIndex:scoreEndIndex]]. *)
Definition emit_zkey (scoreBeginIndex scoreEndIndex keyBeginIndex : nat)
    (k v : bytes) : option (list bytes) :=
  match slice_from k keyBeginIndex with
  | None => None
  | Some key =>
      match slice k scoreBeginIndex scoreEndIndex with
      | None => None
      | Some score => Some [key; score]
      end
  end.

Definition Zscan (db : DB) (name : string) (keyStart scoreStart : bytes)
    (limit : Z) : option Reply :=
  let scoreStart :=
    if (length scoreStart =? 0)%nat then Uint64ToBytes scoreMin else scoreStart in
  let keyPrefix := Bconcat [zetKeyPrefix; StringToBytesNoCopy name; splitChar] in
  let realKey := Bconcat [keyPrefix; scoreStart; splitChar; keyStart] in
  let scoreBeginIndex := length keyPrefix in
  let scoreEndIndex := (scoreBeginIndex + scoreByteLen)%nat in
  let keyBeginIndex := (scoreBeginIndex + scoreByteLen + 1)%nat in
  let sliceRange := BytesPrefix keyPrefix in
  let realKey :=
    if (length keyStart =? 0)%nat
    then Limit (BytesPrefix (Bconcat [keyPrefix; scoreStart; splitChar]))
    else realKey in
  let sliceRange := mkRange realKey (Limit sliceRange) in
  let iter := NewIterator db sliceRange in
  match scan_loop (fun k => bytes_ltb realKey k)
          (emit_zkey scoreBeginIndex scoreEndIndex keyBeginIndex) limit
          (forward iter) [] 0 with
  | None => None
  | Some res => Some (scan_reply iter res)
  end.

Definition Zrscan (db : DB) (name : string) (keyStart scoreStart : bytes)
    (limit : Z) : option Reply :=
  let scoreStart :=
    if (length scoreStart =? 0)%nat then Uint64ToBytes scoreMax else scoreStart in
  let keyPrefix := Bconcat [zetKeyPrefix; StringToBytesNoCopy name; splitChar] in
  let realKey := Bconcat [keyPrefix; scoreStart; splitChar; keyStart] in
  let scoreBeginIndex := length keyPrefix in
  let scoreEndIndex := (scoreBeginIndex + scoreByteLen)%nat in
  let keyBeginIndex := (scoreBeginIndex + scoreByteLen + 1)%nat in
  let sliceRange := BytesPrefix keyPrefix in
  let realKey :=
    if (length keyStart =? 0)%nat
    then Start (BytesPrefix (Bconcat [keyPrefix; scoreStart; splitChar]))
    else realKey in
  let sliceRange := mkRange (Start sliceRange) realKey in
  let iter := NewIterator db sliceRange in
  match scan_loop (fun k => bytes_ltb k realKey)
          (emit_zkey scoreBeginIndex scoreEndIndex keyBeginIndex) limit
          (backward iter) [] 0 with
  | None => None
  | Some res => Some (scan_reply iter res)
  end.

End Sharon.
Export Sharon.

(** ** Notions the statements use *)

Module Props.

(** [k] starts with [p]. *)
Definition has_prefix (p k : bytes) : bool :=
  bytes_Equal (firstn (length p) k) p.

(** What a counter [n] and a limit leave of a list of candidates: the walk
    stops when the counter, which goes up by one per entry, equals the
    limit; a limit the counter is already at or beyond never stops it. *)
Definition take_limit {A : Type} (limit n : Z) (l : list A) : list A :=
  if n <? limit then firstn (Z.to_nat (limit - n)) l else l.

(** The entries a forward scan over the prefix [p] from the position
    [p ++ s] selects from the table. *)
Definition forward_selection (db : DB) (p s : bytes) (limit : Z)
    : list (bytes * bytes) :=
  take_limit limit 0
    (filter (fun e => has_prefix p (fst e) && bytes_ltb (p ++ s) (fst e)) (tbl db)).

(** The [(member, value)] entry a hashmap scan cuts out of a store entry. *)
Definition strip (keyPrefixLen : nat) (e : bytes * bytes) : Entry :=
  mkEntry (skipn keyPrefixLen (fst e)) (snd e).

(** The [(member, score)] entry a sorted-set scan cuts out of an order-index
    key. *)
Definition zstrip (scoreBeginIndex : nat) (e : bytes * bytes) : Entry :=
  mkEntry (skipn (scoreBeginIndex + scoreByteLen + 1) (fst e))
          (firstn scoreByteLen (skipn scoreBeginIndex (fst e))).

Definition bucket_prefix (name : string) : bytes :=
  Bconcat [hashPrefix; StringToBytesNoCopy name; splitChar].

Definition order_prefix (name : string) : bytes :=
  Bconcat [zetKeyPrefix; StringToBytesNoCopy name; splitChar].

(** The direct-index key of [(name, member)]. *)
Definition direct_key (name : string) (member : bytes) : bytes :=
  Bconcat [zetScorePrefix; StringToBytesNoCopy name; splitChar; member].

(** The order-index key of [(name, score, member)]. *)
Definition order_key (name : string) (score member : bytes) : bytes :=
  Bconcat [zetKeyPrefix; StringToBytesNoCopy name; splitChar; score; splitChar; member].

(** The dual-index invariant of the sorted set: a member the direct index
    maps to [s] has the order-index entry of score [s], and no order-index
    entry of another 8-byte score. *)
Definition zset_consistent (t : table) : Prop :=
  forall name member s,
    tbl_get (direct_key name member) t = Some s ->
    tbl_get (order_key name s member) t <> None /\
    forall s', length s' = scoreByteLen ->
      tbl_get (order_key name s' member) t <> None -> s' = s.

(** A name, or a member, that does not contain the separator byte. *)
Definition clean (x : bytes) : Prop := ~ In x1c x.

(** The two indices of the sets with clean names agree in both directions:
    a member the direct index maps to [s] has an 8-byte score and its
    order-index entry, and an order-index entry of an 8-byte score belongs
    to a member the direct index maps to that score. *)
Definition zset_indexed (t : table) : Prop :=
  forall name, clean (StringToBytesNoCopy name) ->
    (forall member s, tbl_get (direct_key name member) t = Some s ->
       length s = scoreByteLen /\
       tbl_get (order_key name s member) t <> None) /\
    (forall member s, length s = scoreByteLen ->
       tbl_get (order_key name s member) t <> None ->
       tbl_get (direct_key name member) t = Some s).

(** Every key under the order-index prefix of [name] is an order-index key
    of [name]: an 8-byte score, the separator, a member. *)
Definition zorder_wf (t : table) (name : string) : Prop :=
  forall k v, In (k, v) t -> has_prefix (order_prefix name) k = true ->
    exists s m, length s = scoreByteLen /\ k = order_key name s m.

(** What a key contributes to a multi-get: the key and its value when the
    point read succeeds, nothing when it fails. *)
Definition fetched (db : DB) (keyPrefix key : bytes) : list bytes :=
  match db_Get db (Bconcat [keyPrefix; key]) with
  | (val, None) => [key; val]
  | (_, Some _) => []
  end.

(** The shape every pair-list reply has: data of even length; ok exactly
    when the data are not empty, as long as the store's iterator error is
    not itself the text of the ok status; and, with no data and no store
    error, the generic error status. *)
Definition well_shaped (db : DB) (r : Reply) : Prop :=
  Nat.Even (length (Data r)) /\
  (iter_fault db <> Some replyOK -> (OK r = true <-> Data r <> [])) /\
  (iter_fault db = None -> Data r = [] ->
     State r = replyError /\ NotFound r = false).

(** The replies of the calls that return pair lists. *)
Inductive produced (db : DB) : Reply -> Prop :=
| by_Hscan name keyStart limit r :
    Hscan db name keyStart limit = Some r -> produced db r
| by_Hprefix name prefix limit r :
    Hprefix db name prefix limit = Some r -> produced db r
| by_Hrscan name keyStart limit r :
    Hrscan db name keyStart limit = Some r -> produced db r
| by_Hmget name keys : produced db (Hmget db name keys)
| by_Zscan name keyStart scoreStart limit r :
    Zscan db name keyStart scoreStart limit = Some r -> produced db r
| by_Zrscan name keyStart scoreStart limit r :
    Zrscan db name keyStart scoreStart limit = Some r -> produced db r
| by_Zmget name keys : produced db (Zmget db name keys).

End Props.
Export Props.

(** ** Concrete stores *)

Module Examples.

Definition empty_db : DB := mkDB [] (fun _ => None) None None [].

Definition b (s : string) : bytes := list_byte_of_string s.

(** A counter at 5. *)
Definition counter_db : DB := fst (Hincr empty_db "counter" (b "cnt") 5).

(** The hashmap [h] with the members [a], [ab], [ab1], [ac]. *)
Definition hash_db : DB :=
  fst (Hmset empty_db "h"
         [b "ab1"; b "v1"; b "ab"; b "v0"; b "ac"; b "v2"; b "a"; b "v3"]).

(** The sorted set [z] with [m1] at 100 and [m2] at 50. *)
Definition zset_db : DB :=
  fst (Zset (fst (Zset empty_db "z" (b "m1") 100)) "z" (b "m2") 50).

End Examples.

(** ** Views of a reply and conversions *)

Module Views.

(** [BS.Uint64]: 0 on fewer than eight bytes, else the first eight bytes
    read big endian. *)
Definition BS_Uint64 (b : bytes) : Z :=
  if (length b <? 8)%nat then 0 else BigEndian_Uint64 b.

(** [BS.Int64]: the conversion [int64(b.Uint64())]. *)
Definition BS_Int64 (b : bytes) : Z := int64 (BS_Uint64 b).

(** [Reply.Bytes]. *)
Definition Bytes (r : Reply) : bytes := bytex r.

(** [Reply.Uint64] and [Reply.Int64]. *)
Definition Reply_Uint64 (r : Reply) : Z := BS_Uint64 (bytex r).
Definition Reply_Int64 (r : Reply) : Z := BS_Int64 (bytex r).

(** The loop [for i := 0; i < len(r.Data)-1; i += 2] of [KvEach], the
    effect of the callback threaded as a state. *)
Fixpoint KvEach_loop {S : Type} (fn : bytes -> bytes -> S -> S)
    (data : list bytes) (s : S) : S :=
  match data with
  | k :: v :: rest => KvEach_loop fn rest (fn k v s)
  | _ => s
  end.

Definition KvEach {S : Type} (r : Reply) (fn : bytes -> bytes -> S -> S) (s : S)
    : S * Z :=
  (KvEach_loop fn (Data r) s, KvLen r).

(** The loop of [Dict]: every pair assigned into the map in turn, a later
    pair replacing an earlier one of the same key.  The Go map is a finite
    map from keys to values. *)
Fixpoint Dict_loop (data : list bytes) (dict : table) : table :=
  match data with
  | k :: v :: rest => Dict_loop rest (tbl_put k v dict)
  | _ => dict
  end.

Definition Dict (r : Reply) : table := Dict_loop (Data r) [].

End Views.
Export Views.

(** ** Decimal strings

    [strconv.ParseUint(s, 10, 64)] and [strconv.FormatUint(v, 10)] of the Go
    library, as their documentation and code give them: the parse fails on
    the empty string, on any byte that is not a decimal digit, and on a
    value above 2^64 - 1; the format writes the decimal digits without
    leading zeros. *)

Module Digits.

Definition cutoff : Z := scoreMax / 10 + 1.

(** The loop of [ParseUint] over the bytes of the string; [None] is a
    syntax or range error. *)
Fixpoint ParseUint_loop (s : bytes) (n : Z) : option Z :=
  match s with
  | [] => Some n
  | c :: rest =>
      let code := Z_of_byte c in
      if (48 <=? code) && (code <=? 57) then
        let d := code - 48 in
        if cutoff <=? n then None
        else
          let n := uint64 (n * 10) in
          let n1 := uint64 (n + d) in
          if (n1 <? n) || (scoreMax <? n1) then None
          else ParseUint_loop rest n1
      else None
  end.

Definition ParseUint (s : string) : option Z :=
  match list_byte_of_string s with
  | [] => None
  | l => ParseUint_loop l 0
  end.

(** The digits of [v], most significant first, in front of [acc]; the fuel
    bounds the number of digits. *)
Fixpoint FormatUint_loop (fuel : nat) (v : Z) (acc : bytes) : bytes :=
  match fuel with
  | O => acc
  | S fuel' =>
      if v <? 10 then byte_of_Z (48 + v) :: acc
      else FormatUint_loop fuel' (v / 10) (byte_of_Z (48 + v mod 10) :: acc)
  end.

(** A 64-bit number has at most twenty decimal digits. *)
Definition FormatUint (v : Z) : string :=
  string_of_list_byte (FormatUint_loop 20 v []).

(** [DigitStringToBytes]. *)
Definition DigitStringToBytes (v : string) : bytes :=
  match ParseUint v with
  | None => []
  | Some i => Uint64ToBytes i
  end.

(** [BytesToDigitString]; [None] is the panic of [binary.BigEndian.Uint64]
    on fewer than eight bytes. *)
Definition BytesToDigitString (v : bytes) : option string :=
  if (length v <? 8)%nat then None
  else Some (FormatUint (BigEndian_Uint64 v)).

(** [DigitStringToUint64]. *)
Definition DigitStringToUint64 (v : string) : Z :=
  match ParseUint v with
  | None => 0
  | Some i => i
  end.

End Digits.
Export Digits.

(** ** Notions of the further statements *)

Module Coverage.

(** The composite key of a hashmap member. *)
Definition hash_key (name : string) (key : bytes) : bytes :=
  Bconcat [hashPrefix; StringToBytesNoCopy name; splitChar; key].

(** The last pair of a pair list that names [k]. *)
Definition last_pair (k : bytes) (l : list Entry) : option Entry :=
  find (fun e => bytes_Equal k (Key e)) (rev l).

(** The first byte of a key: the namespace tag. *)
Definition tag_of (k : bytes) : option byte :=
  match k with
  | c :: _ => Some c
  | [] => None
  end.

(** Every record of the batch writes or deletes a key of the tag [c]. *)
Definition batch_tagged (accept : byte -> bool) (b : Batch) : Prop :=
  forall op, In op b ->
    match op with
    | BPut k _ | BDelete k =>
        match tag_of k with Some c => accept c = true | None => False end
    end.

(** The order of the order index on [(member, score)] entries: by score,
    then by member. *)
Definition score_member_lt (e1 e2 : Entry) : Prop :=
  bytes_lt (Value e1) (Value e2) \/
  (Value e1 = Value e2 /\ bytes_lt (Key e1) (Key e2)).

End Coverage.
Export Coverage.

(** ** Facts on bytes and their order *)

Section BytesFacts.

Lemma Z_of_byte_range (b : byte) : 0 <= Z_of_byte b < 256.
Proof.
  unfold Z_of_byte. pose proof (Byte.to_N_bounded b) as H.
  split; [apply N2Z.is_nonneg|].
  apply N2Z.inj_le in H. change (Z.of_N 255) with 255 in H. lia.
Qed.

Lemma Z_of_byte_of_Z (z : Z) : Z_of_byte (byte_of_Z z) = z mod 256.
Proof.
  unfold byte_of_Z, Z_of_byte.
  assert (Hr : 0 <= z mod 256 < 256) by (apply Z.mod_pos_bound; lia).
  destruct (Byte.of_N (Z.to_N (z mod 256))) as [b|] eqn:E.
  - apply Byte.to_of_N in E. rewrite E. apply Z2N.id. lia.
  - apply Byte.of_N_None_iff in E.
    apply N2Z.inj_lt in E. rewrite Z2N.id in E by lia.
    change (Z.of_N 255) with 255 in E. lia.
Qed.

Lemma Z_of_byte_inj (x y : byte) : Z_of_byte x = Z_of_byte y -> x = y.
Proof.
  unfold Z_of_byte. intros H. apply N2Z.inj in H.
  pose proof (Byte.of_to_N x) as Hx. pose proof (Byte.of_to_N y) as Hy.
  rewrite H in Hx. congruence.
Qed.

Lemma byte_of_Z_of_byte (b : byte) : byte_of_Z (Z_of_byte b) = b.
Proof.
  apply Z_of_byte_inj. rewrite Z_of_byte_of_Z.
  apply Z.mod_small, Z_of_byte_range.
Qed.

Lemma byte_compare_refl (x : byte) : byte_compare x x = Eq.
Proof. apply Z.compare_refl. Qed.

Lemma byte_compare_eq (x y : byte) : byte_compare x y = Eq -> x = y.
Proof. intros H. apply Z.compare_eq in H. now apply Z_of_byte_inj. Qed.

Lemma bytes_compare_refl (a : bytes) : bytes_compare a a = Eq.
Proof.
  induction a as [|x a IH]; simpl; [reflexivity|].
  now rewrite byte_compare_refl.
Qed.

Lemma bytes_compare_eq (a b : bytes) : bytes_compare a b = Eq -> a = b.
Proof.
  revert b. induction a as [|x a IH]; intros [|y b]; simpl; try discriminate.
  - reflexivity.
  - destruct (byte_compare x y) eqn:E; try discriminate.
    intros H. apply byte_compare_eq in E. apply IH in H. congruence.
Qed.

Lemma bytes_compare_eq_iff (a b : bytes) : bytes_compare a b = Eq <-> a = b.
Proof.
  split; [apply bytes_compare_eq|]. intros ->. apply bytes_compare_refl.
Qed.

Lemma bytes_compare_antisym (a b : bytes) :
  bytes_compare b a = CompOpp (bytes_compare a b).
Proof.
  revert b. induction a as [|x a IH]; intros [|y b]; simpl; try reflexivity.
  unfold byte_compare. rewrite (Z.compare_antisym (Z_of_byte x) (Z_of_byte y)).
  destruct (Z_of_byte x ?= Z_of_byte y); simpl; auto.
Qed.

Lemma bytes_lt_trans (a b c : bytes) :
  bytes_lt a b -> bytes_lt b c -> bytes_lt a c.
Proof.
  unfold bytes_lt. revert b c.
  induction a as [|x a IH]; intros [|y b] [|z c]; simpl; try congruence.
  unfold byte_compare.
  destruct (Z.compare_spec (Z_of_byte x) (Z_of_byte y));
  destruct (Z.compare_spec (Z_of_byte y) (Z_of_byte z));
  destruct (Z.compare_spec (Z_of_byte x) (Z_of_byte z));
  try congruence; try lia; eauto.
Qed.

Lemma bytes_lt_irrefl (a : bytes) : ~ bytes_lt a a.
Proof. unfold bytes_lt. rewrite bytes_compare_refl. discriminate. Qed.

Lemma bytes_lt_neq (a b : bytes) : bytes_lt a b -> a <> b.
Proof. intros H ->. exact (bytes_lt_irrefl _ H). Qed.

Lemma bytes_compare_app (p a b : bytes) :
  bytes_compare (p ++ a) (p ++ b) = bytes_compare a b.
Proof.
  induction p as [|x p IH]; simpl; [reflexivity|].
  now rewrite byte_compare_refl.
Qed.

Lemma bytes_Equal_true (a b : bytes) : bytes_Equal a b = true <-> a = b.
Proof.
  unfold bytes_Equal. rewrite <- bytes_compare_eq_iff.
  destruct (bytes_compare a b); split; congruence.
Qed.

Lemma bytes_ltb_lt (a b : bytes) : bytes_ltb a b = true <-> bytes_lt a b.
Proof.
  unfold bytes_ltb, bytes_lt.
  destruct (bytes_compare a b); split; congruence.
Qed.

End BytesFacts.

(** ** The fixed-width encoding *)

Section Encoding.

Lemma be_val_range (l : bytes) : 0 <= be_val l < 256 ^ Z.of_nat (length l).
Proof.
  induction l as [|x l IH]; simpl length; cbn [be_val]; [simpl; lia|].
  rewrite Nat2Z.inj_succ, Z.pow_succ_r by lia.
  pose proof (Z_of_byte_range x). nia.
Qed.

(** On strings of one length the byte order is the order of the numbers. *)
Lemma bytes_compare_be_val (a b : bytes) :
  length a = length b ->
  bytes_compare a b = Z.compare (be_val a) (be_val b).
Proof.
  revert b. induction a as [|x a IH]; intros [|y b] Hlen; try discriminate.
  - reflexivity.
  - injection Hlen as Hlen. cbn [bytes_compare be_val]. rewrite <- Hlen.
    pose proof (be_val_range a) as Ha. pose proof (be_val_range b) as Hb.
    rewrite <- Hlen in Hb. specialize (IH b Hlen).
    set (w := 256 ^ Z.of_nat (length a)) in *.
    unfold byte_compare.
    destruct (Z.compare_spec (Z_of_byte x) (Z_of_byte y)) as [E|L|G].
    + rewrite E, IH.
      destruct (Z.compare_spec (be_val a) (be_val b));
        symmetry; [apply Z.compare_eq_iff | apply Z.compare_lt_iff
                  | apply Z.compare_gt_iff]; nia.
    + symmetry. apply Z.compare_lt_iff. nia.
    + symmetry. apply Z.compare_gt_iff. nia.
Qed.

Lemma lor_shiftl_add (a b n : Z) :
  0 <= n -> 0 <= a < 2 ^ n -> Z.lor a (Z.shiftl b n) = a + b * 2 ^ n.
Proof.
  intros Hn Ha.
  rewrite <- (Z.shiftl_mul_pow2 b n Hn).
  rewrite <- (Z.add_lor_land a (Z.shiftl b n)).
  assert (E : Z.land a (Z.shiftl b n) = 0).
  { apply Z.bits_inj'. intros i Hi.
    rewrite Z.land_spec, Z.bits_0.
    destruct (Z.lt_ge_cases i n) as [L|G].
    - rewrite (Z.shiftl_spec_low b n i L). apply andb_false_r.
    - replace a with (a mod 2 ^ n) by (apply Z.mod_small; lia).
      rewrite Z.mod_pow2_bits_high by lia. reflexivity. }
  rewrite E. lia.
Qed.

Lemma BigEndian_Uint64_be_val (b0 b1 b2 b3 b4 b5 b6 b7 : byte) :
  BigEndian_Uint64 [b0; b1; b2; b3; b4; b5; b6; b7]
  = be_val [b0; b1; b2; b3; b4; b5; b6; b7].
Proof.
  unfold BigEndian_Uint64.
  pose proof (Z_of_byte_range b0). pose proof (Z_of_byte_range b1).
  pose proof (Z_of_byte_range b2). pose proof (Z_of_byte_range b3).
  pose proof (Z_of_byte_range b4). pose proof (Z_of_byte_range b5).
  pose proof (Z_of_byte_range b6). pose proof (Z_of_byte_range b7).
  rewrite (lor_shiftl_add _ _ 8) by lia.
  rewrite (lor_shiftl_add _ _ 16) by lia.
  rewrite (lor_shiftl_add _ _ 24) by lia.
  rewrite (lor_shiftl_add _ _ 32) by lia.
  rewrite (lor_shiftl_add _ _ 40) by lia.
  rewrite (lor_shiftl_add _ _ 48) by lia.
  rewrite (lor_shiftl_add _ _ 56) by lia.
  cbn [be_val length]. simpl Z.of_nat. lia.
Qed.

Lemma Uint64ToBytes_length (v : Z) : length (Uint64ToBytes v) = 8%nat.
Proof. reflexivity. Qed.

(** The byte at index [i] of the encoding is digit [7 - i] of [v] in base
    256. *)
Lemma Uint64ToBytes_nth (v : Z) (i : nat) :
  (i < 8)%nat ->
  Z_of_byte (nth i (Uint64ToBytes v) x00)
  = (v / 256 ^ (7 - Z.of_nat i)) mod 256.
Proof.
  intros Hi. unfold Uint64ToBytes.
  do 7 (destruct i as [|i];
        [cbn [nth]; rewrite Z_of_byte_of_Z, Z.shiftr_div_pow2 by lia;
         reflexivity|]).
  destruct i as [|i]; [|lia].
  cbn [nth]. rewrite Z_of_byte_of_Z.
  change (256 ^ (7 - Z.of_nat 7)) with 1. now rewrite Z.div_1_r.
Qed.

Lemma be_val_Uint64ToBytes (v : Z) :
  is_uint64 v -> be_val (Uint64ToBytes v) = v.
Proof.
  unfold is_uint64, scoreMax. intros Hv.
  unfold Uint64ToBytes. cbn [be_val length]. simpl Z.of_nat.
  rewrite !Z_of_byte_of_Z, !Z.shiftr_div_pow2 by lia.
  pose proof (Z.div_mod v 256 ltac:(lia)) as E0.
  pose proof (Z.div_mod (v / 2 ^ 8) 256 ltac:(lia)) as E1.
  pose proof (Z.div_mod (v / 2 ^ 16) 256 ltac:(lia)) as E2.
  pose proof (Z.div_mod (v / 2 ^ 24) 256 ltac:(lia)) as E3.
  pose proof (Z.div_mod (v / 2 ^ 32) 256 ltac:(lia)) as E4.
  pose proof (Z.div_mod (v / 2 ^ 40) 256 ltac:(lia)) as E5.
  pose proof (Z.div_mod (v / 2 ^ 48) 256 ltac:(lia)) as E6.
  pose proof (Z.div_mod (v / 2 ^ 56) 256 ltac:(lia)) as E7.
  change 256 with (2 ^ 8) in E0 at 2.
  rewrite Z.div_div in E1, E2, E3, E4, E5, E6, E7 by lia.
  change (2 ^ 8 * 256) with (2 ^ 16) in E1.
  change (2 ^ 16 * 256) with (2 ^ 24) in E2.
  change (2 ^ 24 * 256) with (2 ^ 32) in E3.
  change (2 ^ 32 * 256) with (2 ^ 40) in E4.
  change (2 ^ 40 * 256) with (2 ^ 48) in E5.
  change (2 ^ 48 * 256) with (2 ^ 56) in E6.
  change (2 ^ 56 * 256) with (2 ^ 64) in E7.
  rewrite (Z.div_small v (2 ^ 64)) in E7 by lia.
  lia.
Qed.

Lemma BytesToUint64_Uint64ToBytes (v : Z) :
  is_uint64 v -> BytesToUint64 (Uint64ToBytes v) = v.
Proof.
  intros Hv. rewrite <- (be_val_Uint64ToBytes v Hv) at 2.
  unfold BytesToUint64. rewrite Uint64ToBytes_length.
  change (firstn 8 (Uint64ToBytes v)) with (Uint64ToBytes v).
  unfold Uint64ToBytes. apply BigEndian_Uint64_be_val.
Qed.

Lemma Uint64ToBytes_compare (v w : Z) :
  is_uint64 v -> is_uint64 w ->
  bytes_compare (Uint64ToBytes v) (Uint64ToBytes w) = Z.compare v w.
Proof.
  intros Hv Hw. rewrite bytes_compare_be_val by reflexivity.
  now rewrite !be_val_Uint64ToBytes.
Qed.

Lemma Uint64ToBytes_inj (v w : Z) :
  is_uint64 v -> is_uint64 w -> Uint64ToBytes v = Uint64ToBytes w -> v = w.
Proof.
  intros Hv Hw E. rewrite <- (be_val_Uint64ToBytes v Hv).
  rewrite <- (be_val_Uint64ToBytes w Hw). now rewrite E.
Qed.

Lemma BytesToUint64_range (b : bytes) : is_uint64 (BytesToUint64 b).
Proof.
  unfold BytesToUint64, is_uint64, scoreMax.
  destruct (length b <? 8)%nat eqn:E; [lia|].
  apply Nat.ltb_ge in E.
  do 8 (destruct b as [|? b]; [simpl in E; lia|]).
  cbn [firstn]. rewrite BigEndian_Uint64_be_val.
  match goal with |- context [be_val ?l] => pose proof (be_val_range l) as H end.
  cbn [length] in H. simpl Z.of_nat in H.
  change (256 ^ 8) with (2 ^ 64) in H. lia.
Qed.

(** C8.  Decoding the 8-byte encoding of a 64-bit unsigned integer gives the
    integer back; the encoding is exactly eight bytes, most significant
    first; and the byte-lexicographic comparison of two encodings is the
    comparison of the numbers. *)
Theorem Uint64_roundtrip_and_order (v : Z) :
  is_uint64 v ->
  BytesToUint64 (Uint64ToBytes v) = v /\
  length (Uint64ToBytes v) = 8%nat /\
  (forall i, (i < 8)%nat ->
     Z_of_byte (nth i (Uint64ToBytes v) x00)
     = (v / 256 ^ (7 - Z.of_nat i)) mod 256) /\
  (forall w, is_uint64 w ->
     bytes_compare (Uint64ToBytes v) (Uint64ToBytes w) = Z.compare v w).
Proof.
  intros Hv. split; [now apply BytesToUint64_Uint64ToBytes|].
  split; [reflexivity|]. split.
  - intros i Hi. now apply Uint64ToBytes_nth.
  - intros w Hw. now apply Uint64ToBytes_compare.
Qed.

Lemma Uint64_roundtrip_and_order_witness :
  is_uint64 123456 /\
  BytesToUint64 (Uint64ToBytes 123456) = 123456 /\
  bytes_compare (Uint64ToBytes 123456) (Uint64ToBytes 70000) = Gt.
Proof.
  assert (H : is_uint64 123456) by (unfold is_uint64, scoreMax; lia).
  destruct (Uint64_roundtrip_and_order 123456 H) as (R & _ & _ & C).
  split; [exact H|]. split; [exact R|].
  rewrite C by (unfold is_uint64, scoreMax; lia). reflexivity.
Defined.

End Encoding.

(** ** The table as a map *)

Section TableFacts.

Lemma tbl_get_put_same (k v : bytes) (t : table) :
  tbl_get k (tbl_put k v t) = Some v.
Proof.
  induction t as [|[k' v'] t IH]; cbn [tbl_put tbl_get].
  - now rewrite bytes_compare_refl.
  - destruct (bytes_compare k k') eqn:E; cbn [tbl_get].
    + now rewrite bytes_compare_refl.
    + now rewrite bytes_compare_refl.
    + now rewrite E.
Qed.

Lemma tbl_get_put_other (k k2 v : bytes) (t : table) :
  k2 <> k -> tbl_get k2 (tbl_put k v t) = tbl_get k2 t.
Proof.
  intros Hne.
  assert (Hk : bytes_compare k2 k <> Eq)
    by (intros E; apply Hne; now apply bytes_compare_eq).
  induction t as [|[k' v'] t IH]; cbn [tbl_put tbl_get].
  - destruct (bytes_compare k2 k); congruence.
  - destruct (bytes_compare k k') eqn:E; cbn [tbl_get].
    + apply bytes_compare_eq in E. subst k'.
      destruct (bytes_compare k2 k); congruence.
    + destruct (bytes_compare k2 k); congruence.
    + now rewrite IH.
Qed.

Lemma tbl_get_del_same (k : bytes) (t : table) : tbl_get k (tbl_del k t) = None.
Proof.
  unfold tbl_del. induction t as [|[k' v'] t IH]; cbn [filter tbl_get fst]; auto.
  unfold bytes_Equal at 1.
  destruct (bytes_compare k k') eqn:E; cbn [negb tbl_get]; auto; now rewrite E.
Qed.

Lemma tbl_get_del_other (k k2 : bytes) (t : table) :
  k2 <> k -> tbl_get k2 (tbl_del k t) = tbl_get k2 t.
Proof.
  intros Hne. unfold tbl_del.
  induction t as [|[k' v'] t IH]; cbn [filter tbl_get fst]; auto.
  destruct (bytes_Equal k k') eqn:E; cbn [negb tbl_get].
  - apply bytes_Equal_true in E. subst k'.
    destruct (bytes_compare k2 k) eqn:E2; auto.
    apply bytes_compare_eq in E2. contradiction.
  - now rewrite IH.
Qed.

Lemma tbl_get_In (k v : bytes) (t : table) : tbl_get k t = Some v -> In (k, v) t.
Proof.
  induction t as [|[k' v'] t IH]; cbn [tbl_get]; [discriminate|].
  destruct (bytes_compare k k') eqn:E; intros H.
  - apply bytes_compare_eq in E. left. congruence.
  - right. auto.
  - right. auto.
Qed.

Lemma ordered_head_lt (e : bytes * bytes) (t : table) :
  ordered (e :: t) -> forall e', In e' t -> key_lt e e'.
Proof.
  intros H e' Hin. apply StronglySorted_inv in H as [_ H].
  rewrite Forall_forall in H. auto.
Qed.

Lemma ordered_tail (e : bytes * bytes) (t : table) : ordered (e :: t) -> ordered t.
Proof. intros H. now apply StronglySorted_inv in H. Qed.

Lemma In_tbl_get (k v : bytes) (t : table) :
  ordered t -> In (k, v) t -> tbl_get k t = Some v.
Proof.
  induction t as [|[k' v'] t IH]; intros Ho Hin; [contradiction|].
  cbn [tbl_get]. destruct Hin as [E|Hin].
  - injection E as -> ->. now rewrite bytes_compare_refl.
  - pose proof (ordered_head_lt _ _ Ho _ Hin) as L. unfold key_lt in L.
    cbn [fst] in L. rewrite bytes_compare_antisym, L. cbn [CompOpp].
    apply IH; [now apply ordered_tail in Ho | exact Hin].
Qed.

Lemma ordered_filter (f : bytes * bytes -> bool) (t : table) :
  ordered t -> ordered (filter f t).
Proof.
  induction 1 as [|e t Ho IH Hall]; cbn [filter]; [constructor|].
  destruct (f e); [|exact IH].
  constructor; [exact IH|].
  rewrite Forall_forall in *. intros x Hx. apply filter_In in Hx. now apply Hall.
Qed.

Lemma tbl_put_In (k v : bytes) (t : table) (e : bytes * bytes) :
  In e (tbl_put k v t) -> e = (k, v) \/ In e t.
Proof.
  induction t as [|[k' v'] t IH]; cbn [tbl_put].
  - intros [H|[]]; auto.
  - destruct (bytes_compare k k'); cbn [In]; intuition.
Qed.

Lemma ordered_put (k v : bytes) (t : table) : ordered t -> ordered (tbl_put k v t).
Proof.
  induction 1 as [|[k' v'] t Ho IH Hall]; cbn [tbl_put].
  - repeat constructor.
  - destruct (bytes_compare k k') eqn:E.
    + apply bytes_compare_eq in E. subst k'. now constructor.
    + constructor; [now constructor|].
      constructor; [exact E|].
      rewrite Forall_forall in *. intros x Hx.
      unfold key_lt in *. cbn [fst] in *.
      eapply bytes_lt_trans; [exact E | now apply Hall].
    + constructor; [exact IH|].
      rewrite Forall_forall in *. intros x Hx.
      apply tbl_put_In in Hx as [->|Hx]; [|now apply Hall].
      unfold key_lt, bytes_lt. cbn [fst].
      rewrite bytes_compare_antisym, E. reflexivity.
Qed.

Lemma ordered_del (k : bytes) (t : table) : ordered t -> ordered (tbl_del k t).
Proof. apply ordered_filter. Qed.

Lemma ordered_apply_batch (b : Batch) (t : table) :
  ordered t -> ordered (apply_batch b t).
Proof.
  unfold apply_batch. revert t.
  induction b as [|op b IH]; intros t Ho; cbn [fold_left]; [exact Ho|].
  apply IH. destruct op; cbn [apply_op]; [now apply ordered_put | now apply ordered_del].
Qed.

Lemma db_Write_ordered (db : DB) (b : Batch) :
  ordered (tbl db) -> ordered (tbl (fst (db_Write db b))).
Proof.
  intros Ho. unfold db_Write.
  destruct (write_fault db); cbn [fst tbl]; [exact Ho|].
  now apply ordered_apply_batch.
Qed.

End TableFacts.

(** ** Counters *)

Section Counters.

Lemma uint64_small (z : Z) : is_uint64 z -> uint64 z = z.
Proof.
  unfold is_uint64, scoreMax, uint64. intros H. apply Z.mod_small. lia.
Qed.

Lemma uint64_neg_step (step : Z) :
  is_int64 step -> step <= 0 -> uint64 (int64 (- step)) = - step.
Proof.
  unfold is_int64, uint64, int64. intros H Hs.
  change (2 ^ 63) with 9223372036854775808 in *.
  change (2 ^ 64) with 18446744073709551616 in *.
  Z.to_euclidean_division_equations. lia.
Qed.

(** The arithmetic of the increment without the wrap-around: the overflow
    error when the sum leaves [0, 2^64 - 1], the sum otherwise. *)
Lemma incr_num_spec (cur step : Z) :
  is_uint64 cur -> is_int64 step ->
  incr_num cur step =
    if ((0 <? step) && (scoreMax <? cur + step))
       || ((step <=? 0) && (cur <? Z.abs step))
    then None else Some (cur + step).
Proof.
  intros Hc Hs. unfold incr_num.
  assert (Hc' := Hc). assert (Hs' := Hs).
  unfold is_uint64, scoreMax in Hc'. unfold is_int64 in Hs'.
  change (2 ^ 63) with 9223372036854775808 in *.
  destruct (0 <? step) eqn:Ep.
  - apply Z.ltb_lt in Ep.
    replace (step <=? 0) with false by (symmetry; apply Z.leb_gt; lia).
    cbn [andb orb].
    rewrite (uint64_small step) by (unfold is_uint64, scoreMax; lia).
    rewrite (uint64_small (scoreMax - step)) by (unfold is_uint64, scoreMax; lia).
    replace (scoreMax - step <? cur) with (scoreMax <? cur + step)
      by (apply eq_true_iff_eq; rewrite !Z.ltb_lt; lia).
    destruct (scoreMax <? cur + step) eqn:Eo; [reflexivity|].
    apply Z.ltb_ge in Eo.
    rewrite uint64_small by (unfold is_uint64 in *; lia). reflexivity.
  - apply Z.ltb_ge in Ep.
    replace (step <=? 0) with true by (symmetry; apply Z.leb_le; lia).
    cbn [andb orb].
    rewrite (uint64_neg_step step Hs Ep).
    replace (Z.abs step) with (- step) by lia.
    destruct (cur <? - step) eqn:Eo; [reflexivity|].
    apply Z.ltb_ge in Eo.
    rewrite uint64_small by (unfold is_uint64, scoreMax; lia).
    f_equal. lia.
Qed.

Lemma HgetInt_range (db : DB) (name : string) (key : bytes) :
  is_uint64 (HgetInt db name key).
Proof.
  unfold HgetInt.
  destruct (db_Get db _) as [val [e|]]; [|apply BytesToUint64_range].
  unfold is_uint64, scoreMax. lia.
Qed.

Lemma Hincr_unfold (db : DB) (name : string) (key : bytes) (step : Z) :
  Hincr db name key step =
    match incr_num (HgetInt db name key) step with
    | None => (db, (0, Some overflow))
    | Some newNum =>
        match db_Put db (Bconcat [hashPrefix; StringToBytesNoCopy name; splitChar; key])
                (Uint64ToBytes newNum) with
        | (db', Some err) => (db', (0, Some err))
        | (db', None) => (db', (newNum, None))
        end
    end.
Proof.
  unfold Hincr, HgetInt.
  destruct (db_Get db _) as [val [e|]]; reflexivity.
Qed.

Lemma Hincr_overflow (db : DB) (name : string) (key : bytes) (step : Z) :
  is_int64 step ->
  (0 < step /\ scoreMax < HgetInt db name key + step) \/
  (step <= 0 /\ HgetInt db name key < Z.abs step) ->
  Hincr db name key step = (db, (0, Some overflow)).
Proof.
  intros Hs Ho. rewrite Hincr_unfold.
  rewrite (incr_num_spec _ _ (HgetInt_range db name key) Hs).
  replace (_ || _) with true; [reflexivity|].
  symmetry. apply orb_true_iff.
  destruct Ho as [[H1 H2]|[H1 H2]]; [left|right]; apply andb_true_iff;
    rewrite ?Z.ltb_lt, ?Z.leb_le; lia.
Qed.

Lemma Hincr_success (db : DB) (name : string) (key : bytes) (step : Z) :
  is_int64 step ->
  ~ ((0 < step /\ scoreMax < HgetInt db name key + step) \/
     (step <= 0 /\ HgetInt db name key < Z.abs step)) ->
  write_fault db = None ->
  let realKey := Bconcat [hashPrefix; StringToBytesNoCopy name; splitChar; key] in
  let newNum := HgetInt db name key + step in
  exists db',
    Hincr db name key step = (db', (newNum, None)) /\
    tbl db' = tbl_put realKey (Uint64ToBytes newNum) (tbl db) /\
    written db' = written db ++ [[BPut realKey (Uint64ToBytes newNum)]] /\
    tbl_get realKey (tbl db') = Some (Uint64ToBytes newNum).
Proof.
  intros Hs Hno Hw realKey newNum. rewrite Hincr_unfold.
  rewrite (incr_num_spec _ _ (HgetInt_range db name key) Hs).
  replace (_ || _) with false.
  - fold realKey newNum. unfold db_Put, db_Write. rewrite Hw.
    eexists. split; [reflexivity|]. cbn [tbl written apply_batch fold_left apply_op].
    repeat split. apply tbl_get_put_same.
  - symmetry. apply orb_false_iff. split; apply andb_false_iff.
    + destruct (Z.ltb_spec 0 step); [right|now left].
      apply Z.ltb_ge. lia.
    + destruct (Z.leb_spec step 0); [right|now left].
      apply Z.ltb_ge. lia.
Qed.

(** C4.  [Hincr] reads a missing or unreadable counter as 0; it fails with
    the overflow error and leaves the store untouched when a positive step
    would take the counter past 2^64 - 1 or when the magnitude of a
    non-positive step exceeds the counter; otherwise it stores the 8-byte
    encoding of counter + step and returns that number.  From 0 a step of -1
    fails, from 2^64 - 2 a step of 2 fails, from 5 a step of -2 stores and
    returns 3. *)
Theorem Hincr_bounds (db : DB) (name : string) (key : bytes) (step : Z) :
  is_int64 step ->
  let realKey := Bconcat [hashPrefix; StringToBytesNoCopy name; splitChar; key] in
  let current := HgetInt db name key in
  (forall e, snd (db_Get db realKey) = Some e -> current = 0) /\
  (forall val, db_Get db realKey = (val, None) -> current = BytesToUint64 val) /\
  ((0 < step /\ scoreMax < current + step) \/ (step <= 0 /\ current < Z.abs step) ->
     Hincr db name key step = (db, (0, Some overflow))) /\
  (~ ((0 < step /\ scoreMax < current + step) \/ (step <= 0 /\ current < Z.abs step)) ->
   write_fault db = None ->
     exists db',
       Hincr db name key step = (db', (current + step, None)) /\
       tbl db' = tbl_put realKey (Uint64ToBytes (current + step)) (tbl db) /\
       written db' = written db ++ [[BPut realKey (Uint64ToBytes (current + step))]] /\
       tbl_get realKey (tbl db') = Some (Uint64ToBytes (current + step)) /\
       length (Uint64ToBytes (current + step)) = 8%nat) /\
  (current = 0 -> Hincr db name key (-1) = (db, (0, Some overflow))) /\
  (current = 2 ^ 64 - 2 -> Hincr db name key 2 = (db, (0, Some overflow))) /\
  (current = 5 -> write_fault db = None ->
     exists db',
       Hincr db name key (-2) = (db', (3, None)) /\
       tbl_get realKey (tbl db') = Some (Uint64ToBytes 3)).
Proof.
  intros Hs realKey current.
  assert (I1 : is_int64 (-1)) by (unfold is_int64; lia).
  assert (I2 : is_int64 2) by (unfold is_int64; lia).
  assert (I3 : is_int64 (-2)) by (unfold is_int64; lia).
  repeat split.
  - intros e He. unfold current, HgetInt. fold realKey.
    destruct (db_Get db realKey) as [val [e'|]]; [reflexivity|discriminate].
  - intros val Hv. unfold current, HgetInt. fold realKey. now rewrite Hv.
  - now apply Hincr_overflow.
  - intros Hno Hw.
    destruct (Hincr_success db name key step Hs Hno Hw) as (db' & E & T & W & G).
    exists db'. repeat split; assumption.
  - intros H0. apply Hincr_overflow; [exact I1|]. right. fold current. lia.
  - intros H0. apply Hincr_overflow; [exact I2|]. left. fold current.
    unfold scoreMax. lia.
  - intros H5 Hw.
    destruct (Hincr_success db name key (-2) I3) as (db' & E & T & W & G);
      [fold current; unfold scoreMax; lia | exact Hw |].
    fold current in E, G. rewrite H5 in E, G. exists db'. split; assumption.
Qed.

End Counters.

Lemma Hincr_bounds_witness :
  is_int64 (-2) /\
  exists db',
    Hincr Examples.counter_db "counter" (Examples.b "cnt") (-2) = (db', (3, None)) /\
    tbl_get (Bconcat [hashPrefix; StringToBytesNoCopy "counter"; splitChar;
                      Examples.b "cnt"]) (tbl db')
    = Some (Uint64ToBytes 3).
Proof.
  assert (I : is_int64 (-2)) by (unfold is_int64; lia).
  split; [exact I|].
  destruct (Hincr_bounds Examples.counter_db "counter" (Examples.b "cnt") (-2) I)
    as (_ & _ & _ & _ & _ & _ & H).
  apply H; vm_compute; reflexivity.
Defined.

(** ** Multi-get and multi-set *)

Section Multi.

Lemma mget_loop_flat_map (db : DB) (keyPrefix : bytes) (keys data : list bytes) :
  mget_loop db keyPrefix keys data
  = data ++ flat_map (fetched db keyPrefix) keys.
Proof.
  revert data. induction keys as [|key keys IH]; intros data; cbn [mget_loop flat_map].
  - now rewrite app_nil_r.
  - unfold fetched at 1.
    destruct (db_Get db (Bconcat [keyPrefix; key])) as [val [e|]]; rewrite IH.
    + reflexivity.
    + now rewrite <- app_assoc.
Qed.

Lemma fetched_even (db : DB) (keyPrefix : bytes) (keys : list bytes) :
  Nat.Even (length (flat_map (fetched db keyPrefix) keys)).
Proof.
  induction keys as [|key keys [m IH]]; cbn [flat_map]; [exists 0%nat; reflexivity|].
  rewrite length_app, IH. unfold fetched.
  destruct (db_Get db _) as [val [e|]]; cbn [length].
  - exists m. lia.
  - exists (S m). lia.
Qed.

Lemma mget_reply_shape (data : list bytes) :
  Data (mget_reply data) = data /\
  (OK (mget_reply data) = true <-> data <> []) /\
  (data = [] -> State (mget_reply data) = replyError).
Proof.
  unfold mget_reply. destruct data as [|x data]; cbn; repeat split;
    try congruence; try discriminate.
Qed.

(** C6.  [Hmget] skips every member whose point read fails, not-found
    included: its data are, in the order the members were given, each
    member that was read followed by its value, and its state is ok exactly
    when at least one pair was retrieved. *)
Theorem Hmget_best_effort (db : DB) (name : string) (keys : list bytes) :
  let keyPrefix := Bconcat [hashPrefix; StringToBytesNoCopy name; splitChar] in
  let r := Hmget db name keys in
  Data r = flat_map (fetched db keyPrefix) keys /\
  (forall key e, snd (db_Get db (Bconcat [keyPrefix; key])) = Some e ->
     fetched db keyPrefix key = []) /\
  (forall key val, db_Get db (Bconcat [keyPrefix; key]) = (val, None) ->
     fetched db keyPrefix key = [key; val]) /\
  (OK r = true <->
     exists key val, In key keys /\ db_Get db (Bconcat [keyPrefix; key]) = (val, None)).
Proof.
  intros keyPrefix r.
  assert (HD : Data r = flat_map (fetched db keyPrefix) keys).
  { unfold r, Hmget. fold keyPrefix. rewrite mget_loop_flat_map.
    apply mget_reply_shape. }
  split; [exact HD|]. split; [|split].
  - intros key e He. unfold fetched.
    destruct (db_Get db _) as [val [e'|]]; [reflexivity|discriminate].
  - intros key val Hv. unfold fetched. now rewrite Hv.
  - unfold r, Hmget. fold keyPrefix. rewrite mget_loop_flat_map. cbn [app].
    destruct (mget_reply_shape (flat_map (fetched db keyPrefix) keys)) as (_ & Hok & _).
    rewrite Hok. split.
    + intros Hne.
      destruct (flat_map (fetched db keyPrefix) keys) as [|x l] eqn:E; [congruence|].
      assert (Hin : In x (flat_map (fetched db keyPrefix) keys))
        by (rewrite E; now left).
      apply in_flat_map in Hin as (key & Hk & Hx).
      unfold fetched in Hx.
      destruct (db_Get db (Bconcat [keyPrefix; key])) as [val [e|]] eqn:G;
        [contradiction|].
      now exists key, val.
    + intros (key & val & Hk & G) E.
      assert (Hin : In key (flat_map (fetched db keyPrefix) keys)).
      { apply in_flat_map. exists key. split; [exact Hk|].
        unfold fetched. rewrite G. now left. }
      rewrite E in Hin. contradiction.
Qed.

Lemma bad_kvs_spec (kvs : list bytes) :
  bad_kvs kvs = true <-> (length kvs = 0%nat \/ Nat.Odd (length kvs)).
Proof.
  unfold bad_kvs. rewrite orb_true_iff, Nat.eqb_eq, negb_true_iff, Nat.eqb_neq.
  pose proof (Nat.div_mod_eq (length kvs) 2) as D.
  pose proof (Nat.mod_upper_bound (length kvs) 2 ltac:(lia)) as U.
  split; (intros [H|H]; [now left|right]).
  - exists (length kvs / 2)%nat. lia.
  - destruct H as [m Hm]. lia.
Qed.

Lemma Hmset_batch_pairs (keyPrefix : bytes) (kvs : list bytes) :
  Hmset_batch keyPrefix kvs
  = map (fun e => BPut (keyPrefix ++ Key e) (Value e)) (pairs kvs).
Proof.
  assert (H : forall n kvs, (length kvs <= n)%nat ->
            Hmset_batch keyPrefix kvs
            = map (fun e => BPut (keyPrefix ++ Key e) (Value e)) (pairs kvs)).
  { induction n as [|n IH]; intros l Hl.
    - destruct l; [reflexivity|simpl in Hl; lia].
    - destruct l as [|k [|v rest]]; try reflexivity.
      cbn [Hmset_batch pairs map Key Value Bconcat concat].
      rewrite app_nil_r. f_equal. apply IH. simpl in Hl. lia. }
  now apply (H (length kvs)).
Qed.

Lemma pairs_cover (kvs : list bytes) :
  Nat.Even (length kvs) ->
  flat_map (fun e => [Key e; Value e]) (pairs kvs) = kvs.
Proof.
  intros [m Hm]. revert kvs Hm.
  induction m as [|m IH]; intros kvs Hm.
  - destruct kvs; [reflexivity|simpl in Hm; lia].
  - destruct kvs as [|k [|v rest]]; simpl in Hm; try lia.
    cbn [pairs flat_map Key Value app]. do 2 f_equal. apply IH. lia.
Qed.

(** C7.  [Hmset] fails with the validation error, the store untouched and
    no write submitted, exactly when the pair list is empty or of odd
    length; on a non-empty list of even length it submits one batch that
    puts every pair, in order, and the store applies it as a whole. *)
Theorem Hmset_validation (db : DB) (name : string) (kvs : list bytes) :
  let keyPrefix := Bconcat [hashPrefix; StringToBytesNoCopy name; splitChar] in
  let batch := map (fun e => BPut (keyPrefix ++ Key e) (Value e)) (pairs kvs) in
  ((length kvs = 0%nat \/ Nat.Odd (length kvs)) ->
     Hmset db name kvs = (db, Some odd_kvs)) /\
  (~ (length kvs = 0%nat \/ Nat.Odd (length kvs)) ->
     flat_map (fun e => [Key e; Value e]) (pairs kvs) = kvs /\
     snd (Hmset db name kvs) <> Some odd_kvs /\
     written (fst (Hmset db name kvs)) = written db ++ [batch] /\
     (write_fault db = None ->
        Hmset db name kvs
        = (mkDB (apply_batch batch (tbl db)) (read_fault db) (iter_fault db)
                (write_fault db) (written db ++ [batch]), None))).
Proof.
  intros keyPrefix batch. split.
  - intros Hbad. apply bad_kvs_spec in Hbad. unfold Hmset. now rewrite Hbad.
  - intros Hgood.
    assert (Hb : bad_kvs kvs = false).
    { destruct (bad_kvs kvs) eqn:E; [|reflexivity].
      apply bad_kvs_spec in E. contradiction. }
    assert (Hev : Nat.Even (length kvs)).
    { destruct (Nat.Even_or_Odd (length kvs)) as [H|H]; [exact H|].
      exfalso. apply Hgood. now right. }
    unfold Hmset. rewrite Hb. fold keyPrefix.
    rewrite Hmset_batch_pairs. fold batch.
    split; [now apply pairs_cover|].
    unfold db_Write. destruct (write_fault db) as [msg|] eqn:W; cbn [fst snd written].
    + repeat split; try discriminate.
    + repeat split; try discriminate.
Qed.

End Multi.

(** ** Prefixes and ranges *)

Section Ranges.

Lemma has_prefix_app (p m : bytes) : has_prefix p (p ++ m) = true.
Proof.
  unfold has_prefix. apply bytes_Equal_true.
  rewrite firstn_app, Nat.sub_diag, firstn_all. cbn [firstn]. apply app_nil_r.
Qed.

Lemma has_prefix_split (p k : bytes) :
  has_prefix p k = true -> k = p ++ skipn (length p) k.
Proof.
  unfold has_prefix. intros H. apply bytes_Equal_true in H.
  rewrite <- H at 1. symmetry. apply firstn_skipn.
Qed.

Lemma has_prefix_spec (p k : bytes) :
  has_prefix p k = true <-> exists m, k = p ++ m.
Proof.
  split.
  - intros H. eexists. now apply has_prefix_split.
  - intros [m ->]. apply has_prefix_app.
Qed.

Lemma has_prefix_length (p k : bytes) :
  has_prefix p k = true -> (length p <= length k)%nat.
Proof.
  intros H. apply has_prefix_split in H. rewrite H, length_app. lia.
Qed.

Lemma skipn_prefix (p m : bytes) : skipn (length p) (p ++ m) = m.
Proof. rewrite skipn_app, skipn_all, Nat.sub_diag. reflexivity. Qed.

Lemma byte_compare_succ (c : byte) :
  Z_of_byte c < 255 -> Z_of_byte (byte_of_Z (Z_of_byte c + 1)) = Z_of_byte c + 1.
Proof.
  intros H. rewrite Z_of_byte_of_Z. apply Z.mod_small.
  pose proof (Z_of_byte_range c). lia.
Qed.

Lemma bytes_lt_extend (k p s : bytes) : bytes_lt k p -> bytes_lt k (p ++ s).
Proof.
  unfold bytes_lt. revert k.
  induction p as [|c r IH]; intros [|x k]; cbn [bytes_compare app];
    try discriminate; try reflexivity.
  destruct (byte_compare x c); auto.
Qed.

Lemma bytes_ltb_false_ge (a b : bytes) :
  bytes_ltb a b = false <-> ~ bytes_lt a b.
Proof.
  rewrite <- bytes_ltb_lt. destruct (bytes_ltb a b); split; congruence.
Qed.

Lemma bytes_lt_asym (a b : bytes) : bytes_lt a b -> ~ bytes_lt b a.
Proof. intros H1 H2. exact (bytes_lt_irrefl _ (bytes_lt_trans _ _ _ H1 H2)). Qed.

(** A key at or above [p] and below the limit of [BytesPrefix p] starts
    with [p]. *)
Lemma range_has_prefix (p k : bytes) :
  ~ bytes_lt k p ->
  match prefix_limit p with [] => True | l => bytes_lt k l end ->
  has_prefix p k = true.
Proof.
  intros Hge Hlim. apply has_prefix_spec. revert k Hge Hlim.
  induction p as [|c r IH]; intros k Hge Hlim; [now exists k|].
  destruct k as [|x k]; [exfalso; apply Hge; reflexivity|].
  unfold bytes_lt in Hge. cbn [bytes_compare] in Hge.
  cbn [prefix_limit] in Hlim.
  destruct (byte_compare x c) eqn:Exc.
  - apply byte_compare_eq in Exc. subst x.
    destruct (IH k) as [m Hm]; [exact Hge| |exists m; cbn [app]; now rewrite Hm].
    destruct (prefix_limit r) as [|y l]; [exact I|].
    unfold bytes_lt in Hlim. cbn [bytes_compare] in Hlim.
    now rewrite byte_compare_refl in Hlim.
  - congruence.
  - exfalso. unfold byte_compare in Exc. apply Z.compare_gt_iff in Exc.
    pose proof (Z_of_byte_range x) as Rx.
    destruct (prefix_limit r) as [|y l].
    + destruct (Z.ltb_spec (Z_of_byte c) 255) as [Hc|Hc]; [|lia].
      unfold bytes_lt in Hlim. cbn [bytes_compare] in Hlim.
      unfold byte_compare in Hlim. rewrite (byte_compare_succ c Hc) in Hlim.
      destruct (Z.compare_spec (Z_of_byte x) (Z_of_byte c + 1)); try lia;
        [destruct k|]; discriminate.
    + unfold bytes_lt in Hlim. cbn [bytes_compare] in Hlim.
      unfold byte_compare in Hlim.
      apply Z.compare_gt_iff in Exc. rewrite Exc in Hlim. discriminate.
Qed.

Lemma prefix_not_below (p m : bytes) : ~ bytes_lt (p ++ m) p.
Proof.
  unfold bytes_lt. rewrite <- (app_nil_r p) at 2. rewrite bytes_compare_app.
  destruct m; discriminate.
Qed.

Lemma prefix_below_limit (p m : bytes) :
  match prefix_limit p with [] => True | l => bytes_lt (p ++ m) l end.
Proof.
  induction p as [|c r IH]; cbn [prefix_limit app]; [exact I|].
  destruct (prefix_limit r) as [|y l].
  - destruct (Z.ltb_spec (Z_of_byte c) 255) as [Hc|Hc]; [|exact I].
    unfold bytes_lt. cbn [bytes_compare]. unfold byte_compare.
    rewrite (byte_compare_succ c Hc).
    replace (Z_of_byte c ?= Z_of_byte c + 1) with Lt; [reflexivity|].
    symmetry. apply Z.compare_lt_iff. lia.
  - unfold bytes_lt in *. cbn [bytes_compare]. now rewrite byte_compare_refl.
Qed.

Lemma in_range_limit (r : Range) (k : bytes) :
  in_range r k = true <->
  ~ bytes_lt k (Start r) /\
  match Limit r with [] => True | l => bytes_lt k l end.
Proof.
  unfold in_range. rewrite andb_true_iff, negb_true_iff, bytes_ltb_false_ge.
  destruct (Limit r); [intuition|]. now rewrite bytes_ltb_lt.
Qed.

Lemma in_range_BytesPrefix (p k : bytes) :
  in_range (BytesPrefix p) k = has_prefix p k.
Proof.
  apply eq_true_iff_eq. rewrite in_range_limit. cbn [BytesPrefix Start Limit].
  split.
  - intros [H1 H2]. now apply range_has_prefix.
  - intros H. apply has_prefix_split in H. rewrite H. split.
    + apply prefix_not_below.
    + apply prefix_below_limit.
Qed.

(** The entries a forward scan keeps: in the range that starts at
    [p ++ s] and ends at the limit of the prefix [p], and strictly above
    [p ++ s]. *)
Lemma forward_keep (p s k : bytes) :
  in_range (mkRange (p ++ s) (prefix_limit p)) k && bytes_ltb (p ++ s) k
  = has_prefix p k && bytes_ltb (p ++ s) k.
Proof.
  apply eq_true_iff_eq. rewrite !andb_true_iff, in_range_limit, bytes_ltb_lt.
  cbn [Start Limit]. split.
  - intros [[H1 H2] H3]. split; [|exact H3].
    apply range_has_prefix; [|exact H2].
    intros L. apply H1. now apply bytes_lt_extend.
  - intros [H1 H2]. split; [split|exact H2].
    + now apply bytes_lt_asym.
    + apply has_prefix_split in H1. rewrite H1. apply prefix_below_limit.
Qed.

(** A key at or above [p] and below [p ++ s] starts with [p]. *)
Lemma between_has_prefix (p s k : bytes) :
  ~ bytes_lt k p -> bytes_lt k (p ++ s) -> has_prefix p k = true.
Proof.
  intros Hge Hlt. apply has_prefix_spec. revert k Hge Hlt.
  induction p as [|c r IH]; intros k Hge Hlt; [now exists k|].
  destruct k as [|x k]; [exfalso; apply Hge; reflexivity|].
  unfold bytes_lt in *. cbn [bytes_compare app] in *.
  destruct (byte_compare x c) eqn:Exc; try congruence.
  apply byte_compare_eq in Exc. subst x.
  destruct (IH k Hge Hlt) as [m ->]. now exists m.
Qed.

Lemma prefix_limit_snoc (q : bytes) (c : byte) :
  Z_of_byte c < 255 -> prefix_limit (q ++ [c]) = q ++ [byte_of_Z (Z_of_byte c + 1)].
Proof.
  intros Hc. induction q as [|x q IH]; cbn [app prefix_limit].
  - apply Z.ltb_lt in Hc. now rewrite Hc.
  - rewrite IH. destruct q; reflexivity.
Qed.

End Ranges.

(** ** The scan loop *)

Section ScanLoop.

Context {A : Type}.

Lemma take_limit_cons (limit n : Z) (x : A) (l : list A) :
  n + 1 <> limit ->
  take_limit limit n (x :: l) = x :: take_limit limit (n + 1) l.
Proof.
  intros Hne. unfold take_limit.
  destruct (Z.ltb_spec n limit) as [L|G].
  - replace (n + 1 <? limit) with true by (symmetry; apply Z.ltb_lt; lia).
    replace (Z.to_nat (limit - n)) with (S (Z.to_nat (limit - (n + 1)))) by lia.
    reflexivity.
  - replace (n + 1 <? limit) with false by (symmetry; apply Z.ltb_ge; lia).
    reflexivity.
Qed.

Lemma take_limit_stop (n : Z) (x : A) (l : list A) :
  take_limit (n + 1) n (x :: l) = [x].
Proof.
  unfold take_limit.
  replace (n <? n + 1) with true by (symmetry; apply Z.ltb_lt; lia).
  replace (Z.to_nat (n + 1 - n)) with 1%nat by lia. reflexivity.
Qed.

Lemma take_limit_nil (limit n : Z) : take_limit limit n (@nil A) = [].
Proof. unfold take_limit. destruct (n <? limit); [apply firstn_nil|reflexivity]. Qed.

Lemma take_limit_prefix (limit n : Z) (l : list A) :
  exists rest, l = take_limit limit n l ++ rest.
Proof.
  unfold take_limit. destruct (n <? limit).
  - eexists. symmetry. apply firstn_skipn.
  - exists []. now rewrite app_nil_r.
Qed.

Lemma take_limit_In (limit n : Z) (l : list A) (x : A) :
  In x (take_limit limit n l) -> In x l.
Proof.
  destruct (take_limit_prefix limit n l) as [rest E]. intros H.
  rewrite E. apply in_or_app. now left.
Qed.

Lemma take_limit_length (limit : Z) (l : list A) :
  0 < limit -> Z.of_nat (length (take_limit limit 0 l)) <= limit.
Proof.
  intros H. unfold take_limit.
  replace (0 <? limit) with true by (symmetry; apply Z.ltb_lt; lia).
  pose proof (firstn_le_length (Z.to_nat (limit - 0)) l). lia.
Qed.

(** Fewer results than the limit, or a limit that does not bind: nothing
    was cut. *)
Lemma take_limit_all (limit : Z) (l : list A) :
  limit <= 0 \/ Z.of_nat (length (take_limit limit 0 l)) < limit ->
  take_limit limit 0 l = l.
Proof.
  unfold take_limit. destruct (Z.ltb_spec 0 limit) as [L|G]; [|reflexivity].
  intros [H|H]; [lia|].
  rewrite length_firstn in H. apply firstn_all2. lia.
Qed.

Lemma StronglySorted_app_l (R : A -> A -> Prop) (l1 l2 : list A) :
  StronglySorted R (l1 ++ l2) -> StronglySorted R l1.
Proof.
  induction l1 as [|x l1 IH]; cbn [app]; intros H; [constructor|].
  apply StronglySorted_inv in H as [Hs Hall]. constructor; [auto|].
  rewrite Forall_forall in *. intros y Hy. apply Hall, in_or_app. now left.
Qed.

Lemma StronglySorted_take_limit (R : A -> A -> Prop) (limit n : Z) (l : list A) :
  StronglySorted R l -> StronglySorted R (take_limit limit n l).
Proof.
  destruct (take_limit_prefix limit n l) as [rest E]. intros H.
  rewrite E in H. now apply StronglySorted_app_l in H.
Qed.

Lemma StronglySorted_filter (R : A -> A -> Prop) (f : A -> bool) (l : list A) :
  StronglySorted R l -> StronglySorted R (filter f l).
Proof.
  induction 1 as [|x l Hs IH Hall]; cbn [filter]; [constructor|].
  destruct (f x); [|exact IH]. constructor; [exact IH|].
  rewrite Forall_forall in *. intros y Hy. apply filter_In in Hy. now apply Hall.
Qed.

Lemma StronglySorted_snoc (R : A -> A -> Prop) (l : list A) (x : A) :
  StronglySorted R l -> (forall y, In y l -> R y x) -> StronglySorted R (l ++ [x]).
Proof.
  induction 1 as [|z l Hs IH Hall]; intros Hx; cbn [app].
  - repeat constructor.
  - constructor.
    + apply IH. intros y Hy. apply Hx. now right.
    + rewrite Forall_forall in *. intros y Hy.
      apply in_app_or in Hy as [Hy|[<-|[]]]; [now apply Hall|].
      apply Hx. now left.
Qed.

Lemma StronglySorted_rev (R : A -> A -> Prop) (l : list A) :
  StronglySorted R l -> StronglySorted (fun x y => R y x) (rev l).
Proof.
  induction 1 as [|x l Hs IH Hall]; cbn [rev]; [constructor|].
  apply StronglySorted_snoc; [exact IH|].
  rewrite Forall_forall in Hall. intros y Hy. apply Hall. now apply in_rev.
Qed.

Lemma StronglySorted_map {B : Type} (R : A -> A -> Prop) (R' : B -> B -> Prop)
    (g : A -> B) (l : list A) :
  (forall x y, In x l -> In y l -> R x y -> R' (g x) (g y)) ->
  StronglySorted R l -> StronglySorted R' (map g l).
Proof.
  intros Hg H. induction H as [|x l Hs IH Hall]; cbn [map]; [constructor|].
  constructor.
  - apply IH. intros a c Ha Hc. apply Hg; now right.
  - rewrite Forall_forall in *. intros y Hy.
    apply in_map_iff in Hy as (a & <- & Ha).
    apply Hg; [now left | now right | now apply Hall].
Qed.

Lemma filter_filter (f g : A -> bool) (l : list A) :
  filter g (filter f l) = filter (fun x => f x && g x) l.
Proof.
  induction l as [|x l IH]; cbn [filter]; [reflexivity|].
  destruct (f x); cbn [filter andb]; [destruct (g x)|]; now rewrite IH.
Qed.

End ScanLoop.

Section ScanLoopSpec.

Variable keep : bytes -> bool.
Variable emit : bytes -> bytes -> option (list bytes).
Variable limit : Z.

(** The loop never fails on a walk whose kept entries can all be cut, and
    then it appends, in the order of the walk, what the kept entries give,
    up to the limit. *)
Lemma scan_loop_spec (f : bytes * bytes -> list bytes)
    (walk : list (bytes * bytes)) :
  (forall e, In e walk -> keep (fst e) = true ->
     emit (fst e) (snd e) = Some (f e)) ->
  forall data n,
    let sel := take_limit limit n (filter (fun e => keep (fst e)) walk) in
    scan_loop keep emit limit walk data n
    = Some (data ++ flat_map f sel, n + Z.of_nat (length sel)).
Proof.
  induction walk as [|[k v] walk IH]; intros Hemit data n; cbn zeta.
  - cbn [filter]. rewrite take_limit_nil. cbn [scan_loop flat_map length].
    rewrite app_nil_r. do 2 f_equal. lia.
  - cbn [scan_loop filter fst].
    assert (Hrest : forall e, In e walk -> keep (fst e) = true ->
                      emit (fst e) (snd e) = Some (f e))
      by (intros e He; apply Hemit; now right).
    destruct (keep k) eqn:Ek.
    + pose proof (Hemit (k, v) (or_introl eq_refl) Ek) as Hkv.
      cbn [fst snd] in Hkv. rewrite Hkv.
      destruct (Z.eqb_spec (n + 1) limit) as [E|NE].
      * subst limit. rewrite take_limit_stop. cbn [flat_map length].
        rewrite app_nil_r. reflexivity.
      * rewrite take_limit_cons by exact NE.
        rewrite (IH Hrest). cbn [flat_map length].
        rewrite <- app_assoc. do 2 f_equal. lia.
    + apply (IH Hrest).
Qed.

(** Whatever the loop returns, every kept entry added two buffers and one
    to the counter. *)
Lemma scan_loop_shape (walk : list (bytes * bytes)) :
  (forall k v kv, emit k v = Some kv -> length kv = 2%nat) ->
  forall data n data' n',
    scan_loop keep emit limit walk data n = Some (data', n') ->
    n <= n' /\ Z.of_nat (length data') = Z.of_nat (length data) + 2 * (n' - n).
Proof.
  intros Hemit. induction walk as [|[k v] walk IH]; intros data n data' n';
    cbn [scan_loop].
  - intros H. injection H as <- <-. lia.
  - destruct (keep k); [|apply IH].
    destruct (emit k v) as [kv|] eqn:Ee; [|discriminate].
    apply Hemit in Ee.
    destruct (n + 1 =? limit).
    + intros H. injection H as <- <-. rewrite length_app. lia.
    + intros H. apply IH in H. rewrite length_app in H. lia.
Qed.

End ScanLoopSpec.

(** ** Forward scans *)

Section ForwardScans.

Lemma Bconcat2 (a b : bytes) : Bconcat [a; b] = a ++ b.
Proof. unfold Bconcat. cbn [concat]. now rewrite app_nil_r. Qed.

Lemma Bconcat3 (a b c : bytes) : Bconcat [a; b; c] = a ++ b ++ c.
Proof. unfold Bconcat. cbn [concat]. now rewrite app_nil_r. Qed.

Lemma Bconcat4 (a b c d : bytes) : Bconcat [a; b; c; d] = a ++ b ++ c ++ d.
Proof. unfold Bconcat. cbn [concat]. now rewrite app_nil_r. Qed.

Lemma Bconcat_bucket (p : bytes) (name : string) (key : bytes) :
  Bconcat [p; StringToBytesNoCopy name; splitChar; key]
  = Bconcat [p; StringToBytesNoCopy name; splitChar] ++ key.
Proof. rewrite Bconcat4, Bconcat3, <- !app_assoc. reflexivity. Qed.

Lemma pairs_flat_map {A : Type} (g : A -> Entry) (l : list A) :
  pairs (flat_map (fun e => [Key (g e); Value (g e)]) l) = map g l.
Proof.
  induction l as [|x l IH]; cbn [flat_map map app pairs]; [reflexivity|].
  rewrite IH. now destruct (g x).
Qed.

Lemma scan_reply_ok (it : Iterator) (data : list bytes) (n : Z) :
  iter_err it = None ->
  scan_reply it (data, n)
  = mkReply (if 0 <? n then replyOK else replyError) data.
Proof.
  intros E. unfold scan_reply. rewrite E. cbn [fst snd].
  now destruct (0 <? n).
Qed.

Lemma scan_reply_fault (it : Iterator) (res : list bytes * Z) (msg : string) :
  iter_err it = Some msg -> scan_reply it res = mkReply msg [].
Proof. intros E. unfold scan_reply. now rewrite E. Qed.

(** A forward scan whose selected entries can all be cut returns a reply:
    the selected entries, cut, when the iterator reports no error, and the
    error with no data otherwise. *)
Lemma forward_scan (db : DB) (p s : bytes)
    (emit : bytes -> bytes -> option (list bytes)) (g : bytes * bytes -> Entry)
    (limit : Z) :
  (forall e, In e (tbl db) -> has_prefix p (fst e) = true ->
     bytes_lt (p ++ s) (fst e) ->
     emit (fst e) (snd e) = Some [Key (g e); Value (g e)]) ->
  let it := NewIterator db (mkRange (p ++ s) (prefix_limit p)) in
  exists r,
    match scan_loop (fun k => bytes_ltb (p ++ s) k) emit limit (forward it) [] 0 with
    | None => None
    | Some res => Some (scan_reply it res)
    end = Some r /\
    (iter_fault db = None -> List r = map g (forward_selection db p s limit)) /\
    (forall msg, iter_fault db = Some msg -> r = mkReply msg []).
Proof.
  intros Hemit it.
  pose (f := fun e : bytes * bytes => [Key (g e); Value (g e)]).
  assert (Hw : forall e, In e (forward it) ->
             bytes_ltb (p ++ s) (fst e) = true ->
             emit (fst e) (snd e) = Some (f e)).
  { intros e He Hk. unfold forward, it, NewIterator in He. cbn [items] in He.
    apply filter_In in He as [Hin Hr].
    assert (Hb : in_range (mkRange (p ++ s) (prefix_limit p)) (fst e)
                 && bytes_ltb (p ++ s) (fst e) = true) by now rewrite Hr, Hk.
    rewrite forward_keep in Hb. apply andb_true_iff in Hb as [Hp _].
    apply Hemit; [exact Hin | exact Hp | now apply bytes_ltb_lt]. }
  rewrite (scan_loop_spec (fun k => bytes_ltb (p ++ s) k) emit limit f
             (forward it) Hw [] 0).
  cbn zeta. eexists. split; [reflexivity|]. split.
  - intros Hf. rewrite scan_reply_ok by exact Hf.
    unfold List. cbn [Data app]. unfold f. rewrite pairs_flat_map.
    unfold forward_selection, forward, it, NewIterator. cbn [items].
    rewrite filter_filter. f_equal. f_equal.
    apply filter_ext. intros e. apply forward_keep.
  - intros msg Hf. now apply scan_reply_fault.
Qed.

Lemma forward_selection_In (db : DB) (p s : bytes) (limit : Z) (e : bytes * bytes) :
  In e (forward_selection db p s limit) ->
  In e (tbl db) /\ has_prefix p (fst e) = true /\ bytes_lt (p ++ s) (fst e).
Proof.
  unfold forward_selection. intros H. apply take_limit_In in H.
  apply filter_In in H as [Hin Hb]. apply andb_true_iff in Hb as [Hp Hl].
  now rewrite bytes_ltb_lt in Hl.
Qed.

Lemma forward_selection_ordered (db : DB) (p s : bytes) (limit : Z) :
  ordered (tbl db) -> ordered (forward_selection db p s limit).
Proof.
  intros Ho. unfold forward_selection, ordered.
  now apply StronglySorted_take_limit, StronglySorted_filter.
Qed.

(** When the limit does not bind, or fewer entries than the limit came
    back, every entry of the table under the prefix and above the start
    position was selected. *)
Lemma forward_selection_complete (db : DB) (p s : bytes) (limit : Z)
    (e : bytes * bytes) :
  limit <= 0 \/ Z.of_nat (length (forward_selection db p s limit)) < limit ->
  In e (tbl db) -> has_prefix p (fst e) = true -> bytes_lt (p ++ s) (fst e) ->
  In e (forward_selection db p s limit).
Proof.
  unfold forward_selection. intros Hl Hin Hp Hlt.
  rewrite take_limit_all by exact Hl.
  apply filter_In. split; [exact Hin|].
  apply bytes_ltb_lt in Hlt. now rewrite Hp, Hlt.
Qed.

Lemma emit_kv_prefix (p k v : bytes) :
  has_prefix p k = true ->
  emit_kv (length p) k v
  = Some [Key (strip (length p) (k, v)); Value (strip (length p) (k, v))].
Proof.
  intros H. apply has_prefix_length in H. unfold emit_kv, slice_from.
  apply Nat.leb_le in H. now rewrite H.
Qed.

Lemma strip_keys_sorted (p : bytes) (l : list (bytes * bytes)) :
  (forall e, In e l -> has_prefix p (fst e) = true) ->
  ordered l ->
  StronglySorted bytes_lt (map Key (map (strip (length p)) l)).
Proof.
  intros Hp Ho. rewrite map_map.
  apply (StronglySorted_map key_lt); [|exact Ho].
  intros x y Hx Hy. unfold key_lt, strip. cbn [Key].
  apply Hp, has_prefix_split in Hx. apply Hp, has_prefix_split in Hy.
  rewrite Hx, Hy at 1. unfold bytes_lt. now rewrite bytes_compare_app.
Qed.

Lemma Hscan_unfold (db : DB) (name : string) (keyStart : bytes) (limit : Z) :
  let p := bucket_prefix name in
  let it := NewIterator db (mkRange (p ++ keyStart) (prefix_limit p)) in
  Hscan db name keyStart limit =
    match scan_loop (fun k => bytes_ltb (p ++ keyStart) k)
            (emit_kv (length p)) limit (forward it) [] 0 with
    | None => None
    | Some res => Some (scan_reply it res)
    end.
Proof.
  cbn zeta. unfold Hscan. fold (bucket_prefix name). rewrite Bconcat2.
  destruct keyStart as [|x keyStart].
  - rewrite app_nil_r, Nat.ltb_irrefl. reflexivity.
  - replace (length (bucket_prefix name)
             <? length (bucket_prefix name ++ x :: keyStart))%nat with true.
    + reflexivity.
    + symmetry. apply Nat.ltb_lt. rewrite length_app. cbn [length]. lia.
Qed.

(** What [Hscan] returns: the selected entries with the bucket encoding
    cut off. *)
Lemma Hscan_selection (db : DB) (name : string) (keyStart : bytes) (limit : Z) :
  let p := bucket_prefix name in
  exists r, Hscan db name keyStart limit = Some r /\
    (iter_fault db = None ->
       List r = map (strip (length p)) (forward_selection db p keyStart limit)) /\
    (forall msg, iter_fault db = Some msg -> r = mkReply msg []).
Proof.
  cbn zeta. rewrite Hscan_unfold. cbn zeta.
  apply forward_scan. intros [k v] _ Hp _. cbn [fst snd].
  now apply emit_kv_prefix.
Qed.

(** C5, as the code has it.  [Hscan] returns a reply whose members are all
    strictly greater than the start key, so never the start key itself;
    each is a stored key of the bucket with the bucket encoding cut off,
    paired with its value; the members are in strictly ascending order; and
    they number at most [limit] when [limit] is positive. *)
Theorem Hscan_exclusive_ascending (db : DB) (name : string) (keyStart : bytes)
    (limit : Z) :
  ordered (tbl db) ->
  exists r, Hscan db name keyStart limit = Some r /\
    (forall e, In e (List r) ->
       bytes_lt keyStart (Key e) /\
       In (bucket_prefix name ++ Key e, Value e) (tbl db)) /\
    ~ In keyStart (map Key (List r)) /\
    StronglySorted bytes_lt (map Key (List r)) /\
    (0 < limit -> Z.of_nat (length (List r)) <= limit).
Proof.
  intros Ho.
  destruct (Hscan_selection db name keyStart limit) as (r & Hr & Hok & Hfault).
  exists r. split; [exact Hr|].
  destruct (iter_fault db) as [msg|] eqn:Ef.
  - rewrite (Hfault msg eq_refl). unfold List. cbn [Data pairs map length In].
    repeat split; try contradiction; try constructor; auto; lia.
  - specialize (Hok eq_refl). rewrite Hok.
    set (p := bucket_prefix name) in *.
    assert (Hmem : forall e, In e (map (strip (length p))
                                  (forward_selection db p keyStart limit)) ->
              bytes_lt keyStart (Key e) /\ In (p ++ Key e, Value e) (tbl db)).
    { intros e He. apply in_map_iff in He as ([k v] & <- & Hx).
      apply forward_selection_In in Hx as (Hin & Hp & Hlt). cbn [fst] in *.
      apply has_prefix_split in Hp. unfold strip. cbn [Key Value fst snd].
      rewrite Hp in Hlt. unfold bytes_lt in Hlt. rewrite bytes_compare_app in Hlt.
      split; [exact Hlt|]. now rewrite <- Hp. }
    split; [exact Hmem|]. split; [|split].
    + intros Hin. apply in_map_iff in Hin as (e & Hk & He).
      apply Hmem in He as [Hlt _]. rewrite Hk in Hlt.
      exact (bytes_lt_irrefl _ Hlt).
    + apply strip_keys_sorted.
      * intros e He. now apply forward_selection_In in He.
      * now apply forward_selection_ordered.
    + intros Hl. rewrite length_map. unfold forward_selection.
      now apply take_limit_length.
Qed.

End ForwardScans.

Lemma Hscan_exclusive_ascending_witness :
  ordered (tbl Examples.hash_db) /\
  exists r, Hscan Examples.hash_db "h" (Examples.b "ab") 1 = Some r /\
    ~ In (Examples.b "ab") (map Key (List r)) /\
    Z.of_nat (length (List r)) <= 1.
Proof.
  assert (Ho : ordered (tbl Examples.hash_db)).
  { unfold Examples.hash_db, Hmset. cbn [bad_kvs length Nat.eqb Nat.modulo orb negb].
    apply db_Write_ordered. constructor. }
  split; [exact Ho|].
  destruct (Hscan_exclusive_ascending Examples.hash_db "h" (Examples.b "ab") 1 Ho)
    as (r & Hr & _ & Hn & _ & Hl).
  exists r. repeat split; [exact Hr | exact Hn | apply Hl; lia].
Defined.

(** C5 as stated fails at the limit 0: the loop only stops when its counter
    equals the limit, so every member above the start key comes back. *)
Lemma Hscan_limit_zero_unbounded :
  exists r, Hscan Examples.hash_db "h" [] 0 = Some r /\
    ~ (Z.of_nat (length (List r)) <= 0).
Proof.
  eexists. split; [vm_compute; reflexivity|]. vm_compute. intros H. now apply H.
Qed.

(** ** Prefix scan *)

Section PrefixScan.

Lemma Hprefix_unfold (db : DB) (name : string) (prefix : bytes) (limit : Z) :
  let q := bucket_prefix name ++ prefix in
  let it := NewIterator db (mkRange (q ++ []) (prefix_limit q)) in
  Hprefix db name prefix limit =
    match scan_loop (fun k => bytes_ltb (q ++ []) k)
            (emit_kv (length q)) limit (forward it) [] 0 with
    | None => None
    | Some res => Some (scan_reply it res)
    end.
Proof.
  cbn zeta. unfold Hprefix. rewrite Bconcat_bucket. fold (bucket_prefix name).
  rewrite Nat.ltb_irrefl, app_nil_r. reflexivity.
Qed.

(** C3, as the code has it.  [Hprefix] returns a reply whose members are
    the stored members of the bucket that start with [prefix] and are
    longer than it, each returned as what follows [prefix] (the bucket
    encoding and the caller's prefix are both cut off), paired with its
    value; in ascending order; at most [limit] of them when [limit] is
    positive, and all of them when the limit does not bind. *)
Theorem Hprefix_strips_prefix (db : DB) (name : string) (prefix : bytes)
    (limit : Z) :
  ordered (tbl db) ->
  exists r, Hprefix db name prefix limit = Some r /\
    (forall e, In e (List r) ->
       Key e <> [] /\
       In (bucket_prefix name ++ prefix ++ Key e, Value e) (tbl db)) /\
    StronglySorted bytes_lt (map Key (List r)) /\
    (0 < limit -> Z.of_nat (length (List r)) <= limit) /\
    (iter_fault db = None ->
     limit <= 0 \/ Z.of_nat (length (List r)) < limit ->
     forall m v, m <> [] ->
       In (bucket_prefix name ++ prefix ++ m, v) (tbl db) ->
       In (mkEntry m v) (List r)).
Proof.
  intros Ho. set (q := bucket_prefix name ++ prefix).
  assert (Hsel : exists r, Hprefix db name prefix limit = Some r /\
            (iter_fault db = None ->
               List r = map (strip (length q)) (forward_selection db q [] limit)) /\
            (forall msg, iter_fault db = Some msg -> r = mkReply msg [])).
  { rewrite Hprefix_unfold. cbn zeta. fold q.
    apply forward_scan. intros [k v] _ Hp _. cbn [fst snd].
    now apply emit_kv_prefix. }
  destruct Hsel as (r & Hr & Hok & Hfault).
  exists r. split; [exact Hr|].
  destruct (iter_fault db) as [msg|] eqn:Ef.
  - rewrite (Hfault msg eq_refl). unfold List. cbn [Data pairs map length In].
    repeat split; try contradiction; try constructor; try discriminate; lia.
  - specialize (Hok eq_refl). rewrite Hok.
    split; [|split; [|split]].
    + intros e He. apply in_map_iff in He as ([k v] & <- & Hx).
      apply forward_selection_In in Hx as (Hin & Hp & Hlt). cbn [fst] in *.
      apply has_prefix_split in Hp. unfold strip. cbn [Key Value fst snd].
      split.
      * intros E. rewrite Hp, E in Hlt. exact (bytes_lt_irrefl _ Hlt).
      * rewrite app_assoc. fold q. now rewrite <- Hp.
    + apply strip_keys_sorted.
      * intros e He. now apply forward_selection_In in He.
      * now apply forward_selection_ordered.
    + intros Hl. rewrite length_map. unfold forward_selection.
      now apply take_limit_length.
    + intros _ Hl m v Hm Hin. rewrite length_map in Hl.
      rewrite app_assoc in Hin. fold q in Hin.
      apply (forward_selection_complete db q [] limit _ Hl) in Hin.
      * apply in_map_iff. exists (q ++ m, v). split; [|exact Hin].
        unfold strip. cbn [fst snd]. now rewrite skipn_prefix.
      * cbn [fst]. apply has_prefix_app.
      * cbn [fst]. unfold bytes_lt. rewrite bytes_compare_app.
        destruct m; [contradiction|reflexivity].
Qed.

Lemma Hprefix_strips_prefix_witness :
  ordered (tbl Examples.hash_db) /\
  exists r, Hprefix Examples.hash_db "h" (Examples.b "ab") 10 = Some r /\
    In (mkEntry (Examples.b "1") (Examples.b "v1")) (List r).
Proof.
  assert (Ho : ordered (tbl Examples.hash_db)).
  { unfold Examples.hash_db, Hmset. cbn [bad_kvs length Nat.eqb Nat.modulo orb negb].
    apply db_Write_ordered. constructor. }
  split; [exact Ho|].
  destruct (Hprefix_strips_prefix Examples.hash_db "h" (Examples.b "ab") 10 Ho)
    as (r & Hr & _ & _ & Hl & Hc).
  exists r. split; [exact Hr|].
  apply Hc.
  - reflexivity.
  - right. assert (E : Hprefix Examples.hash_db "h" (Examples.b "ab") 10
                       = Some (mkReply replyOK [Examples.b "1"; Examples.b "v1"]))
      by (vm_compute; reflexivity).
    rewrite E in Hr. injection Hr as <-. vm_compute. reflexivity.
  - discriminate.
  - vm_compute. right. right. now left.
Defined.

(** C3 as stated fails: the member [ab1] found under the prefix [ab] comes
    back as [1], which does not begin with [ab]. *)
Lemma Hprefix_member_loses_prefix :
  exists r, Hprefix Examples.hash_db "h" (Examples.b "ab") 10 = Some r /\
    exists e, In e (List r) /\ has_prefix (Examples.b "ab") (Key e) = false.
Proof.
  eexists. split; [vm_compute; reflexivity|].
  eexists. split; [left; reflexivity|]. vm_compute. reflexivity.
Qed.

End PrefixScan.

(** ** Sorted-set forward scan *)

Section ZsetScan.

Lemma bytes_compare_app_same_length (a b x y : bytes) :
  length a = length b ->
  bytes_compare (a ++ x) (b ++ y)
  = match bytes_compare a b with Eq => bytes_compare x y | c => c end.
Proof.
  revert b. induction a as [|c a IH]; intros [|d b] Hlen; try discriminate.
  - reflexivity.
  - injection Hlen as Hlen. cbn [app bytes_compare].
    destruct (byte_compare c d); auto.
Qed.

Lemma order_key_split (name : string) (s m : bytes) :
  order_key name s m = order_prefix name ++ s ++ splitChar ++ m.
Proof.
  unfold order_key, order_prefix, Bconcat. cbn [concat].
  now rewrite !app_nil_r, <- !app_assoc.
Qed.

Lemma direct_key_split (name : string) (m : bytes) :
  direct_key name m = Bconcat [zetScorePrefix; StringToBytesNoCopy name; splitChar] ++ m.
Proof. apply Bconcat_bucket. Qed.

Lemma Zscan_unfold (db : DB) (name : string) (scoreStart : bytes) (limit : Z) :
  length scoreStart = scoreByteLen ->
  let p := order_prefix name in
  let it := NewIterator db (mkRange (p ++ scoreStart ++ [x1d]) (prefix_limit p)) in
  Zscan db name [] scoreStart limit =
    match scan_loop (fun k => bytes_ltb (p ++ scoreStart ++ [x1d]) k)
            (emit_zkey (length p) (length p + scoreByteLen)
                       (length p + scoreByteLen + 1)) limit (forward it) [] 0 with
    | None => None
    | Some res => Some (scan_reply it res)
    end.
Proof.
  intros Hlen. cbn zeta. unfold Zscan. rewrite Hlen.
  cbn [scoreByteLen Nat.eqb length]. fold (order_prefix name).
  rewrite Bconcat3. cbn [BytesPrefix Limit].
  replace (order_prefix name ++ scoreStart ++ splitChar)
    with ((order_prefix name ++ scoreStart) ++ [x1c])
    by now rewrite <- app_assoc.
  rewrite prefix_limit_snoc by (vm_compute; reflexivity).
  change (byte_of_Z (Z_of_byte x1c + 1)) with x1d.
  rewrite <- app_assoc. reflexivity.
Qed.

Lemma emit_zkey_order_key (name : string) (s m v : bytes) :
  length s = scoreByteLen ->
  let p := order_prefix name in
  emit_zkey (length p) (length p + scoreByteLen) (length p + scoreByteLen + 1)
    (order_key name s m) v
  = Some [m; s].
Proof.
  intros Hs p. rewrite order_key_split. fold p.
  unfold emit_zkey, slice_from, slice.
  rewrite !length_app, Hs.
  change (length splitChar) with 1%nat.
  repeat match goal with
  | |- context [(?a <=? ?b)%nat] =>
      replace (a <=? b)%nat with true by (symmetry; apply Nat.leb_le; lia)
  end.
  cbn [andb].
  replace (length p + scoreByteLen - length p)%nat with (length s) by lia.
  rewrite skipn_prefix, firstn_app, Nat.sub_diag, firstn_all.
  cbn [firstn]. rewrite app_nil_r.
  replace (p ++ s ++ splitChar ++ m) with ((p ++ s ++ splitChar) ++ m)
    by now rewrite <- !app_assoc.
  replace (length p + scoreByteLen + 1)%nat with (length (p ++ s ++ splitChar))
    by (rewrite !length_app, Hs; cbn [splitChar length]; lia).
  now rewrite skipn_prefix.
Qed.

Lemma zstrip_order_key (name : string) (s m v : bytes) :
  length s = scoreByteLen ->
  zstrip (length (order_prefix name)) (order_key name s m, v) = mkEntry m s.
Proof.
  intros Hs. unfold zstrip. rewrite order_key_split. cbn [fst].
  set (p := order_prefix name). f_equal.
  - replace (p ++ s ++ splitChar ++ m) with ((p ++ s ++ splitChar) ++ m)
      by now rewrite <- !app_assoc.
    replace (length p + scoreByteLen + 1)%nat with (length (p ++ s ++ splitChar))
      by (rewrite !length_app, Hs; change (length splitChar) with 1%nat; lia).
    apply skipn_prefix.
  - rewrite skipn_prefix, <- Hs, firstn_app, Nat.sub_diag, firstn_all.
    cbn [firstn]. apply app_nil_r.
Qed.

(** The position right after the band of [scoreStart] is below exactly the
    order-index keys of a greater score. *)
Lemma band_end_lt (scoreStart s m : bytes) :
  length scoreStart = scoreByteLen -> length s = scoreByteLen ->
  bytes_lt (scoreStart ++ [x1d]) (s ++ splitChar ++ m) <-> bytes_lt scoreStart s.
Proof.
  intros H1 H2. unfold bytes_lt.
  rewrite bytes_compare_app_same_length by congruence.
  destruct (bytes_compare scoreStart s); split; try congruence.
  cbn. discriminate.
Qed.

(** C2, as the code has it.  With an empty start key [Zscan] starts right
    after the whole band of [scoreStart]: on a well-formed order index it
    returns a reply whose pairs are stored members with a score strictly
    greater than [scoreStart], so no member whose score is exactly
    [scoreStart]; and when the limit does not bind or fewer than [limit]
    pairs came back, every stored member of a strictly greater score is
    among them. *)
Theorem Zscan_skips_start_band (db : DB) (name : string) (scoreStart : bytes)
    (limit : Z) :
  ordered (tbl db) ->
  zorder_wf (tbl db) name ->
  length scoreStart = scoreByteLen ->
  exists r, Zscan db name [] scoreStart limit = Some r /\
    (forall e, In e (List r) ->
       length (Value e) = scoreByteLen /\
       bytes_lt scoreStart (Value e) /\
       exists v, In (order_key name (Value e) (Key e), v) (tbl db)) /\
    (forall m, ~ In (mkEntry m scoreStart) (List r)) /\
    (0 < limit -> Z.of_nat (length (List r)) <= limit) /\
    (iter_fault db = None ->
     limit <= 0 \/ Z.of_nat (length (List r)) < limit ->
     forall s m v, length s = scoreByteLen -> bytes_lt scoreStart s ->
       In (order_key name s m, v) (tbl db) ->
       In (mkEntry m s) (List r)).
Proof.
  intros Ho Hwf Hlen. set (p := order_prefix name).
  assert (Hsel : exists r, Zscan db name [] scoreStart limit = Some r /\
            (iter_fault db = None ->
               List r = map (zstrip (length p))
                          (forward_selection db p (scoreStart ++ [x1d]) limit)) /\
            (forall msg, iter_fault db = Some msg -> r = mkReply msg [])).
  { rewrite (Zscan_unfold db name scoreStart limit Hlen). cbn zeta. fold p.
    apply forward_scan. intros [k v] Hin Hp _. cbn [fst snd] in *.
    destruct (Hwf k v Hin Hp) as (s & m & Hs & ->). unfold p.
    rewrite (zstrip_order_key name s m v Hs). cbn [Key Value].
    now apply emit_zkey_order_key. }
  destruct Hsel as (r & Hr & Hok & Hfault).
  exists r. split; [exact Hr|].
  destruct (iter_fault db) as [msg|] eqn:Ef.
  - rewrite (Hfault msg eq_refl). unfold List. cbn [Data pairs map length In].
    repeat split; try contradiction; try discriminate; auto; lia.
  - specialize (Hok eq_refl). rewrite Hok.
    assert (Hmem : forall e,
              In e (map (zstrip (length p))
                      (forward_selection db p (scoreStart ++ [x1d]) limit)) ->
              length (Value e) = scoreByteLen /\
              bytes_lt scoreStart (Value e) /\
              exists v, In (order_key name (Value e) (Key e), v) (tbl db)).
    { intros e He. apply in_map_iff in He as ([k v] & <- & Hx).
      apply forward_selection_In in Hx as (Hin & Hp & Hlt). cbn [fst] in *.
      destruct (Hwf k v Hin Hp) as (s & m & Hs & ->).
      unfold p. rewrite (zstrip_order_key name s m v Hs). cbn [Key Value].
      split; [exact Hs|]. split; [|now exists v].
      rewrite order_key_split in Hlt. fold p in Hlt.
      unfold bytes_lt in Hlt. rewrite bytes_compare_app in Hlt.
      now apply (band_end_lt scoreStart s m Hlen Hs). }
    split; [exact Hmem|]. split; [|split].
    + intros m Hin. apply Hmem in Hin as (_ & Hlt & _). cbn [Value] in Hlt.
      exact (bytes_lt_irrefl _ Hlt).
    + intros Hl. rewrite length_map. unfold forward_selection.
      now apply take_limit_length.
    + intros _ Hl s m v Hs Hlt Hin. rewrite length_map in Hl.
      apply (forward_selection_complete db p (scoreStart ++ [x1d]) limit _ Hl) in Hin.
      * apply in_map_iff. exists (order_key name s m, v). split; [|exact Hin].
        now apply zstrip_order_key.
      * cbn [fst]. rewrite order_key_split. apply has_prefix_app.
      * cbn [fst]. rewrite order_key_split. fold p.
        unfold bytes_lt. rewrite bytes_compare_app.
        now apply (band_end_lt scoreStart s m Hlen Hs).
Qed.

End ZsetScan.

Ltac concrete_ordered :=
  vm_compute; repeat (constructor; try reflexivity).

Lemma zset_db_ordered : ordered (tbl Examples.zset_db).
Proof. concrete_ordered. Qed.

Lemma zset_db_wf : zorder_wf (tbl Examples.zset_db) "z".
Proof.
  intros k v Hin Hp. vm_compute in Hin.
  destruct Hin as [E|[E|[E|[E|[]]]]]; injection E as <- <-;
    try (vm_compute in Hp; discriminate).
  - exists (Uint64ToBytes 50), (Examples.b "m2"). split; reflexivity.
  - exists (Uint64ToBytes 100), (Examples.b "m1"). split; reflexivity.
Qed.

Lemma Zscan_skips_start_band_witness :
  ordered (tbl Examples.zset_db) /\
  zorder_wf (tbl Examples.zset_db) "z" /\
  length (Uint64ToBytes 50) = scoreByteLen /\
  exists r, Zscan Examples.zset_db "z" [] (Uint64ToBytes 50) 10 = Some r /\
    ~ In (mkEntry (Examples.b "m2") (Uint64ToBytes 50)) (List r).
Proof.
  split; [exact zset_db_ordered|]. split; [exact zset_db_wf|].
  split; [reflexivity|].
  destruct (Zscan_skips_start_band Examples.zset_db "z" (Uint64ToBytes 50) 10
              zset_db_ordered zset_db_wf eq_refl) as (r & Hr & _ & Hn & _).
  exists r. split; [exact Hr | apply Hn].
Defined.

(** C2 as stated fails: [m2] is stored with the score 50, a scan from the
    score 50 with an empty start key returns fewer pairs than its limit, and
    [m2] is not among them. *)
Lemma Zscan_start_score_member_missing :
  Zget Examples.zset_db "z" (Examples.b "m2") = 50 /\
  tbl_get (order_key "z" (Uint64ToBytes 50) (Examples.b "m2")) (tbl Examples.zset_db)
  = Some [] /\
  exists r, Zscan Examples.zset_db "z" [] (Uint64ToBytes 50) 10 = Some r /\
    Z.of_nat (length (List r)) < 10 /\
    ~ In (mkEntry (Examples.b "m2") (Uint64ToBytes 50)) (List r).
Proof.
  split; [vm_compute; reflexivity|]. split; [vm_compute; reflexivity|].
  eexists. split; [vm_compute; reflexivity|]. split; [vm_compute; reflexivity|].
  vm_compute. intros [H|[]]. discriminate.
Qed.

(** ** Reverse scan *)

Section ReverseScan.

Lemma filter_true {A : Type} (l : list A) : filter (fun _ => true) l = l.
Proof. induction l as [|x l IH]; cbn [filter]; [reflexivity|now rewrite IH]. Qed.

Lemma bucket_prefix_nonempty (name : string) (s : bytes) :
  exists c l, bucket_prefix name ++ s = c :: l.
Proof. unfold bucket_prefix, Bconcat, hashPrefix. cbn [concat app]. eauto. Qed.

Lemma Hrscan_unfold (db : DB) (name : string) (keyStart : bytes) (limit : Z) :
  keyStart <> [] ->
  let p := bucket_prefix name in
  let it := NewIterator db (mkRange p (p ++ keyStart)) in
  Hrscan db name keyStart limit =
    match scan_loop (fun _ => true) (emit_kv (length p)) limit (backward it) [] 0 with
    | None => None
    | Some res => Some (scan_reply it res)
    end.
Proof.
  intros Hne. cbn zeta. unfold Hrscan. fold (bucket_prefix name). rewrite Bconcat2.
  replace (length (bucket_prefix name)
           <? length (bucket_prefix name ++ keyStart))%nat with true.
  - reflexivity.
  - symmetry. apply Nat.ltb_lt. rewrite length_app.
    destruct keyStart; [contradiction|cbn [length]; lia].
Qed.

(** The entries the reverse scan walks: the keys of the bucket strictly
    below the start position. *)
Lemma Hrscan_walk (db : DB) (name : string) (keyStart : bytes) (e : bytes * bytes) :
  let p := bucket_prefix name in
  In e (backward (NewIterator db (mkRange p (p ++ keyStart)))) ->
  In e (tbl db) /\ has_prefix p (fst e) = true /\ bytes_lt (fst e) (p ++ keyStart).
Proof.
  intros p Hin. unfold backward, NewIterator in Hin. cbn [items] in Hin.
  apply in_rev, filter_In in Hin as [Hin Hr].
  apply in_range_limit in Hr as [Hge Hlt]. cbn [Start Limit] in *.
  destruct (bucket_prefix_nonempty name keyStart) as (c & l & E).
  fold p in E. rewrite E in Hlt. rewrite <- E in Hlt.
  split; [exact Hin|]. split; [|exact Hlt].
  now apply (between_has_prefix p keyStart).
Qed.

(** C9.  With a non-empty start key [Hrscan] returns a reply whose members
    are all strictly less than the start key, so never the start key
    itself; each is a stored key of the bucket with the bucket encoding cut
    off, paired with its value; and the members are in strictly descending
    order. *)
Theorem Hrscan_exclusive_descending (db : DB) (name : string) (keyStart : bytes)
    (limit : Z) :
  keyStart <> [] ->
  ordered (tbl db) ->
  exists r, Hrscan db name keyStart limit = Some r /\
    (forall e, In e (List r) ->
       bytes_lt (Key e) keyStart /\
       In (bucket_prefix name ++ Key e, Value e) (tbl db)) /\
    ~ In keyStart (map Key (List r)) /\
    StronglySorted (fun a c => bytes_lt c a) (map Key (List r)).
Proof.
  intros Hne Ho. rewrite (Hrscan_unfold db name keyStart limit Hne). cbn zeta.
  set (p := bucket_prefix name).
  set (it := NewIterator db (mkRange p (p ++ keyStart))).
  pose (f := fun e : bytes * bytes =>
               [Key (strip (length p) e); Value (strip (length p) e)]).
  assert (Hw : forall e, In e (backward it) -> true = true ->
             emit_kv (length p) (fst e) (snd e) = Some (f e)).
  { intros [k v] He _. apply Hrscan_walk in He as (_ & Hp & _).
    cbn [fst snd] in *. now apply emit_kv_prefix. }
  rewrite (scan_loop_spec (fun _ => true) (emit_kv (length p)) limit f
             (backward it) Hw [] 0).
  cbn zeta. rewrite filter_true. cbn [app].
  set (sel := take_limit limit 0 (backward it)).
  eexists. split; [reflexivity|].
  destruct (iter_fault db) as [msg|] eqn:Ef.
  - rewrite (scan_reply_fault it _ msg) by exact Ef.
    unfold List. cbn [Data pairs map In].
    repeat split; try contradiction; try constructor; auto.
  - rewrite scan_reply_ok by exact Ef. unfold List. cbn [Data].
    unfold f. rewrite pairs_flat_map.
    assert (Hsel : forall e, In e sel ->
              In e (tbl db) /\ has_prefix p (fst e) = true /\
              bytes_lt (fst e) (p ++ keyStart)).
    { intros e He. apply take_limit_In in He. now apply Hrscan_walk in He. }
    assert (Hmem : forall e, In e (map (strip (length p)) sel) ->
              bytes_lt (Key e) keyStart /\ In (p ++ Key e, Value e) (tbl db)).
    { intros e He. apply in_map_iff in He as ([k v] & <- & Hx).
      apply Hsel in Hx as (Hin & Hp & Hlt). cbn [fst] in *.
      apply has_prefix_split in Hp. unfold strip. cbn [Key Value fst snd].
      rewrite Hp in Hlt. unfold bytes_lt in Hlt. rewrite bytes_compare_app in Hlt.
      split; [exact Hlt|]. now rewrite <- Hp. }
    split; [exact Hmem|]. split.
    + intros Hin. apply in_map_iff in Hin as (e & Hk & He).
      apply Hmem in He as [Hlt _]. rewrite Hk in Hlt.
      exact (bytes_lt_irrefl _ Hlt).
    + rewrite map_map.
      apply (StronglySorted_map (fun x y => key_lt y x)).
      * intros x y Hx Hy. unfold key_lt, strip. cbn [Key].
        apply Hsel in Hx as (_ & Hx & _). apply Hsel in Hy as (_ & Hy & _).
        apply has_prefix_split in Hx. apply has_prefix_split in Hy.
        rewrite Hx, Hy at 1. unfold bytes_lt. now rewrite bytes_compare_app.
      * unfold sel. apply StronglySorted_take_limit.
        unfold backward, it, NewIterator. cbn [items].
        apply StronglySorted_rev. now apply StronglySorted_filter.
Qed.

Lemma hash_db_ordered : ordered (tbl Examples.hash_db).
Proof. concrete_ordered. Qed.

Lemma Hrscan_exclusive_descending_witness :
  Examples.b "ab1" <> [] /\
  ordered (tbl Examples.hash_db) /\
  exists r, Hrscan Examples.hash_db "h" (Examples.b "ab1") 10 = Some r /\
    ~ In (Examples.b "ab1") (map Key (List r)) /\
    StronglySorted (fun a c => bytes_lt c a) (map Key (List r)).
Proof.
  assert (Hne : Examples.b "ab1" <> []) by discriminate.
  split; [exact Hne|]. split; [exact hash_db_ordered|].
  destruct (Hrscan_exclusive_descending Examples.hash_db "h" (Examples.b "ab1") 10
              Hne hash_db_ordered) as (r & Hr & _ & Hn & Hs).
  exists r. repeat split; assumption.
Defined.

End ReverseScan.

(** ** Replies *)

Section Replies.

Lemma scan_well_shaped (db : DB) (it : Iterator) (keep : bytes -> bool)
    (emit : bytes -> bytes -> option (list bytes)) (limit : Z)
    (walk : list (bytes * bytes)) (r : Reply) :
  iter_err it = iter_fault db ->
  (forall k v kv, emit k v = Some kv -> length kv = 2%nat) ->
  match scan_loop keep emit limit walk [] 0 with
  | None => None
  | Some res => Some (scan_reply it res)
  end = Some r ->
  well_shaped db r.
Proof.
  intros Hit Hemit H.
  destruct (scan_loop keep emit limit walk [] 0) as [[data n]|] eqn:E;
    [|discriminate].
  injection H as <-.
  apply (scan_loop_shape keep emit limit walk Hemit) in E as [Hn Hlen].
  cbn [length] in Hlen. unfold well_shaped, scan_reply. rewrite Hit. cbn [fst snd].
  destruct (iter_fault db) as [msg|] eqn:Ef.
  - split; [exists 0%nat; reflexivity|]. split.
    + intros Hmsg. unfold OK. cbn [State Data]. split.
      * intros Heq. apply String.eqb_eq in Heq. congruence.
      * congruence.
    + intros Hnone. congruence.
  - assert (Hev : Nat.Even (length data)) by (exists (Z.to_nat n); lia).
    destruct (Z.ltb_spec 0 n) as [L|G]; cbn [Data State].
    + split; [exact Hev|]. split.
      * intros _. split; [|reflexivity].
        intros _ Hd. rewrite Hd in Hlen. cbn [length] in Hlen. lia.
      * intros _ Hd. rewrite Hd in Hlen. cbn [length] in Hlen. lia.
    + split; [exact Hev|]. split.
      * intros _. split; [discriminate|].
        intros Hd. exfalso. apply Hd. destruct data; [reflexivity|].
        cbn [length] in Hlen. lia.
      * intros _ _. split; reflexivity.
Qed.

Lemma emit_kv_two (n : nat) (k v : bytes) (kv : list bytes) :
  emit_kv n k v = Some kv -> length kv = 2%nat.
Proof.
  unfold emit_kv. destruct (slice_from k n); [|discriminate].
  intros H. injection H as <-. reflexivity.
Qed.

Lemma emit_zkey_two (a c d : nat) (k v : bytes) (kv : list bytes) :
  emit_zkey a c d k v = Some kv -> length kv = 2%nat.
Proof.
  unfold emit_zkey. destruct (slice_from k d); [|discriminate].
  destruct (slice k a c); [|discriminate].
  intros H. injection H as <-. reflexivity.
Qed.

Lemma mget_well_shaped (db : DB) (keyPrefix : bytes) (keys : list bytes) :
  well_shaped db (mget_reply (mget_loop db keyPrefix keys [])).
Proof.
  rewrite mget_loop_flat_map. cbn [app].
  destruct (mget_reply_shape (flat_map (fetched db keyPrefix) keys))
    as (HD & Hok & Herr).
  unfold well_shaped. rewrite HD. split; [apply fetched_even|]. split.
  - intros _. exact Hok.
  - intros _ Hd. split; [now apply Herr|].
    unfold NotFound. now rewrite (Herr Hd).
Qed.

(** C10.  The reply of [Hscan], [Hprefix], [Hrscan], [Hmget], [Zscan],
    [Zrscan] or [Zmget] has data of even length, member and value in turn;
    its state is ok exactly when it carries at least one pair; and when it
    carries none and the store reported no error, its state is the generic
    error status, so [NotFound] is false. *)
Theorem pair_reply_shape (db : DB) (r : Reply) :
  iter_fault db <> Some replyOK ->
  produced db r ->
  Nat.Even (length (Data r)) /\
  length (List r) = Nat.div2 (length (Data r)) /\
  (OK r = true <-> Data r <> []) /\
  (iter_fault db = None -> Data r = [] ->
     State r = replyError /\ NotFound r = false).
Proof.
  intros Hmsg Hp.
  assert (Hs : well_shaped db r).
  { destruct Hp as [name keyStart limit r H | name prefix limit r H
                   | name keyStart limit r H | name keys
                   | name keyStart scoreStart limit r H
                   | name keyStart scoreStart limit r H | name keys].
    - unfold Hscan in H.
      destruct (_ <? _)%nat;
        eapply scan_well_shaped; try exact H; try reflexivity; apply emit_kv_two.
    - unfold Hprefix in H.
      destruct (_ <? _)%nat;
        eapply scan_well_shaped; try exact H; try reflexivity; apply emit_kv_two.
    - unfold Hrscan in H.
      eapply scan_well_shaped; try exact H; try reflexivity; apply emit_kv_two.
    - apply mget_well_shaped.
    - unfold Zscan in H.
      eapply scan_well_shaped; try exact H; try reflexivity; apply emit_zkey_two.
    - unfold Zrscan in H.
      eapply scan_well_shaped; try exact H; try reflexivity; apply emit_zkey_two.
    - apply mget_well_shaped. }
  destruct Hs as (Hev & Hok & Herr).
  split; [exact Hev|]. split; [|split; [now apply Hok | exact Herr]].
  unfold List. destruct Hev as [m Hm]. revert Hm. generalize (Data r).
  induction m as [|m IH]; intros l Hl.
  - destruct l; [reflexivity|cbn [length] in Hl; lia].
  - destruct l as [|k [|v l]]; cbn [length] in Hl; try lia.
    cbn [pairs length Nat.div2]. f_equal. apply IH. lia.
Qed.

Lemma pair_reply_shape_witness :
  iter_fault Examples.hash_db <> Some replyOK /\
  exists r, Hscan Examples.hash_db "h" (Examples.b "ac") 10 = Some r /\
    Data r = [] /\ State r = replyError /\ NotFound r = false.
Proof.
  assert (Hmsg : iter_fault Examples.hash_db <> Some replyOK) by discriminate.
  split; [exact Hmsg|].
  assert (E : Hscan Examples.hash_db "h" (Examples.b "ac") 10
              = Some (mkReply replyError [])) by (vm_compute; reflexivity).
  exists (mkReply replyError []). split; [exact E|]. split; [reflexivity|].
  destruct (pair_reply_shape Examples.hash_db (mkReply replyError []) Hmsg
              (by_Hscan _ _ _ _ _ E)) as (_ & _ & _ & H).
  apply H; reflexivity.
Defined.

End Replies.

(** ** The two indices of the sorted set *)

Section DualIndex.

Lemma empty_consistent : zset_consistent (tbl Examples.empty_db).
Proof. intros name member s H. discriminate H. Qed.

(** C1 fails on the code.  [Zmset] reads every old score from the store as
    it is before its batch is written, so a pair list that names one member
    twice never deletes the order-index entry of the first score: from the
    empty store, the call with [(m, 1), (m, 2)] succeeds and leaves the
    direct index at 2 with order-index entries for both 1 and 2. *)
Theorem Zmset_duplicate_member_two_entries :
  let m := Examples.b "m" in
  zset_consistent (tbl Examples.empty_db) /\
  exists db',
    Zmset Examples.empty_db "z" [m; Uint64ToBytes 1; m; Uint64ToBytes 2]
    = (db', None) /\
    tbl_get (direct_key "z" m) (tbl db') = Some (Uint64ToBytes 2) /\
    tbl_get (order_key "z" (Uint64ToBytes 2) m) (tbl db') = Some [] /\
    tbl_get (order_key "z" (Uint64ToBytes 1) m) (tbl db') = Some [] /\
    ~ zset_consistent (tbl db').
Proof.
  intros m. split; [exact empty_consistent|].
  eexists. split; [vm_compute; reflexivity|].
  split; [vm_compute; reflexivity|].
  split; [vm_compute; reflexivity|].
  split; [vm_compute; reflexivity|].
  intros H.
  destruct (H "z"%string m (Uint64ToBytes 2)) as [_ H2]; [vm_compute; reflexivity|].
  specialize (H2 (Uint64ToBytes 1) eq_refl).
  assert (E : Uint64ToBytes 1 = Uint64ToBytes 2)
    by (apply H2; vm_compute; discriminate).
  vm_compute in E. discriminate E.
Qed.

(** The same invariant is lost by [Zincr] with the step 0: the batch puts
    the order-index entry of the unchanged score and then deletes it. *)
Lemma Zincr_zero_step_drops_entry :
  let m1 := Examples.b "m1" in
  exists db',
    Zincr Examples.zset_db "z" m1 0 = (db', (100, None)) /\
    tbl_get (direct_key "z" m1) (tbl db') = Some (Uint64ToBytes 100) /\
    tbl_get (order_key "z" (Uint64ToBytes 100) m1) (tbl db') = None /\
    ~ zset_consistent (tbl db').
Proof.
  intros m1. eexists. split; [vm_compute; reflexivity|].
  split; [vm_compute; reflexivity|].
  split; [vm_compute; reflexivity|].
  intros H.
  destruct (H "z"%string m1 (Uint64ToBytes 100)) as [H1 _]; [vm_compute; reflexivity|].
  apply H1. vm_compute. reflexivity.
Qed.

End DualIndex.

(** ** The theorems at concrete stores *)

Lemma Hmget_best_effort_witness :
  Data (Hmget Examples.hash_db "h" [Examples.b "zz"; Examples.b "ab"; Examples.b "a"])
  = [Examples.b "ab"; Examples.b "v0"; Examples.b "a"; Examples.b "v3"] /\
  OK (Hmget Examples.hash_db "h" [Examples.b "zz"; Examples.b "ab"; Examples.b "a"])
  = true.
Proof.
  destruct (Hmget_best_effort Examples.hash_db "h"
              [Examples.b "zz"; Examples.b "ab"; Examples.b "a"])
    as (HD & _ & _ & Hok).
  split.
  - rewrite HD. vm_compute. reflexivity.
  - apply Hok. exists (Examples.b "ab"), (Examples.b "v0").
    split; [right; left; reflexivity | vm_compute; reflexivity].
Defined.

Lemma Hmset_validation_witness :
  Hmset Examples.empty_db "h" [Examples.b "k"] = (Examples.empty_db, Some odd_kvs) /\
  written (fst (Hmset Examples.empty_db "h" [Examples.b "k"; Examples.b "v"]))
  = [[BPut (bucket_prefix "h" ++ Examples.b "k") (Examples.b "v")]].
Proof.
  destruct (Hmset_validation Examples.empty_db "h" [Examples.b "k"]) as [Hbad _].
  destruct (Hmset_validation Examples.empty_db "h" [Examples.b "k"; Examples.b "v"])
    as [_ Hgood].
  split.
  - apply Hbad. right. exists 0%nat. reflexivity.
  - destruct Hgood as (_ & _ & Hw & _).
    + intros [H|[n H]]; [discriminate H|]. cbn [length] in H. lia.
    + rewrite Hw. reflexivity.
Defined.

(** ** Where the two indices are kept in step

    [Zset] and [Zdel] read the old score of the one member they change and
    delete its order-index entry in the batch that writes the new one; for
    names and members free of the separator byte they keep the two indices
    in agreement. *)

Section KeyFacts.

Lemma tbl_get_put (k k0 v : bytes) (t : table) :
  tbl_get k (tbl_put k0 v t) = if bytes_Equal k k0 then Some v else tbl_get k t.
Proof.
  destruct (bytes_Equal k k0) eqn:E.
  - apply bytes_Equal_true in E. subst. apply tbl_get_put_same.
  - apply tbl_get_put_other. intros ->.
    assert (H : bytes_Equal k0 k0 = true) by now apply bytes_Equal_true.
    congruence.
Qed.

Lemma tbl_get_del (k k0 : bytes) (t : table) :
  tbl_get k (tbl_del k0 t) = if bytes_Equal k k0 then None else tbl_get k t.
Proof.
  destruct (bytes_Equal k k0) eqn:E.
  - apply bytes_Equal_true in E. subst. apply tbl_get_del_same.
  - apply tbl_get_del_other. intros ->.
    assert (H : bytes_Equal k0 k0 = true) by now apply bytes_Equal_true.
    congruence.
Qed.

Lemma apply_batch_app (b1 b2 : Batch) (t : table) :
  apply_batch (b1 ++ b2) t = apply_batch b2 (apply_batch b1 t).
Proof. unfold apply_batch. apply fold_left_app. Qed.

Lemma bytes_Equal_false (a c : bytes) : a <> c -> bytes_Equal a c = false.
Proof.
  intros H. destruct (bytes_Equal a c) eqn:E; [|reflexivity].
  apply bytes_Equal_true in E. contradiction.
Qed.

Lemma separator_split (a a' c c' : bytes) :
  clean a -> clean a' -> a ++ x1c :: c = a' ++ x1c :: c' -> a = a' /\ c = c'.
Proof.
  unfold clean. revert a'.
  induction a as [|x a IH]; intros [|y a'] Ha Ha' E; cbn [app] in E.
  - injection E as ->. now split.
  - injection E as <- _. exfalso. apply Ha'. now left.
  - injection E as -> _. exfalso. apply Ha. now left.
  - injection E as -> E.
    destruct (IH a') as [-> ->]; auto.
    + intros H. apply Ha. now right.
    + intros H. apply Ha'. now right.
Qed.

Lemma app_same_length (a a' c c' : bytes) :
  length a = length a' -> a ++ c = a' ++ c' -> a = a' /\ c = c'.
Proof.
  revert a'. induction a as [|x a IH]; intros [|y a'] Hlen E; try discriminate.
  - now split.
  - injection Hlen as Hlen. cbn [app] in E. injection E as -> E.
    destruct (IH a' Hlen E) as [-> ->]. now split.
Qed.

Lemma StringToBytesNoCopy_inj (n n' : string) :
  StringToBytesNoCopy n = StringToBytesNoCopy n' -> n = n'.
Proof.
  unfold StringToBytesNoCopy. intros E.
  rewrite <- (string_of_list_byte_of_string n).
  rewrite <- (string_of_list_byte_of_string n'). now rewrite E.
Qed.

Lemma direct_key_eq (n : string) (m : bytes) :
  direct_key n m = x1d :: StringToBytesNoCopy n ++ x1c :: m.
Proof. unfold direct_key. now rewrite Bconcat4. Qed.

Lemma order_key_eq (n : string) (s m : bytes) :
  order_key n s m = x1f :: StringToBytesNoCopy n ++ x1c :: s ++ x1c :: m.
Proof.
  unfold order_key, Bconcat. cbn [concat]. now rewrite app_nil_r.
Qed.

Lemma direct_order_distinct (n n' : string) (m s m' : bytes) :
  direct_key n m <> order_key n' s m'.
Proof. rewrite direct_key_eq, order_key_eq. discriminate. Qed.

Lemma direct_key_inj (n n' : string) (m m' : bytes) :
  clean (StringToBytesNoCopy n) -> clean (StringToBytesNoCopy n') ->
  direct_key n m = direct_key n' m' -> n = n' /\ m = m'.
Proof.
  intros Hn Hn' E. rewrite !direct_key_eq in E. injection E as E.
  apply separator_split in E as [E ->]; auto.
  apply StringToBytesNoCopy_inj in E. now split.
Qed.

Lemma order_key_inj (n n' : string) (s s' m m' : bytes) :
  clean (StringToBytesNoCopy n) -> clean (StringToBytesNoCopy n') ->
  length s = length s' ->
  order_key n s m = order_key n' s' m' -> n = n' /\ s = s' /\ m = m'.
Proof.
  intros Hn Hn' Hlen E. rewrite !order_key_eq in E. injection E as E.
  apply separator_split in E as [E1 E2]; auto.
  apply StringToBytesNoCopy_inj in E1.
  apply app_same_length in E2 as [-> E2]; [|exact Hlen].
  injection E2 as ->. auto.
Qed.

(** The order-index key built from an absent score is no order-index key
    of an 8-byte score, as long as the member is clean. *)
Lemma order_key_nil_distinct (n n' : string) (s' m m' : bytes) :
  clean (StringToBytesNoCopy n) -> clean (StringToBytesNoCopy n') ->
  clean m -> length s' = scoreByteLen ->
  order_key n [] m <> order_key n' s' m'.
Proof.
  intros Hn Hn' Hm Hlen E. rewrite !order_key_eq in E. injection E as E.
  apply separator_split in E as [_ E]; auto.
  destruct s' as [|x s']; [discriminate Hlen|].
  cbn [app] in E. injection E as <- E.
  apply Hm. rewrite E. apply in_or_app. right. now left.
Qed.

Lemma order_key_score_inj (n : string) (s s' m : bytes) :
  order_key n s m = order_key n s' m -> s = s'.
Proof.
  rewrite !order_key_eq. intros E. injection E as E.
  apply app_inv_head in E. injection E as E.
  replace (s ++ x1c :: m) with (s ++ (x1c :: m)) in E by reflexivity.
  now apply app_inv_tail in E.
Qed.

(** The old score [Zset], [Zdel] and [Zmset] read: the stored score, or nil
    when the member is absent. *)
Lemma old_score (db : DB) (k : bytes) :
  read_fault db k = None ->
  fst (db_Get db k) = match tbl_get k (tbl db) with Some s => s | None => [] end.
Proof.
  intros Hr. unfold db_Get. rewrite Hr. now destruct (tbl_get k (tbl db)).
Qed.

(** The old order-index key is the key of no other member's entry. *)
Lemma old_order_key_own (t : table) (name name' : string) (key member' s : bytes) :
  zset_indexed t ->
  clean (StringToBytesNoCopy name) -> clean (StringToBytesNoCopy name') ->
  clean key -> length s = scoreByteLen ->
  order_key name' s member'
  = order_key name (match tbl_get (direct_key name key) t with
                    | Some o => o | None => [] end) key ->
  name' = name /\ member' = key /\ tbl_get (direct_key name key) t = Some s.
Proof.
  intros Hinv Hn Hn' Hk Hs E.
  destruct (tbl_get (direct_key name key) t) as [o|] eqn:Eo.
  - destruct (Hinv name Hn) as [Ha _]. destruct (Ha key o Eo) as [Ho _].
    apply order_key_inj in E as (-> & -> & ->); auto. congruence.
  - symmetry in E. now apply order_key_nil_distinct in E.
Qed.

End KeyFacts.

(** A direct-index key and an order-index key are never equal. *)
Ltac distinct_keys :=
  repeat match goal with
  | |- context [bytes_Equal (direct_key ?n ?m) (order_key ?n' ?s ?m')] =>
      rewrite (bytes_Equal_false (direct_key n m) (order_key n' s m'))
        by apply direct_order_distinct
  | |- context [bytes_Equal (order_key ?n' ?s ?m') (direct_key ?n ?m)] =>
      rewrite (bytes_Equal_false (order_key n' s m') (direct_key n m))
        by (let E := fresh in
            intros E; symmetry in E; now apply direct_order_distinct in E)
  end.

Section IndexMaintenance.

(** The batch of [Zset] and [Zincr]: put the direct-index entry, put the
    new order-index entry, delete the order-index key of the old score.  It
    keeps the indices in agreement when the old score differs from the new
    one, is the member's current score if the member has one, and gives the
    order-index key of no other member. *)
Lemma replace_keeps_indices (t : table) (name : string) (key new old : bytes) :
  clean (StringToBytesNoCopy name) ->
  zset_indexed t ->
  length new = scoreByteLen ->
  old <> new ->
  (forall s0, tbl_get (direct_key name key) t = Some s0 -> old = s0) ->
  (forall name' s member', clean (StringToBytesNoCopy name') ->
     length s = scoreByteLen ->
     order_key name' s member' = order_key name old key ->
     name' = name /\ member' = key) ->
  zset_indexed
    (apply_batch [BPut (direct_key name key) new;
                  BPut (order_key name new key) [];
                  BDelete (order_key name old key)] t).
Proof.
  intros Hn Hinv Hnew Hne Hcur Hown.
  cbn [apply_batch fold_left apply_op].
  assert (Hon : order_key name old key <> order_key name new key)
    by (intros E; now apply order_key_score_inj in E).
  assert (Hrefl : forall k, bytes_Equal k k = true)
    by (intros k; now apply bytes_Equal_true).
  intros name' Hn'. destruct (Hinv name' Hn') as [Ha Hb]. split.
  - intros member' s.
    rewrite tbl_get_del, tbl_get_put, tbl_get_put. distinct_keys.
    destruct (bytes_Equal (direct_key name' member') (direct_key name key)) eqn:Ed.
    + apply bytes_Equal_true, direct_key_inj in Ed as [-> ->]; auto.
      intros E. injection E as <-. split; [exact Hnew|].
      rewrite tbl_get_del, tbl_get_put.
      rewrite (bytes_Equal_false (order_key name new key) (order_key name old key))
        by congruence.
      rewrite Hrefl. discriminate.
    + intros Hs. destruct (Ha member' s Hs) as [Hlen Hord]. split; [exact Hlen|].
      rewrite tbl_get_del, tbl_get_put, tbl_get_put.
      destruct (bytes_Equal (order_key name' s member') (order_key name old key))
        eqn:Eo.
      * apply bytes_Equal_true in Eo.
        destruct (Hown name' s member' Hn' Hlen Eo) as [-> ->].
        rewrite Hrefl in Ed. discriminate Ed.
      * destruct (bytes_Equal (order_key name' s member') (order_key name new key));
          [discriminate|].
        distinct_keys. exact Hord.
  - intros member' s Hlen.
    rewrite tbl_get_del, tbl_get_put, tbl_get_put.
    destruct (bytes_Equal (order_key name' s member') (order_key name old key))
      eqn:Eo; [congruence|].
    rewrite tbl_get_del, tbl_get_put, tbl_get_put. distinct_keys.
    destruct (bytes_Equal (order_key name' s member') (order_key name new key))
      eqn:En.
    + intros _. apply bytes_Equal_true in En.
      assert (Hl : length s = length new) by congruence.
      apply order_key_inj in En as (-> & -> & ->); auto.
      now rewrite Hrefl.
    + intros Hord. specialize (Hb member' s Hlen Hord).
      destruct (bytes_Equal (direct_key name' member') (direct_key name key)) eqn:Ed;
        [|exact Hb].
      apply bytes_Equal_true, direct_key_inj in Ed as [-> ->]; auto.
      exfalso. rewrite (Hcur s Hb), Hrefl in Eo. discriminate Eo.
Qed.

(** [Zset] keeps the two indices in agreement. *)
Lemma Zset_keeps_indices (db : DB) (name : string) (key : bytes) (val : Z) :
  clean (StringToBytesNoCopy name) -> clean key ->
  read_fault db (direct_key name key) = None ->
  zset_indexed (tbl db) ->
  zset_indexed (tbl (fst (Zset db name key val))).
Proof.
  intros Hn Hk Hr Hinv. unfold Zset.
  fold (direct_key name key). fold (order_key name (Uint64ToBytes val) key).
  rewrite (old_score db _ Hr).
  set (old := match tbl_get (direct_key name key) (tbl db) with
              | Some s => s | None => [] end).
  fold (order_key name old key).
  destruct (bytes_Equal old (Uint64ToBytes val)) eqn:Eeq; cbn [negb fst];
    [exact Hinv|].
  unfold db_Write. destruct (write_fault db); cbn [fst tbl]; [exact Hinv|].
  apply replace_keeps_indices; auto.
  - intros E. apply bytes_Equal_true in E. congruence.
  - intros s0 E. unfold old. now rewrite E.
  - intros name' s member' Hn' Hlen E.
    apply (old_order_key_own (tbl db)) in E as (-> & -> & _); auto.
Qed.

Lemma Uint64ToBytes_BytesToUint64 (s : bytes) :
  length s = scoreByteLen -> Uint64ToBytes (BytesToUint64 s) = s.
Proof.
  intros Hlen. apply bytes_compare_eq.
  rewrite bytes_compare_be_val by (now rewrite Hlen).
  rewrite be_val_Uint64ToBytes by apply BytesToUint64_range.
  unfold BytesToUint64. rewrite Hlen. cbn [scoreByteLen Nat.ltb Nat.leb].
  do 8 (destruct s as [|? s]; [discriminate Hlen|]).
  destruct s; [|discriminate Hlen].
  cbn [firstn]. rewrite BigEndian_Uint64_be_val. apply Z.compare_refl.
Qed.

(** [Zincr] keeps the two indices in agreement when its step is not 0. *)
Lemma Zincr_keeps_indices (db : DB) (name : string) (key : bytes) (step : Z) :
  clean (StringToBytesNoCopy name) ->
  is_int64 step -> step <> 0 ->
  read_fault db (direct_key name key) = None ->
  zset_indexed (tbl db) ->
  zset_indexed (tbl (fst (Zincr db name key step))).
Proof.
  intros Hn Hs Hstep Hr Hinv. unfold Zincr.
  fold (direct_key name key).
  assert (Hrange : is_uint64 (Zget db name key)).
  { unfold Zget. destruct (db_Get db _) as [val [e|]];
      [unfold is_uint64, scoreMax; lia | apply BytesToUint64_range]. }
  rewrite (incr_num_spec _ _ Hrange Hs).
  destruct (_ || _)%bool eqn:Eov; cbn [fst]; [exact Hinv|].
  apply orb_false_iff in Eov as [E1 E2].
  set (cur := Zget db name key) in *.
  assert (Hnewr : is_uint64 (cur + step)).
  { unfold is_uint64 in *. unfold is_int64 in Hs.
    apply andb_false_iff in E1. apply andb_false_iff in E2.
    rewrite !Z.ltb_ge, Z.leb_gt in *. lia. }
  fold (order_key name (Uint64ToBytes (cur + step)) key).
  fold (order_key name (Uint64ToBytes cur) key).
  unfold db_Write. destruct (write_fault db); cbn [fst tbl]; [exact Hinv|].
  apply replace_keeps_indices; auto.
  - intros E. apply Uint64ToBytes_inj in E; auto. lia.
  - intros s0 E0. unfold cur, Zget. fold (direct_key name key).
    unfold db_Get. rewrite Hr, E0.
    apply Uint64ToBytes_BytesToUint64.
    destruct (Hinv name Hn) as [Ha _]. now apply (Ha key s0).
  - intros name' s member' Hn' Hlen E.
    apply order_key_inj in E as (-> & _ & ->); auto.
Qed.

(** The batch of [Zdel] and, per member, of [Zmdel]: delete the
    direct-index entry and the order-index key of the old score.  It keeps
    the indices in agreement when the old score has 8 bytes and is the
    member's current score if the member has one. *)
Lemma delete_keeps_indices (t : table) (name : string) (key old : bytes) :
  clean (StringToBytesNoCopy name) ->
  zset_indexed t ->
  length old = scoreByteLen ->
  (forall s0, tbl_get (direct_key name key) t = Some s0 -> old = s0) ->
  zset_indexed
    (apply_batch [BDelete (direct_key name key);
                  BDelete (order_key name old key)] t).
Proof.
  intros Hn Hinv Hold Hcur. cbn [apply_batch fold_left apply_op].
  assert (Hrefl : forall k, bytes_Equal k k = true)
    by (intros k; now apply bytes_Equal_true).
  intros name' Hn'. destruct (Hinv name' Hn') as [Ha Hb]. split.
  - intros member' s. rewrite !tbl_get_del. distinct_keys.
    destruct (bytes_Equal (direct_key name' member') (direct_key name key)) eqn:Ed;
      [discriminate|].
    intros Hs. destruct (Ha member' s Hs) as [Hlen Hord]. split; [exact Hlen|].
    destruct (bytes_Equal (order_key name' s member') (order_key name old key))
      eqn:Eo; [|exact Hord].
    assert (Hl : length s = length old) by congruence.
    apply bytes_Equal_true, order_key_inj in Eo as (-> & -> & ->); auto.
    rewrite Hrefl in Ed. discriminate Ed.
  - intros member' s Hlen. rewrite !tbl_get_del.
    destruct (bytes_Equal (order_key name' s member') (order_key name old key))
      eqn:Eo; [congruence|].
    distinct_keys.
    intros Hord. specialize (Hb member' s Hlen Hord).
    destruct (bytes_Equal (direct_key name' member') (direct_key name key)) eqn:Ed;
      [|exact Hb].
    apply bytes_Equal_true, direct_key_inj in Ed as [-> ->]; auto.
    exfalso. rewrite (Hcur s Hb), Hrefl in Eo. discriminate Eo.
Qed.

(** [Zdel] keeps the two indices in agreement. *)
Lemma Zdel_keeps_indices (db : DB) (name : string) (key : bytes) :
  clean (StringToBytesNoCopy name) ->
  zset_indexed (tbl db) ->
  zset_indexed (tbl (fst (Zdel db name key))).
Proof.
  intros Hn Hinv. unfold Zdel. fold (direct_key name key).
  unfold db_Get.
  destruct (read_fault db (direct_key name key)); [exact Hinv|].
  destruct (tbl_get (direct_key name key) (tbl db)) as [old|] eqn:Eold;
    [|exact Hinv].
  fold (order_key name old key).
  unfold db_Write. destruct (write_fault db); cbn [fst tbl]; [exact Hinv|].
  destruct (Hinv name Hn) as [Ha _]. destruct (Ha key old Eold) as [Hold _].
  apply delete_keeps_indices; auto. congruence.
Qed.

(** [Zmdel] keeps the two indices in agreement, whatever its key list. *)
Lemma Zmdel_keeps_indices (db : DB) (name : string) (keys : list bytes) :
  clean (StringToBytesNoCopy name) ->
  zset_indexed (tbl db) ->
  zset_indexed (tbl (fst (Zmdel db name keys))).
Proof.
  intros Hn Hinv. unfold Zmdel.
  unfold db_Write. destruct (write_fault db); cbn [fst tbl]; [exact Hinv|].
  assert (H : forall t, zset_indexed t ->
            (forall k s0, tbl_get k t = Some s0 -> tbl_get k (tbl db) = Some s0) ->
            zset_indexed
              (apply_batch
                 (Zmdel_batch db
                    (Bconcat [zetScorePrefix; StringToBytesNoCopy name; splitChar])
                    (Bconcat [zetKeyPrefix; StringToBytesNoCopy name; splitChar])
                    keys) t)).
  { induction keys as [|key keys IH]; intros t Ht Hsub; [exact Ht|].
    cbn [Zmdel_batch].
    replace (Bconcat [Bconcat [zetScorePrefix; StringToBytesNoCopy name; splitChar];
                      key]) with (direct_key name key)
      by (unfold direct_key, Bconcat; cbn [concat];
          now rewrite !app_nil_r, <- !app_assoc).
    unfold db_Get.
    destruct (read_fault db (direct_key name key)); [now apply IH|].
    destruct (tbl_get (direct_key name key) (tbl db)) as [old|] eqn:Eold;
      [|now apply IH].
    replace (Bconcat [Bconcat [zetKeyPrefix; StringToBytesNoCopy name; splitChar];
                      old; splitChar; key]) with (order_key name old key)
      by (unfold order_key, Bconcat; cbn [concat];
          now rewrite !app_nil_r, <- !app_assoc).
    destruct (Hinv name Hn) as [Ha _]. destruct (Ha key old Eold) as [Hold _].
    change (BDelete (direct_key name key) :: BDelete (order_key name old key)
            :: Zmdel_batch db
                 (Bconcat [zetScorePrefix; StringToBytesNoCopy name; splitChar])
                 (Bconcat [zetKeyPrefix; StringToBytesNoCopy name; splitChar]) keys)
      with ([BDelete (direct_key name key); BDelete (order_key name old key)]
            ++ Zmdel_batch db
                 (Bconcat [zetScorePrefix; StringToBytesNoCopy name; splitChar])
                 (Bconcat [zetKeyPrefix; StringToBytesNoCopy name; splitChar]) keys).
    rewrite apply_batch_app. apply IH.
    - apply delete_keeps_indices; auto.
      intros s0 E0. apply Hsub in E0. congruence.
    - intros k s0. cbn [apply_batch fold_left apply_op]. rewrite !tbl_get_del.
      destruct (bytes_Equal k (order_key name old key)); [discriminate|].
      destruct (bytes_Equal k (direct_key name key)); [discriminate|].
      apply Hsub. }
  apply H; auto.
Qed.

(** Agreement of the indices gives the dual-index invariant for every
    clean name: exactly the order-index entry of the current score. *)
Lemma zset_indexed_consistent (t : table) (name : string) (member s : bytes) :
  zset_indexed t -> clean (StringToBytesNoCopy name) ->
  tbl_get (direct_key name member) t = Some s ->
  tbl_get (order_key name s member) t <> None /\
  forall s', length s' = scoreByteLen ->
    tbl_get (order_key name s' member) t <> None -> s' = s.
Proof.
  intros Hinv Hn Hs. destruct (Hinv name Hn) as [Ha Hb].
  split; [now apply Ha|].
  intros s' Hlen Hord. specialize (Hb member s' Hlen Hord). congruence.
Qed.

End IndexMaintenance.

(** ** [Zmset] on distinct members

    The batch of [Zmset] keeps the indices in agreement when no member is
    named twice: then the old score read from the store before the write
    is still the member's score when its records take effect. *)

Section MultiSet.

Lemma Zmset_keys (name : string) (key score : bytes) :
  let nameB := StringToBytesNoCopy name in
  Bconcat [Bconcat [zetScorePrefix; nameB; splitChar]; key] = direct_key name key /\
  Bconcat [Bconcat [zetKeyPrefix; nameB; splitChar]; score; splitChar; key]
  = order_key name score key.
Proof.
  cbn zeta. unfold direct_key, order_key, Bconcat. cbn [concat].
  rewrite !app_nil_r, <- !app_assoc. split; reflexivity.
Qed.

(** The records of one member leave the direct-index entries of the other
    members alone. *)
Lemma replace_other_member (t : table) (name : string) (key new old m : bytes) :
  clean (StringToBytesNoCopy name) -> m <> key ->
  tbl_get (direct_key name m)
    (apply_batch [BPut (direct_key name key) new;
                  BPut (order_key name new key) [];
                  BDelete (order_key name old key)] t)
  = tbl_get (direct_key name m) t.
Proof.
  intros Hn Hne. cbn [apply_batch fold_left apply_op].
  rewrite tbl_get_del, tbl_get_put, tbl_get_put. distinct_keys.
  rewrite bytes_Equal_false; [reflexivity|].
  intros E. apply direct_key_inj in E as [_ E]; auto.
Qed.

Lemma Zmset_batch_keeps_indices (db : DB) (name : string) (kvs : list bytes) :
  clean (StringToBytesNoCopy name) ->
  (forall e, In e (pairs kvs) -> clean (Key e) /\ length (Value e) = scoreByteLen) ->
  NoDup (map Key (pairs kvs)) ->
  (forall k, read_fault db k = None) ->
  forall t,
    zset_indexed t ->
    (forall e, In e (pairs kvs) ->
       tbl_get (direct_key name (Key e)) t
       = tbl_get (direct_key name (Key e)) (tbl db)) ->
    zset_indexed
      (apply_batch
         (Zmset_batch db
            (Bconcat [zetScorePrefix; StringToBytesNoCopy name; splitChar])
            (Bconcat [zetKeyPrefix; StringToBytesNoCopy name; splitChar]) kvs) t).
Proof.
  intros Hn Hwf Hnd Hr.
  assert (H : forall n kvs, (length kvs <= n)%nat ->
    (forall e, In e (pairs kvs) -> clean (Key e) /\ length (Value e) = scoreByteLen) ->
    NoDup (map Key (pairs kvs)) ->
    forall t, zset_indexed t ->
    (forall e, In e (pairs kvs) ->
       tbl_get (direct_key name (Key e)) t
       = tbl_get (direct_key name (Key e)) (tbl db)) ->
    zset_indexed
      (apply_batch
         (Zmset_batch db
            (Bconcat [zetScorePrefix; StringToBytesNoCopy name; splitChar])
            (Bconcat [zetKeyPrefix; StringToBytesNoCopy name; splitChar]) kvs) t)).
  { clear kvs Hwf Hnd. induction n as [|n IH]; intros kvs Hlen Hwf Hnd t Hinv Hsame.
    - destruct kvs; [exact Hinv|cbn [length] in Hlen; lia].
    - destruct kvs as [|key [|score rest]]; try exact Hinv.
      cbn [Zmset_batch].
      destruct (Zmset_keys name key score) as [-> ->].
      destruct (Zmset_keys name key (fst (db_Get db (direct_key name key))))
        as [_ ->].
      cbn [pairs map] in Hwf, Hnd, Hsame.
      destruct (Hwf (mkEntry key score) (or_introl eq_refl)) as [Hk Hs].
      cbn [Key Value] in Hk, Hs.
      apply NoDup_cons_iff in Hnd as [Hnotin Hnd]. cbn [Key] in Hnotin.
      rewrite apply_batch_app.
      assert (Hold : fst (db_Get db (direct_key name key))
                     = match tbl_get (direct_key name key) t with
                       | Some s => s | None => [] end).
      { rewrite (old_score db _ (Hr _)).
        pose proof (Hsame (mkEntry key score) (or_introl eq_refl)) as Hk0.
        cbn [Key] in Hk0. now rewrite Hk0. }
      rewrite Hold.
      set (old := match tbl_get (direct_key name key) t with
                  | Some s => s | None => [] end).
      assert (Hrest : forall e, In e (pairs rest) -> Key e <> key).
      { intros e He E. apply Hnotin. rewrite <- E. now apply in_map. }
      apply IH.
      + cbn [length] in Hlen. lia.
      + intros e He. apply Hwf. now right.
      + exact Hnd.
      + destruct (bytes_Equal old score) eqn:Eeq; cbn [negb]; [exact Hinv|].
        apply replace_keeps_indices; auto.
        * intros E. apply bytes_Equal_true in E. congruence.
        * intros s0 E. unfold old. now rewrite E.
        * intros name' s member' Hn' Hlen' E.
          apply (old_order_key_own t) in E as (-> & -> & _); auto.
      + intros e He.
        rewrite <- (Hsame e (or_intror He)).
        destruct (bytes_Equal old score); cbn [negb]; [reflexivity|].
        apply replace_other_member; auto. }
  intros t. now apply (H (length kvs)).
Qed.

(** [Zmset] keeps the two indices in agreement when the members of its
    pair list are distinct. *)
Lemma Zmset_keeps_indices (db : DB) (name : string) (kvs : list bytes) :
  clean (StringToBytesNoCopy name) ->
  (forall e, In e (pairs kvs) -> clean (Key e) /\ length (Value e) = scoreByteLen) ->
  NoDup (map Key (pairs kvs)) ->
  (forall k, read_fault db k = None) ->
  zset_indexed (tbl db) ->
  zset_indexed (tbl (fst (Zmset db name kvs))).
Proof.
  intros Hn Hwf Hnd Hr Hinv. unfold Zmset.
  destruct (bad_kvs kvs); cbn [fst]; [exact Hinv|].
  unfold db_Write. destruct (write_fault db); cbn [fst tbl]; [exact Hinv|].
  now apply Zmset_batch_keeps_indices.
Qed.

Lemma zset_db_indexed : zset_indexed (tbl Examples.zset_db).
Proof.
  assert (Hc : forall s, In s ["z"; "m1"; "m2"]%string ->
             clean (StringToBytesNoCopy s)).
  { intros s Hs. unfold clean. cbn [In] in Hs.
    destruct Hs as [<-|[<-|[<-|[]]]]; cbn; intuition discriminate. }
  unfold Examples.zset_db.
  apply Zset_keeps_indices;
    [apply Hc; cbn; auto | apply (Hc "m2"%string); cbn; auto | reflexivity |].
  apply Zset_keeps_indices;
    [apply Hc; cbn; auto | apply (Hc "m1"%string); cbn; auto | reflexivity |].
  intros name _. split; intros member s; [|intros _]; intros H;
    [discriminate H | now contradiction H].
Qed.

End MultiSet.

(** * Further properties of the package *)

(** ** Point operations of the hashmap *)

Section HashmapPoint.

Lemma hash_key_bucket (name : string) (key : bytes) :
  hash_key name key = bucket_prefix name ++ key.
Proof. apply Bconcat_bucket. Qed.

Lemma bytes_Equal_refl (k : bytes) : bytes_Equal k k = true.
Proof. now apply bytes_Equal_true. Qed.

Lemma Hget_table (db : DB) (name : string) (key : bytes) :
  read_fault db (hash_key name key) = None ->
  Hget db name key
  = match tbl_get (hash_key name key) (tbl db) with
    | Some v => mkReply replyOK [v]
    | None => mkReply replyNotFound []
    end.
Proof.
  intros Hr. unfold Hget, db_Get. fold (hash_key name key). rewrite Hr.
  now destruct (tbl_get (hash_key name key) (tbl db)).
Qed.

Lemma HhasKey_table (db : DB) (name : string) (key : bytes) :
  read_fault db (hash_key name key) = None ->
  HhasKey db name key
  = match tbl_get (hash_key name key) (tbl db) with
    | Some _ => true
    | None => false
    end.
Proof.
  intros Hr. unfold HhasKey, db_Has. fold (hash_key name key). rewrite Hr.
  now destruct (tbl_get (hash_key name key) (tbl db)).
Qed.

Lemma db_Write_ok (db : DB) (b : Batch) :
  write_fault db = None ->
  db_Write db b
  = (mkDB (apply_batch b (tbl db)) (read_fault db) (iter_fault db)
          (write_fault db) (written db ++ [b]), None).
Proof. intros Hw. unfold db_Write. now rewrite Hw. Qed.

(** After [Hset] the member reads back as the value just written, with the
    ok status; [HhasKey] holds; and every other composite key reads as
    before. *)
Theorem Hset_then_Hget (db : DB) (name : string) (key val : bytes) :
  write_fault db = None ->
  (forall k, read_fault db k = None) ->
  let db' := fst (Hset db name key val) in
  snd (Hset db name key val) = None /\
  Hget db' name key = mkReply replyOK [val] /\
  Bytes (Hget db' name key) = val /\
  HhasKey db' name key = true /\
  (forall name' key', hash_key name' key' <> hash_key name key ->
     Hget db' name' key' = Hget db name' key').
Proof.
  intros Hw Hr db'. unfold db', Hset, db_Put. fold (hash_key name key).
  rewrite (db_Write_ok db _ Hw). cbn [fst snd].
  split; [reflexivity|].
  rewrite HhasKey_table, !Hget_table by apply Hr.
  cbn [tbl apply_batch fold_left apply_op]. rewrite tbl_get_put_same.
  repeat split.
  intros name' key' Hne. rewrite !Hget_table by apply Hr.
  cbn [tbl]. now rewrite tbl_get_put_other.
Qed.

Lemma Hset_then_Hget_witness :
  write_fault Examples.empty_db = None /\
  (forall k, read_fault Examples.empty_db k = None) /\
  Hget (fst (Hset Examples.empty_db "mytest" (Examples.b "mykey") (Examples.b "hello")))
       "mytest" (Examples.b "mykey")
  = mkReply replyOK [Examples.b "hello"].
Proof.
  split; [reflexivity|]. split; [reflexivity|].
  apply (Hset_then_Hget Examples.empty_db "mytest" (Examples.b "mykey")
           (Examples.b "hello") eq_refl (fun _ => eq_refl)).
Defined.

(** After [Hdel] the member is not found: [Hget] carries the not-found
    status and no data, [HhasKey] is false; every other composite key reads
    as before; and deleting a member that is not there is no error. *)
Theorem Hdel_then_not_found (db : DB) (name : string) (key : bytes) :
  write_fault db = None ->
  (forall k, read_fault db k = None) ->
  let db' := fst (Hdel db name key) in
  snd (Hdel db name key) = None /\
  Hget db' name key = mkReply replyNotFound [] /\
  NotFound (Hget db' name key) = true /\
  HhasKey db' name key = false /\
  (forall name' key', hash_key name' key' <> hash_key name key ->
     Hget db' name' key' = Hget db name' key').
Proof.
  intros Hw Hr db'. unfold db', Hdel, db_Delete. fold (hash_key name key).
  rewrite (db_Write_ok db _ Hw). cbn [fst snd].
  split; [reflexivity|].
  rewrite HhasKey_table, !Hget_table by apply Hr.
  cbn [tbl apply_batch fold_left apply_op]. rewrite tbl_get_del_same.
  repeat split.
  intros name' key' Hne. rewrite !Hget_table by apply Hr.
  cbn [tbl]. now rewrite tbl_get_del_other.
Qed.

Lemma Hdel_then_not_found_witness :
  write_fault Examples.hash_db = None /\
  (forall k, read_fault Examples.hash_db k = None) /\
  NotFound (Hget (fst (Hdel Examples.hash_db "h" (Examples.b "ab"))) "h"
              (Examples.b "ab")) = true.
Proof.
  split; [reflexivity|]. split; [reflexivity|].
  apply (Hdel_then_not_found Examples.hash_db "h" (Examples.b "ab")
           eq_refl (fun _ => eq_refl)).
Defined.

End HashmapPoint.


(** ** Batched operations of the hashmap *)

Section HashmapBatch.

Lemma find_app {A : Type} (f : A -> bool) (l1 l2 : list A) :
  find f (l1 ++ l2)
  = match find f l1 with Some x => Some x | None => find f l2 end.
Proof.
  induction l1 as [|x l1 IH]; cbn [app find]; [reflexivity|].
  now destruct (f x).
Qed.

Lemma find_ext {A : Type} (f g : A -> bool) (l : list A) :
  (forall x, f x = g x) -> find f l = find g l.
Proof.
  intros H. induction l as [|x l IH]; cbn [find]; [reflexivity|].
  now rewrite H, IH.
Qed.

Lemma bytes_Equal_app (p a c : bytes) :
  bytes_Equal (p ++ a) (p ++ c) = bytes_Equal a c.
Proof. unfold bytes_Equal. now rewrite bytes_compare_app. Qed.

(** A batch of puts, read back: the value of the last record of the key,
    or what the table held. *)
Lemma apply_puts_get (p : bytes) (l : list Entry) (t : table) (K : bytes) :
  tbl_get K (apply_batch (map (fun e => BPut (p ++ Key e) (Value e)) l) t)
  = match find (fun e => bytes_Equal K (p ++ Key e)) (rev l) with
    | Some e => Some (Value e)
    | None => tbl_get K t
    end.
Proof.
  revert t. induction l as [|x l IH]; intros t; [reflexivity|].
  cbn [map rev]. unfold apply_batch. cbn [fold_left apply_op].
  fold (apply_batch (map (fun e => BPut (p ++ Key e) (Value e)) l)
          (tbl_put (p ++ Key x) (Value x) t)).
  rewrite IH, find_app. cbn [find].
  destruct (find _ (rev l)); [reflexivity|].
  rewrite tbl_get_put. now destruct (bytes_Equal K (p ++ Key x)).
Qed.

(** After a successful [Hmset] every member reads as the value of the last
    pair that names it, and a member no pair names reads as before. *)
Theorem Hmset_last_pair_wins (db : DB) (name : string) (kvs : list bytes) :
  kvs <> [] -> Nat.Even (length kvs) ->
  write_fault db = None ->
  (forall k, read_fault db k = None) ->
  let db' := fst (Hmset db name kvs) in
  snd (Hmset db name kvs) = None /\
  forall key,
    Hget db' name key
    = match last_pair key (pairs kvs) with
      | Some e => mkReply replyOK [Value e]
      | None => Hget db name key
      end.
Proof.
  intros Hne Hev Hw Hr db'.
  assert (Hb : bad_kvs kvs = false).
  { destruct (bad_kvs kvs) eqn:E; [|reflexivity].
    apply bad_kvs_spec in E as [E|[m E]].
    - destruct kvs; [contradiction|discriminate E].
    - destruct Hev as [n Hn]. lia. }
  unfold db', Hmset. rewrite Hb. rewrite Hmset_batch_pairs.
  rewrite (db_Write_ok db _ Hw). cbn [fst snd]. split; [reflexivity|].
  intros key. rewrite !Hget_table by apply Hr. cbn [tbl].
  fold (bucket_prefix name). rewrite hash_key_bucket, apply_puts_get.
  unfold last_pair.
  rewrite (find_ext _ (fun e : Entry => bytes_Equal key (Key e)))
    by (intros e; apply bytes_Equal_app).
  now destruct (find _ (rev (pairs kvs))).
Qed.

Lemma Hmset_last_pair_wins_witness :
  let kvs := [Examples.b "k"; Examples.b "v1"; Examples.b "k"; Examples.b "v2"] in
  kvs <> [] /\ Nat.Even (length kvs) /\
  write_fault Examples.empty_db = None /\
  (forall k, read_fault Examples.empty_db k = None) /\
  Hget (fst (Hmset Examples.empty_db "h" kvs)) "h" (Examples.b "k")
  = mkReply replyOK [Examples.b "v2"].
Proof.
  intros kvs.
  assert (Hne : kvs <> []) by discriminate.
  assert (Hev : Nat.Even (length kvs)) by (exists 2%nat; reflexivity).
  split; [exact Hne|]. split; [exact Hev|].
  split; [reflexivity|]. split; [reflexivity|].
  destruct (Hmset_last_pair_wins Examples.empty_db "h" kvs Hne Hev eq_refl
              (fun _ => eq_refl)) as [_ H].
  rewrite H. reflexivity.
Defined.

(** A batch of deletes, read back: nothing under a deleted key, and what
    the table held elsewhere. *)
Lemma apply_deletes_get (ks : list bytes) (t : table) (K : bytes) :
  tbl_get K (apply_batch (map BDelete ks) t)
  = if existsb (bytes_Equal K) ks then None else tbl_get K t.
Proof.
  revert t. induction ks as [|k ks IH]; intros t; [reflexivity|].
  cbn [map existsb]. unfold apply_batch. cbn [fold_left apply_op].
  fold (apply_batch (map BDelete ks) (tbl_del k t)).
  rewrite IH, tbl_get_del.
  destruct (bytes_Equal K k); cbn [orb]; [|reflexivity].
  now destruct (existsb (bytes_Equal K) ks).
Qed.

(** After a successful [Hmdel] every listed member is not found and every
    other composite key reads as before; the deletes go to the store as one
    batch, and an empty key list is no error. *)
Theorem Hmdel_removes_listed (db : DB) (name : string) (keys : list bytes) :
  write_fault db = None ->
  (forall k, read_fault db k = None) ->
  let db' := fst (Hmdel db name keys) in
  snd (Hmdel db name keys) = None /\
  written db' = written db ++ [map (fun key => BDelete (hash_key name key)) keys] /\
  (forall key, In key keys -> Hget db' name key = mkReply replyNotFound []) /\
  (forall name' key',
     (forall key, In key keys -> hash_key name' key' <> hash_key name key) ->
     Hget db' name' key' = Hget db name' key').
Proof.
  intros Hw Hr db'. unfold db', Hmdel. fold (bucket_prefix name).
  rewrite (map_ext (fun key => BDelete (Bconcat [bucket_prefix name; key]))
             (fun key => BDelete (hash_key name key)))
    by (intros key; now rewrite Bconcat2, hash_key_bucket).
  rewrite (db_Write_ok db _ Hw). cbn [fst snd written].
  split; [reflexivity|]. split; [reflexivity|].
  rewrite <- (map_map (hash_key name) BDelete).
  split.
  - intros key Hin. rewrite Hget_table by apply Hr. cbn [tbl].
    rewrite apply_deletes_get.
    replace (existsb _ _) with true; [reflexivity|].
    symmetry. apply existsb_exists. exists (hash_key name key).
    split; [now apply in_map | apply bytes_Equal_refl].
  - intros name' key' Hne. rewrite !Hget_table by apply Hr. cbn [tbl].
    rewrite apply_deletes_get.
    replace (existsb _ _) with false; [reflexivity|].
    symmetry. apply not_true_is_false. intros E.
    apply existsb_exists in E as (K & HK & E).
    apply in_map_iff in HK as (key & <- & Hin).
    apply bytes_Equal_true in E. now apply (Hne key).
Qed.

Lemma Hmdel_removes_listed_witness :
  write_fault Examples.hash_db = None /\
  (forall k, read_fault Examples.hash_db k = None) /\
  Hget (fst (Hmdel Examples.hash_db "h" [Examples.b "a"; Examples.b "ac"])) "h"
       (Examples.b "ac")
  = mkReply replyNotFound [].
Proof.
  split; [reflexivity|]. split; [reflexivity|].
  destruct (Hmdel_removes_listed Examples.hash_db "h"
              [Examples.b "a"; Examples.b "ac"] eq_refl (fun _ => eq_refl))
    as (_ & _ & H & _).
  apply H. right. now left.
Defined.

End HashmapBatch.

(** ** Deleting a bucket *)

Section BucketDelete.

Lemma In_tbl_get_some (k v : bytes) (t : table) :
  In (k, v) t -> tbl_get k t <> None.
Proof.
  induction t as [|[k' v'] t IH]; intros Hin; [contradiction|].
  cbn [tbl_get]. destruct (bytes_compare k k') eqn:E; try discriminate.
  - apply IH. destruct Hin as [H|H]; [|exact H].
    injection H as -> _. rewrite bytes_compare_refl in E. discriminate.
  - apply IH. destruct Hin as [H|H]; [|exact H].
    injection H as -> _. rewrite bytes_compare_refl in E. discriminate.
Qed.

(** Deleting every key an iterator over the prefix [p] yields leaves
    nothing under [p] and everything else as it was. *)
Lemma delete_prefix_get (p : bytes) (t : table) (K : bytes) :
  tbl_get K
    (apply_batch
       (map (fun e => BDelete (fst e))
            (filter (fun e => in_range (BytesPrefix p) (fst e)) t)) t)
  = if has_prefix p K then None else tbl_get K t.
Proof.
  rewrite <- (map_map fst BDelete), apply_deletes_get.
  destruct (existsb (bytes_Equal K) _) eqn:Ee.
  - apply existsb_exists in Ee as (K' & HK' & E).
    apply bytes_Equal_true in E. subst K'.
    apply in_map_iff in HK' as ([k v] & <- & Hin).
    apply filter_In in Hin as [_ Hr]. cbn [fst] in *.
    rewrite in_range_BytesPrefix in Hr. now rewrite Hr.
  - destruct (has_prefix p K) eqn:Hp; [|reflexivity].
    destruct (tbl_get K t) as [v|] eqn:Eg; [|reflexivity].
    exfalso. apply tbl_get_In in Eg.
    assert (Ht : existsb (bytes_Equal K)
                   (map fst (filter (fun e => in_range (BytesPrefix p) (fst e)) t))
                 = true).
    { apply existsb_exists. exists K. split; [|apply bytes_Equal_refl].
      apply in_map_iff. exists (K, v). split; [reflexivity|].
      apply filter_In. split; [exact Eg|]. cbn [fst].
      now rewrite in_range_BytesPrefix. }
    congruence.
Qed.

(** A forward scan of a table that holds no key under the prefix selects
    nothing. *)
Lemma forward_selection_none (db : DB) (p s : bytes) (limit : Z) :
  (forall K, has_prefix p K = true -> tbl_get K (tbl db) = None) ->
  forward_selection db p s limit = [].
Proof.
  intros Hnone. unfold forward_selection.
  replace (filter _ (tbl db)) with (@nil (bytes * bytes));
    [apply take_limit_nil|].
  symmetry. induction (tbl db) as [|[k v] t IH]; [reflexivity|].
  cbn [filter fst].
  destruct (has_prefix p k) eqn:Hp.
  - exfalso. apply (In_tbl_get_some k v ((k, v) :: t)); [now left|].
    now apply Hnone.
  - cbn [andb]. apply IH. intros K HK.
    specialize (Hnone K HK). cbn [tbl_get] in Hnone.
    destruct (bytes_compare K k); [discriminate | exact Hnone | exact Hnone].
Qed.

(** The reply of a forward scan when the iterator reports no error: the
    selected entries, cut, and the ok status exactly when there is one. *)
Lemma forward_scan_data (db : DB) (p s : bytes)
    (emit : bytes -> bytes -> option (list bytes)) (g : bytes * bytes -> Entry)
    (limit : Z) :
  (forall e, In e (tbl db) -> has_prefix p (fst e) = true ->
     bytes_lt (p ++ s) (fst e) ->
     emit (fst e) (snd e) = Some [Key (g e); Value (g e)]) ->
  iter_fault db = None ->
  let it := NewIterator db (mkRange (p ++ s) (prefix_limit p)) in
  let sel := forward_selection db p s limit in
  match scan_loop (fun k => bytes_ltb (p ++ s) k) emit limit (forward it) [] 0 with
  | None => None
  | Some res => Some (scan_reply it res)
  end
  = Some (mkReply (if 0 <? Z.of_nat (length sel) then replyOK else replyError)
                  (flat_map (fun e => [Key (g e); Value (g e)]) sel)).
Proof.
  intros Hemit Hf it sel.
  pose (f := fun e : bytes * bytes => [Key (g e); Value (g e)]).
  assert (Hw : forall e, In e (forward it) ->
             bytes_ltb (p ++ s) (fst e) = true ->
             emit (fst e) (snd e) = Some (f e)).
  { intros e He Hk. unfold forward, it, NewIterator in He. cbn [items] in He.
    apply filter_In in He as [Hin Hr].
    assert (Hb : in_range (mkRange (p ++ s) (prefix_limit p)) (fst e)
                 && bytes_ltb (p ++ s) (fst e) = true) by now rewrite Hr, Hk.
    rewrite forward_keep in Hb. apply andb_true_iff in Hb as [Hp _].
    apply Hemit; [exact Hin | exact Hp | now apply bytes_ltb_lt]. }
  rewrite (scan_loop_spec (fun k => bytes_ltb (p ++ s) k) emit limit f
             (forward it) Hw [] 0).
  cbn zeta. rewrite scan_reply_ok by exact Hf. cbn [app].
  assert (Hsel : take_limit limit 0
                   (filter (fun e => bytes_ltb (p ++ s) (fst e)) (forward it))
                 = sel).
  { unfold sel, forward_selection, forward, it, NewIterator. cbn [items].
    rewrite filter_filter. f_equal. apply filter_ext. intros e.
    apply forward_keep. }
  rewrite Hsel. reflexivity.
Qed.

Lemma Hscan_data (db : DB) (name : string) (keyStart : bytes) (limit : Z) :
  iter_fault db = None ->
  let p := bucket_prefix name in
  let sel := forward_selection db p keyStart limit in
  Hscan db name keyStart limit
  = Some (mkReply (if 0 <? Z.of_nat (length sel) then replyOK else replyError)
            (flat_map (fun e => [Key (strip (length p) e);
                                 Value (strip (length p) e)]) sel)).
Proof.
  intros Hf. cbn zeta. rewrite Hscan_unfold. cbn zeta.
  apply forward_scan_data; [|exact Hf].
  intros [k v] _ Hp _. cbn [fst snd]. now apply emit_kv_prefix.
Qed.

(** [HdelBucket] on an iterator error returns that error and leaves the
    store as it is; otherwise it deletes, in one batch, every key of the
    bucket and nothing else: afterwards every member of the bucket is not
    found, a scan of the bucket returns no pair (with the generic error
    status), and every key outside the bucket reads as before. *)
Theorem HdelBucket_empties_bucket (db : DB) (name : string) :
  (forall k, read_fault db k = None) ->
  (forall msg, iter_fault db = Some msg ->
     HdelBucket db name = (db, Some (ErrStore msg))) /\
  (iter_fault db = None -> write_fault db = None ->
   let db' := fst (HdelBucket db name) in
   snd (HdelBucket db name) = None /\
   (forall K, tbl_get K (tbl db')
              = if has_prefix (bucket_prefix name) K then None
                else tbl_get K (tbl db)) /\
   (forall key, Hget db' name key = mkReply replyNotFound []) /\
   (forall keyStart limit,
      Hscan db' name keyStart limit = Some (mkReply replyError []))).
Proof.
  intros Hr. split.
  - intros msg Hf. unfold HdelBucket, NewIterator. cbn [iter_err]. now rewrite Hf.
  - intros Hf Hw db'.
    assert (E : HdelBucket db name
                = db_Write db
                    (map (fun e => BDelete (fst e))
                       (filter (fun e => in_range (BytesPrefix (bucket_prefix name))
                                           (fst e)) (tbl db)))).
    { unfold HdelBucket, NewIterator, forward. cbn [iter_err items].
      now rewrite Hf. }
    unfold db'. rewrite E, (db_Write_ok db _ Hw). cbn [fst snd].
    split; [reflexivity|].
    assert (Hget' : forall K,
              tbl_get K (apply_batch
                           (map (fun e => BDelete (fst e))
                              (filter (fun e => in_range
                                         (BytesPrefix (bucket_prefix name)) (fst e))
                                 (tbl db))) (tbl db))
              = if has_prefix (bucket_prefix name) K then None
                else tbl_get K (tbl db))
      by (intros K; apply delete_prefix_get).
    split; [exact Hget'|]. split.
    + intros key. rewrite Hget_table by apply Hr. cbn [tbl].
      rewrite Hget', hash_key_bucket, has_prefix_app. reflexivity.
    + intros keyStart limit. rewrite Hscan_data by exact Hf. cbn zeta.
      rewrite forward_selection_none; [reflexivity|].
      intros K HK. cbn [tbl]. rewrite Hget'. now rewrite HK.
Qed.

Lemma HdelBucket_empties_bucket_witness :
  (forall k, read_fault Examples.hash_db k = None) /\
  iter_fault Examples.hash_db = None /\ write_fault Examples.hash_db = None /\
  Hscan (fst (HdelBucket Examples.hash_db "h")) "h" [] 10
  = Some (mkReply replyError []).
Proof.
  split; [reflexivity|]. split; [reflexivity|]. split; [reflexivity|].
  destruct (HdelBucket_empties_bucket Examples.hash_db "h" (fun _ => eq_refl))
    as [_ H].
  destruct (H eq_refl eq_refl) as (_ & _ & _ & Hs). apply Hs.
Defined.

End BucketDelete.

(** ** Counters read back *)

Section CounterReads.

Lemma BS_Uint64_BytesToUint64 (b : bytes) : BS_Uint64 b = BytesToUint64 b.
Proof.
  unfold BS_Uint64, BytesToUint64.
  destruct (length b <? 8)%nat eqn:E; [reflexivity|].
  apply Nat.ltb_ge in E.
  do 8 (destruct b as [|? b]; [cbn [length] in E; lia|]).
  reflexivity.
Qed.

Lemma in_range_no_overflow (cur step : Z) :
  0 <= cur + step <= scoreMax ->
  ~ ((0 < step /\ scoreMax < cur + step) \/ (step <= 0 /\ cur < Z.abs step)).
Proof. intros H [[H1 H2]|[H1 H2]]; lia. Qed.

(** A successful [Hincr] returns the counter plus the step, and that is
    what [HgetInt] and [Hget(...).Uint64()] read afterwards; a second
    increment starts from it, so two steps that stay in range add up. *)
Theorem Hincr_then_read (db : DB) (name : string) (key : bytes) (step : Z) :
  is_int64 step ->
  0 <= HgetInt db name key + step <= scoreMax ->
  write_fault db = None ->
  (forall k, read_fault db k = None) ->
  let cur := HgetInt db name key in
  let db' := fst (Hincr db name key step) in
  snd (Hincr db name key step) = (cur + step, None) /\
  HgetInt db' name key = cur + step /\
  Reply_Uint64 (Hget db' name key) = cur + step /\
  (forall step2, is_int64 step2 -> 0 <= cur + step + step2 <= scoreMax ->
     snd (Hincr db' name key step2) = (cur + step + step2, None)).
Proof.
  intros Hs Hrange Hw Hr cur db'.
  destruct (Hincr_success db name key step Hs
              (in_range_no_overflow _ _ Hrange) Hw) as (d & E & Ht & Hwr & Hg).
  fold cur in E, Ht, Hwr, Hg.
  assert (Hd : db' = d) by (unfold db'; now rewrite E).
  assert (Hrd : forall k, read_fault d k = None).
  { intros k. rewrite <- Hd. unfold db'. rewrite Hincr_unfold.
    destruct (incr_num (HgetInt db name key) step); [|apply Hr].
    unfold db_Put, db_Write. rewrite Hw. cbn [fst read_fault]. apply Hr. }
  assert (Hwd : write_fault d = None).
  { rewrite <- Hd. unfold db'. rewrite Hincr_unfold.
    destruct (incr_num (HgetInt db name key) step); [|exact Hw].
    unfold db_Put, db_Write. rewrite Hw. cbn [fst write_fault]. auto. }
  assert (Hnew : HgetInt d name key = cur + step).
  { unfold HgetInt, db_Get. rewrite Hrd, Hg.
    apply BytesToUint64_Uint64ToBytes. exact Hrange. }
  rewrite Hd. split; [now rewrite E|]. split; [exact Hnew|]. split.
  - unfold Reply_Uint64. rewrite Hget_table by apply Hrd.
    unfold hash_key. rewrite Hg. cbn [bytex Data].
    rewrite BS_Uint64_BytesToUint64.
    apply BytesToUint64_Uint64ToBytes. exact Hrange.
  - intros step2 Hs2 Hrange2.
    destruct (Hincr_success d name key step2 Hs2) as (d2 & E2 & _);
      [apply in_range_no_overflow; now rewrite Hnew | exact Hwd |].
    rewrite E2, Hnew. reflexivity.
Qed.

Lemma Hincr_then_read_witness :
  is_int64 5 /\
  0 <= HgetInt Examples.empty_db "counter" (Examples.b "cnt") + 5 <= scoreMax /\
  write_fault Examples.empty_db = None /\
  (forall k, read_fault Examples.empty_db k = None) /\
  snd (Hincr (fst (Hincr Examples.empty_db "counter" (Examples.b "cnt") 5))
         "counter" (Examples.b "cnt") (-2)) = (3, None).
Proof.
  assert (H5 : is_int64 5) by (unfold is_int64; lia).
  assert (Hr : 0 <= HgetInt Examples.empty_db "counter" (Examples.b "cnt") + 5
               <= scoreMax) by (vm_compute; split; discriminate).
  split; [exact H5|]. split; [exact Hr|]. split; [reflexivity|].
  split; [reflexivity|].
  destruct (Hincr_then_read Examples.empty_db "counter" (Examples.b "cnt") 5
              H5 Hr eq_refl (fun _ => eq_refl)) as (_ & _ & _ & H).
  apply (H (-2)); [unfold is_int64; lia | vm_compute; split; discriminate].
Defined.

End CounterReads.

(** ** More on the hashmap scans *)

Section HashmapScans.

(** The reply of any of the scan loops when the iterator reports no error
    and every kept entry can be cut. *)
Lemma scan_data (it : Iterator) (keep : bytes -> bool)
    (emit : bytes -> bytes -> option (list bytes)) (g : bytes * bytes -> Entry)
    (limit : Z) (walk : list (bytes * bytes)) :
  iter_err it = None ->
  (forall e, In e walk -> keep (fst e) = true ->
     emit (fst e) (snd e) = Some [Key (g e); Value (g e)]) ->
  let sel := take_limit limit 0 (filter (fun e => keep (fst e)) walk) in
  match scan_loop keep emit limit walk [] 0 with
  | None => None
  | Some res => Some (scan_reply it res)
  end
  = Some (mkReply (if 0 <? Z.of_nat (length sel) then replyOK else replyError)
            (flat_map (fun e => [Key (g e); Value (g e)]) sel)).
Proof.
  intros Hf Hemit sel.
  rewrite (scan_loop_spec keep emit limit
             (fun e => [Key (g e); Value (g e)]) walk Hemit [] 0).
  cbn zeta. rewrite scan_reply_ok by exact Hf. reflexivity.
Qed.

Lemma take_limit_empty {A : Type} (limit : Z) (l : list A) :
  take_limit limit 0 l = [] -> l = [].
Proof.
  unfold take_limit. destruct (Z.ltb_spec 0 limit) as [L|G]; [|auto].
  destruct l as [|x l]; [reflexivity|].
  replace (Z.to_nat (limit - 0)) with (S (Z.to_nat (limit - 1))) by lia.
  discriminate.
Qed.

(** With no iterator error [Hscan] misses nothing: when the limit does not
    bind, or fewer pairs than the limit came back, every stored member
    strictly greater than the start key is returned with its value; and a
    reply that is not ok means the bucket holds no such member. *)
Theorem Hscan_returns_all_above (db : DB) (name : string) (keyStart : bytes)
    (limit : Z) :
  iter_fault db = None ->
  exists r, Hscan db name keyStart limit = Some r /\
    (limit <= 0 \/ Z.of_nat (length (List r)) < limit ->
     forall m v, bytes_lt keyStart m ->
       In (bucket_prefix name ++ m, v) (tbl db) ->
       In (mkEntry m v) (List r)) /\
    (OK r = false ->
     forall m v, bytes_lt keyStart m ->
       ~ In (bucket_prefix name ++ m, v) (tbl db)).
Proof.
  intros Hf. rewrite (Hscan_data db name keyStart limit Hf). cbn zeta.
  set (p := bucket_prefix name).
  set (sel := forward_selection db p keyStart limit).
  eexists. split; [reflexivity|].
  unfold List. cbn [Data]. rewrite pairs_flat_map.
  assert (Hin : forall m v, bytes_lt keyStart m -> In (p ++ m, v) (tbl db) ->
            has_prefix p (p ++ m) = true /\
            bytes_lt (p ++ keyStart) (p ++ m)).
  { intros m v Hlt _. split; [apply has_prefix_app|].
    unfold bytes_lt. now rewrite bytes_compare_app. }
  split.
  - intros Hl m v Hlt Hm. rewrite length_map in Hl.
    destruct (Hin m v Hlt Hm) as [Hp Hk].
    apply in_map_iff. exists (p ++ m, v). split.
    + unfold strip. cbn [fst snd]. now rewrite skipn_prefix.
    + now apply forward_selection_complete.
  - intros Hok m v Hlt Hm.
    assert (Hsel : sel = []).
    { destruct sel as [|x l]; [reflexivity|].
      cbn [length] in Hok. unfold OK in Hok. cbn [State] in Hok.
      replace (0 <? Z.of_nat (S (length l))) with true in Hok
        by (symmetry; apply Z.ltb_lt; lia).
      discriminate Hok. }
    unfold sel, forward_selection in Hsel. apply take_limit_empty in Hsel.
    destruct (Hin m v Hlt Hm) as [Hp Hk]. apply bytes_ltb_lt in Hk.
    assert (Hi : In (p ++ m, v)
                   (filter (fun e => has_prefix p (fst e)
                                     && bytes_ltb (p ++ keyStart) (fst e))
                      (tbl db)))
      by (apply filter_In; split; [exact Hm | cbn [fst]; now rewrite Hp, Hk]).
    rewrite Hsel in Hi. contradiction.
Qed.

Lemma Hscan_returns_all_above_witness :
  iter_fault Examples.hash_db = None /\
  exists r, Hscan Examples.hash_db "h" (Examples.b "a") 0 = Some r /\
    In (mkEntry (Examples.b "ac") (Examples.b "v2")) (List r).
Proof.
  split; [reflexivity|].
  destruct (Hscan_returns_all_above Examples.hash_db "h" (Examples.b "a") 0 eq_refl)
    as (r & Hr & Hall & _).
  exists r. split; [exact Hr|].
  apply Hall; [left; lia | reflexivity |].
  vm_compute. right. right. right. now left.
Defined.

End HashmapScans.

(** ** Paging through a bucket *)

Section Pagination.

Lemma filter_all {A : Type} (f : A -> bool) (l : list A) :
  (forall x, In x l -> f x = true) -> filter f l = l.
Proof.
  induction l as [|x l IH]; intros H; cbn [filter]; [reflexivity|].
  rewrite (H x (or_introl eq_refl)). f_equal. apply IH.
  intros y Hy. apply H. now right.
Qed.

(** In an ordered list the entries strictly above an entry are those that
    follow it. *)
Lemma ordered_filter_after (a c : list (bytes * bytes)) (x : bytes * bytes) :
  ordered (a ++ x :: c) ->
  filter (fun e => bytes_ltb (fst x) (fst e)) (a ++ x :: c) = c.
Proof.
  induction a as [|y a IH]; cbn [app]; intros Ho.
  - cbn [filter].
    replace (bytes_ltb (fst x) (fst x)) with false
      by (symmetry; apply bytes_ltb_false_ge, bytes_lt_irrefl).
    apply filter_all. intros e He. apply bytes_ltb_lt.
    exact (ordered_head_lt _ _ Ho e He).
  - cbn [filter].
    assert (Hy : key_lt y x).
    { apply (ordered_head_lt _ _ Ho). apply in_or_app. right. now left. }
    replace (bytes_ltb (fst x) (fst y)) with false
      by (symmetry; apply bytes_ltb_false_ge; now apply bytes_lt_asym).
    apply IH. now apply ordered_tail in Ho.
Qed.

(** Paging loses and repeats nothing: when a page of [Hscan] ends with the
    member [last], the scan that starts after [last] returns exactly what
    the unlimited scan from the first start key returns after that page. *)
Theorem Hscan_next_page (db : DB) (name : string) (keyStart : bytes)
    (limit : Z) (r1 : Reply) (init : list Entry) (last : Entry) :
  ordered (tbl db) ->
  iter_fault db = None ->
  0 < limit ->
  Hscan db name keyStart limit = Some r1 ->
  List r1 = init ++ [last] ->
  exists r2 rall,
    Hscan db name (Key last) 0 = Some r2 /\
    Hscan db name keyStart 0 = Some rall /\
    List rall = List r1 ++ List r2.
Proof.
  intros Ho Hf Hl H1 Hlast.
  destruct (Hscan_selection db name keyStart limit) as (r1' & E1 & L1 & _).
  rewrite H1 in E1. injection E1 as <-. specialize (L1 Hf).
  destruct (Hscan_selection db name (Key last) 0) as (r2 & E2 & L2 & _).
  destruct (Hscan_selection db name keyStart 0) as (rall & Eall & Lall & _).
  specialize (L2 Hf). specialize (Lall Hf).
  exists r2, rall. split; [exact E2|]. split; [exact Eall|].
  rewrite Lall, L2, L1. rewrite L1 in Hlast. clear L1 L2 Lall E2 Eall H1.
  set (p := bucket_prefix name) in *.
  unfold forward_selection in *.
  set (full := filter (fun e => has_prefix p (fst e)
                                && bytes_ltb (p ++ keyStart) (fst e)) (tbl db)) in *.
  unfold take_limit in *.
  replace (0 <? limit) with true in Hlast |- * by (symmetry; apply Z.ltb_lt; lia).
  cbn [Z.ltb Z.compare].
  set (n := Z.to_nat (limit - 0)) in *.
  assert (Hfull : ordered full)
    by (unfold full, ordered; now apply StronglySorted_filter).
  (* the entry the last member was cut from *)
  assert (Hx : exists a x, firstn n full = a ++ [x] /\ strip (length p) x = last).
  { destruct (firstn n full) as [|y l] eqn:E.
    - destruct init; discriminate Hlast.
    - destruct (@exists_last _ (y :: l)) as (a & x & Ea); [discriminate|].
      exists a, x. split; [exact Ea|].
      rewrite Ea, map_app in Hlast. cbn [map] in Hlast.
      now apply app_inj_tail in Hlast as [_ ->]. }
  destruct Hx as (a & x & Hfirst & Hcut).
  assert (Hxin : In x full).
  { rewrite <- (firstn_skipn n full), Hfirst.
    apply in_or_app. left. apply in_or_app. right. now left. }
  unfold full in Hxin. apply filter_In in Hxin as [_ Hxb].
  apply andb_true_iff in Hxb as [Hxp Hxs].
  assert (Hkey : p ++ Key last = fst x).
  { rewrite <- Hcut. unfold strip. cbn [Key]. symmetry.
    now apply has_prefix_split. }
  rewrite Hkey.
  assert (Hrest : filter (fun e => has_prefix p (fst e)
                                   && bytes_ltb (fst x) (fst e)) (tbl db)
                  = skipn n full).
  { transitivity (filter (fun e => bytes_ltb (fst x) (fst e)) full).
    - unfold full. rewrite filter_filter. apply filter_ext. intros e.
      destruct (has_prefix p (fst e)); cbn [andb]; [|reflexivity].
      destruct (bytes_ltb (fst x) (fst e)) eqn:E; [|now rewrite andb_false_r].
      rewrite andb_true_r. symmetry. apply bytes_ltb_lt.
      apply bytes_ltb_lt in Hxs, E. eapply bytes_lt_trans; eassumption.
    - rewrite <- (firstn_skipn n full) at 1. rewrite Hfirst, <- app_assoc.
      cbn [app]. apply ordered_filter_after.
      replace (a ++ x :: skipn n full) with ((a ++ [x]) ++ skipn n full)
        by now rewrite <- app_assoc.
      now rewrite <- Hfirst, firstn_skipn. }
  rewrite Hrest, <- map_app, firstn_skipn. reflexivity.
Qed.

Lemma Hscan_next_page_witness :
  ordered (tbl Examples.hash_db) /\ iter_fault Examples.hash_db = None /\ 0 < 2 /\
  exists r1 r2 rall,
    Hscan Examples.hash_db "h" [] 2 = Some r1 /\
    Hscan Examples.hash_db "h" (Examples.b "ab") 0 = Some r2 /\
    Hscan Examples.hash_db "h" [] 0 = Some rall /\
    List rall = List r1 ++ List r2.
Proof.
  split; [exact hash_db_ordered|]. split; [reflexivity|]. split; [lia|].
  assert (E : Hscan Examples.hash_db "h" [] 2
              = Some (mkReply replyOK [Examples.b "a"; Examples.b "v3";
                                       Examples.b "ab"; Examples.b "v0"]))
    by (vm_compute; reflexivity).
  destruct (Hscan_next_page Examples.hash_db "h" [] 2 _
              [mkEntry (Examples.b "a") (Examples.b "v3")]
              (mkEntry (Examples.b "ab") (Examples.b "v0"))
              hash_db_ordered eq_refl ltac:(lia) E eq_refl)
    as (r2 & rall & H2 & Hall & Hcat).
  eexists. exists r2, rall. split; [exact E|]. repeat split; assumption.
Defined.

End Pagination.

(** ** The reverse scan from the end of a bucket *)

Section ReverseFromEnd.

Lemma Hrscan_unfold_empty (db : DB) (name : string) (limit : Z) :
  let p := bucket_prefix name in
  let it := NewIterator db (BytesPrefix p) in
  Hrscan db name [] limit =
    match scan_loop (fun _ => true) (emit_kv (length p)) limit (backward it) [] 0 with
    | None => None
    | Some res => Some (scan_reply it res)
    end.
Proof.
  cbn zeta. unfold Hrscan. fold (bucket_prefix name).
  rewrite Bconcat2, app_nil_r, Nat.ltb_irrefl. reflexivity.
Qed.

Lemma Hrscan_empty_selection (db : DB) (name : string) (limit : Z) :
  let p := bucket_prefix name in
  exists r, Hrscan db name [] limit = Some r /\
    (iter_fault db = None ->
       List r = map (strip (length p))
                  (take_limit limit 0
                     (rev (filter (fun e => has_prefix p (fst e)) (tbl db))))) /\
    (forall msg, iter_fault db = Some msg -> r = mkReply msg []).
Proof.
  intros p. rewrite Hrscan_unfold_empty. cbn zeta. fold p.
  set (it := NewIterator db (BytesPrefix p)).
  pose (f := fun e : bytes * bytes =>
               [Key (strip (length p) e); Value (strip (length p) e)]).
  assert (Hw : forall e, In e (backward it) -> true = true ->
             emit_kv (length p) (fst e) (snd e) = Some (f e)).
  { intros [k v] He _. unfold backward, it, NewIterator in He. cbn [items] in He.
    apply in_rev, filter_In in He as [_ Hr]. cbn [fst snd] in *.
    rewrite in_range_BytesPrefix in Hr. now apply emit_kv_prefix. }
  rewrite (scan_loop_spec (fun _ => true) (emit_kv (length p)) limit f
             (backward it) Hw [] 0).
  cbn zeta. rewrite filter_true. cbn [app].
  eexists. split; [reflexivity|]. split.
  - intros Hf. rewrite scan_reply_ok by exact Hf. unfold List. cbn [Data].
    unfold f. rewrite pairs_flat_map. unfold backward, it, NewIterator.
    cbn [items]. do 3 f_equal. apply filter_ext. intros e.
    apply in_range_BytesPrefix.
  - intros msg Hf. now apply scan_reply_fault.
Qed.

(** With an empty start key [Hrscan] walks the bucket from its greatest
    member down: every returned pair is a stored member of the bucket with
    its value, in strictly descending order; when the limit does not bind
    every member comes back, the empty member included; and when the bucket
    holds no empty member the unlimited reverse scan is the unlimited
    forward scan read backwards. *)
Theorem Hrscan_from_end (db : DB) (name : string) (limit : Z) :
  ordered (tbl db) ->
  exists r, Hrscan db name [] limit = Some r /\
    (forall e, In e (List r) ->
       In (bucket_prefix name ++ Key e, Value e) (tbl db)) /\
    StronglySorted (fun a c => bytes_lt c a) (map Key (List r)) /\
    (iter_fault db = None ->
     limit <= 0 \/ Z.of_nat (length (List r)) < limit ->
     forall m v, In (bucket_prefix name ++ m, v) (tbl db) ->
       In (mkEntry m v) (List r)) /\
    (iter_fault db = None -> limit <= 0 ->
     tbl_get (bucket_prefix name) (tbl db) = None ->
     forall limit' rf, limit' <= 0 -> Hscan db name [] limit' = Some rf ->
       List r = rev (List rf)).
Proof.
  intros Ho. destruct (Hrscan_empty_selection db name limit) as (r & Hr & Hok & Hfault).
  cbn zeta in Hok. set (p := bucket_prefix name) in *.
  exists r. split; [exact Hr|].
  destruct (iter_fault db) as [msg|] eqn:Ef.
  - rewrite (Hfault msg eq_refl). unfold List. cbn [Data pairs map In].
    repeat split; try contradiction; try constructor; try discriminate.
  - specialize (Hok eq_refl). rewrite Hok.
    set (bucket := filter (fun e => has_prefix p (fst e)) (tbl db)) in *.
    assert (Hb : forall e, In e (take_limit limit 0 (rev bucket)) ->
              In e (tbl db) /\ has_prefix p (fst e) = true).
    { intros e He. apply take_limit_In, in_rev in He.
      now apply filter_In in He. }
    split; [|split; [|split]].
    + intros e He. apply in_map_iff in He as ([k v] & <- & Hx).
      apply Hb in Hx as [Hin Hp]. cbn [fst] in Hp.
      apply has_prefix_split in Hp. unfold strip. cbn [Key Value fst snd].
      now rewrite <- Hp.
    + rewrite map_map.
      apply (StronglySorted_map (fun x y => key_lt y x)).
      * intros x y Hx Hy. unfold key_lt, strip. cbn [Key].
        apply Hb in Hx as [_ Hx]. apply Hb in Hy as [_ Hy].
        apply has_prefix_split in Hx. apply has_prefix_split in Hy.
        rewrite Hx, Hy at 1. unfold bytes_lt. now rewrite bytes_compare_app.
      * apply StronglySorted_take_limit, StronglySorted_rev.
        unfold bucket. now apply StronglySorted_filter.
    + intros _ Hl m v Hin. rewrite length_map in Hl.
      rewrite take_limit_all by exact Hl.
      apply in_map_iff. exists (p ++ m, v). split.
      * unfold strip. cbn [fst snd]. now rewrite skipn_prefix.
      * apply in_rev. rewrite rev_involutive. apply filter_In.
        split; [exact Hin|]. cbn [fst]. apply has_prefix_app.
    + intros _ Hl Hnone limit' rf Hl' Hrf.
      destruct (Hscan_selection db name [] limit') as (rf' & E & Lf & _).
      rewrite Hrf in E. injection E as <-. rewrite (Lf Ef). fold p.
      unfold forward_selection.
      rewrite !take_limit_all by (left; assumption).
      rewrite <- map_rev. do 2 f_equal. unfold bucket.
      apply filter_ext_in. intros [k v] Hin. cbn [fst].
      destruct (has_prefix p k) eqn:Hp; cbn [andb]; [|reflexivity].
      apply has_prefix_spec in Hp as [m ->].
      symmetry. apply bytes_ltb_lt. unfold bytes_lt. rewrite bytes_compare_app.
      destruct m; [|reflexivity].
      exfalso. rewrite app_nil_r in Hin. now apply In_tbl_get_some in Hin.
Qed.

Lemma Hrscan_from_end_witness :
  ordered (tbl Examples.hash_db) /\
  exists r rf, Hrscan Examples.hash_db "h" [] 0 = Some r /\
    Hscan Examples.hash_db "h" [] 0 = Some rf /\
    List r = rev (List rf).
Proof.
  split; [exact hash_db_ordered|].
  destruct (Hrscan_from_end Examples.hash_db "h" 0 hash_db_ordered)
    as (r & Hr & _ & _ & _ & Hm).
  assert (E : exists rf, Hscan Examples.hash_db "h" [] 0 = Some rf)
    by (eexists; vm_compute; reflexivity).
  destruct E as [rf Hrf]. exists r, rf. split; [exact Hr|]. split; [exact Hrf|].
  apply (Hm eq_refl ltac:(lia) eq_refl 0 rf ltac:(lia) Hrf).
Defined.

End ReverseFromEnd.

(** ** Point operations of the sorted set *)

Section ZsetPoint.

Lemma Zget_table (db : DB) (name : string) (key : bytes) :
  read_fault db (direct_key name key) = None ->
  Zget db name key
  = match tbl_get (direct_key name key) (tbl db) with
    | Some v => BytesToUint64 v
    | None => 0
    end.
Proof.
  intros Hr. unfold Zget, db_Get. fold (direct_key name key). rewrite Hr.
  now destruct (tbl_get (direct_key name key) (tbl db)).
Qed.

Lemma ZhasKey_table (db : DB) (name : string) (key : bytes) :
  read_fault db (direct_key name key) = None ->
  ZhasKey db name key
  = match tbl_get (direct_key name key) (tbl db) with
    | Some _ => true
    | None => false
    end.
Proof.
  intros Hr. unfold ZhasKey, db_Has. fold (direct_key name key). rewrite Hr.
  now destruct (tbl_get (direct_key name key) (tbl db)).
Qed.

(** The table [Zset] leaves: untouched when the stored score is the new
    one, else the three records of its batch applied. *)
Lemma Zset_table (db : DB) (name : string) (key : bytes) (val : Z) :
  write_fault db = None ->
  read_fault db (direct_key name key) = None ->
  let old := match tbl_get (direct_key name key) (tbl db) with
             | Some s => s | None => [] end in
  Zset db name key val
  = if bytes_Equal old (Uint64ToBytes val) then (db, None)
    else db_Write db [BPut (direct_key name key) (Uint64ToBytes val);
                      BPut (order_key name (Uint64ToBytes val) key) [];
                      BDelete (order_key name old key)].
Proof.
  intros Hw Hr old. unfold Zset.
  fold (direct_key name key). fold (order_key name (Uint64ToBytes val) key).
  rewrite (old_score db _ Hr). fold old. fold (order_key name old key).
  now destruct (bytes_Equal old (Uint64ToBytes val)).
Qed.

Lemma Zset_direct_entry (db : DB) (name : string) (key : bytes) (val : Z) :
  write_fault db = None ->
  read_fault db (direct_key name key) = None ->
  tbl_get (direct_key name key) (tbl (fst (Zset db name key val)))
  = Some (Uint64ToBytes val).
Proof.
  intros Hw Hr. rewrite (Zset_table db name key val Hw Hr). cbn zeta.
  destruct (bytes_Equal _ (Uint64ToBytes val)) eqn:E.
  - apply bytes_Equal_true in E. cbn [fst].
    destruct (tbl_get (direct_key name key) (tbl db)); [now rewrite E|].
    discriminate E.
  - rewrite (db_Write_ok db _ Hw). cbn [fst tbl apply_batch fold_left apply_op].
    rewrite tbl_get_del, tbl_get_put, tbl_get_put. distinct_keys.
    now rewrite bytes_Equal_refl.
Qed.

Lemma Zset_faults (db : DB) (name : string) (key : bytes) (val : Z) :
  let db' := fst (Zset db name key val) in
  read_fault db' = read_fault db /\ write_fault db' = write_fault db.
Proof.
  unfold Zset. destruct (negb _); [|now split].
  unfold db_Write. destruct (write_fault db) eqn:E; cbn [fst]; now split.
Qed.

(** After [Zset] the member's score reads back and [ZhasKey] holds.  When
    the member already has that score nothing is written; otherwise one
    batch is submitted and the order-index entry of the new score is
    there while the key of the old score is not. *)
Theorem Zset_then_Zget (db : DB) (name : string) (key : bytes) (val : Z) :
  is_uint64 val ->
  write_fault db = None ->
  (forall k, read_fault db k = None) ->
  let db' := fst (Zset db name key val) in
  let old := match tbl_get (direct_key name key) (tbl db) with
             | Some s => s | None => [] end in
  snd (Zset db name key val) = None /\
  Zget db' name key = val /\
  ZhasKey db' name key = true /\
  (old = Uint64ToBytes val -> db' = db) /\
  (old <> Uint64ToBytes val ->
     length (written db') = S (length (written db)) /\
     tbl_get (order_key name (Uint64ToBytes val) key) (tbl db') = Some [] /\
     tbl_get (order_key name old key) (tbl db') = None).
Proof.
  intros Hv Hw Hr db' old.
  pose proof (Zset_direct_entry db name key val Hw (Hr _)) as Hd.
  destruct (Zset_faults db name key val) as [Hrf _]. fold db' in Hd, Hrf.
  assert (Hr' : forall k, read_fault db' k = None)
    by (intros k; rewrite Hrf; apply Hr).
  split.
  - rewrite (Zset_table db name key val Hw (Hr _)). cbn zeta.
    destruct (bytes_Equal _ _); [reflexivity|].
    now rewrite (db_Write_ok db _ Hw).
  - split; [|split; [|split]].
    + rewrite Zget_table by apply Hr'. rewrite Hd.
      now apply BytesToUint64_Uint64ToBytes.
    + rewrite ZhasKey_table by apply Hr'. now rewrite Hd.
    + intros E. unfold db'. rewrite (Zset_table db name key val Hw (Hr _)).
      cbn zeta. fold old. rewrite E, bytes_Equal_refl. reflexivity.
    + intros Hne. unfold db'. rewrite (Zset_table db name key val Hw (Hr _)).
      cbn zeta. fold old. rewrite (bytes_Equal_false _ _ Hne).
      rewrite (db_Write_ok db _ Hw).
      cbn [fst tbl written apply_batch fold_left apply_op].
      split; [rewrite length_app; cbn [length]; lia|].
      assert (Hon : order_key name (Uint64ToBytes val) key <> order_key name old key)
        by (intros E; apply order_key_score_inj in E; congruence).
      split.
      * rewrite tbl_get_del, tbl_get_put.
        now rewrite (bytes_Equal_false _ _ Hon), bytes_Equal_refl.
      * apply tbl_get_del_same.
Qed.

Lemma Zset_then_Zget_witness :
  is_uint64 100 /\
  write_fault Examples.empty_db = None /\
  (forall k, read_fault Examples.empty_db k = None) /\
  Zget (fst (Zset Examples.empty_db "myzset" (Examples.b "member1") 100)) "myzset"
       (Examples.b "member1") = 100.
Proof.
  assert (H : is_uint64 100) by (unfold is_uint64, scoreMax; lia).
  split; [exact H|]. split; [reflexivity|]. split; [reflexivity|].
  apply (Zset_then_Zget Examples.empty_db "myzset" (Examples.b "member1") 100
           H eq_refl (fun _ => eq_refl)).
Defined.

(** On a store whose two indices agree, [Zset] with a clean name and member
    leaves them in agreement, and the member has the order-index entry of
    the new score and of no other 8-byte score. *)
Theorem Zset_single_order_entry (db : DB) (name : string) (key : bytes) (val : Z) :
  clean (StringToBytesNoCopy name) -> clean key ->
  write_fault db = None ->
  read_fault db (direct_key name key) = None ->
  zset_indexed (tbl db) ->
  let t' := tbl (fst (Zset db name key val)) in
  zset_indexed t' /\
  tbl_get (direct_key name key) t' = Some (Uint64ToBytes val) /\
  tbl_get (order_key name (Uint64ToBytes val) key) t' <> None /\
  (forall s', length s' = scoreByteLen ->
     tbl_get (order_key name s' key) t' <> None -> s' = Uint64ToBytes val).
Proof.
  intros Hn Hk Hw Hr Hinv t'.
  pose proof (Zset_keeps_indices db name key val Hn Hk Hr Hinv) as Hinv'.
  pose proof (Zset_direct_entry db name key val Hw Hr) as Hd.
  fold t' in Hinv', Hd.
  destruct (zset_indexed_consistent t' name key _ Hinv' Hn Hd) as [H1 H2].
  split; [exact Hinv'|]. split; [exact Hd|]. split; [exact H1 | exact H2].
Qed.

Lemma clean_ascii (s : string) :
  forallb (fun c => negb (Byte.eqb c x1c)) (StringToBytesNoCopy s) = true ->
  clean (StringToBytesNoCopy s).
Proof.
  unfold clean. intros H Hin. rewrite forallb_forall in H.
  specialize (H _ Hin). discriminate H.
Qed.

Lemma Zset_single_order_entry_witness :
  clean (StringToBytesNoCopy "z") /\ clean (Examples.b "m1") /\
  write_fault Examples.zset_db = None /\
  read_fault Examples.zset_db (direct_key "z" (Examples.b "m1")) = None /\
  zset_indexed (tbl Examples.zset_db) /\
  forall s', length s' = scoreByteLen ->
    tbl_get (order_key "z" s' (Examples.b "m1"))
      (tbl (fst (Zset Examples.zset_db "z" (Examples.b "m1") 7))) <> None ->
    s' = Uint64ToBytes 7.
Proof.
  assert (Hn : clean (StringToBytesNoCopy "z")) by (now apply clean_ascii).
  assert (Hk : clean (Examples.b "m1")) by (now apply (clean_ascii "m1")).
  split; [exact Hn|]. split; [exact Hk|]. split; [reflexivity|].
  split; [reflexivity|]. split; [exact zset_db_indexed|].
  apply (Zset_single_order_entry Examples.zset_db "z" (Examples.b "m1") 7
           Hn Hk eq_refl eq_refl zset_db_indexed).
Defined.

End ZsetPoint.

(** ** Deleting and incrementing a sorted-set member *)

Section ZsetDelIncr.

(** [Zdel] of a member that has no score fails with the store's not-found
    error and writes nothing; of a member that has one, it removes the
    direct-index entry and the order-index entry of that score in one
    batch, so the member reads as absent, and indices that agreed still
    agree. *)
Theorem Zdel_removes_member (db : DB) (name : string) (key : bytes) :
  (forall k, read_fault db k = None) ->
  (tbl_get (direct_key name key) (tbl db) = None ->
     Zdel db name key = (db, Some ErrNotFound)) /\
  (forall old, tbl_get (direct_key name key) (tbl db) = Some old ->
     write_fault db = None ->
     let db' := fst (Zdel db name key) in
     snd (Zdel db name key) = None /\
     written db' = written db ++ [[BDelete (direct_key name key);
                                   BDelete (order_key name old key)]] /\
     Zget db' name key = 0 /\
     ZhasKey db' name key = false /\
     tbl_get (order_key name old key) (tbl db') = None /\
     (clean (StringToBytesNoCopy name) -> zset_indexed (tbl db) ->
        zset_indexed (tbl db'))).
Proof.
  intros Hr. split.
  - intros Hnone. unfold Zdel, db_Get. fold (direct_key name key).
    now rewrite Hr, Hnone.
  - intros old Hold Hw db'.
    assert (E : Zdel db name key
                = db_Write db [BDelete (direct_key name key);
                               BDelete (order_key name old key)]).
    { unfold Zdel, db_Get. fold (direct_key name key). now rewrite Hr, Hold. }
    pose proof (Zdel_keeps_indices db name key) as Hkeep. fold db' in Hkeep.
    unfold db' in *. rewrite E in *. rewrite (db_Write_ok db _ Hw) in *.
    cbn [fst snd written] in *.
    split; [reflexivity|]. split; [reflexivity|].
    rewrite Zget_table, ZhasKey_table by apply Hr.
    cbn [tbl apply_batch fold_left apply_op] in *.
    rewrite !tbl_get_del. distinct_keys. rewrite !bytes_Equal_refl.
    split; [reflexivity|]. split; [reflexivity|]. split; [reflexivity|].
    exact Hkeep.
Qed.

Lemma Zdel_removes_member_witness :
  (forall k, read_fault Examples.zset_db k = None) /\
  Zdel Examples.zset_db "z" (Examples.b "nobody") = (Examples.zset_db, Some ErrNotFound) /\
  Zget (fst (Zdel Examples.zset_db "z" (Examples.b "m1"))) "z" (Examples.b "m1") = 0.
Proof.
  split; [reflexivity|].
  destruct (Zdel_removes_member Examples.zset_db "z" (Examples.b "nobody")
              (fun _ => eq_refl)) as [Hmiss _].
  destruct (Zdel_removes_member Examples.zset_db "z" (Examples.b "m1")
              (fun _ => eq_refl)) as [_ Hthere].
  split; [apply Hmiss; reflexivity|].
  destruct (Hthere (Uint64ToBytes 100)) as (_ & _ & Hz & _);
    [reflexivity | reflexivity | exact Hz].
Defined.

Lemma Zget_range (db : DB) (name : string) (key : bytes) :
  is_uint64 (Zget db name key).
Proof.
  unfold Zget. destruct (db_Get db _) as [val [e|]];
    [unfold is_uint64, scoreMax; lia | apply BytesToUint64_range].
Qed.

(** What [Zincr] does once its arithmetic is resolved. *)
Lemma Zincr_unfold (db : DB) (name : string) (key : bytes) (step : Z) :
  is_int64 step ->
  let cur := Zget db name key in
  Zincr db name key step
  = if ((0 <? step) && (scoreMax <? cur + step))
       || ((step <=? 0) && (cur <? Z.abs step))
    then (db, (0, Some overflow))
    else
      match db_Write db
              [BPut (direct_key name key) (Uint64ToBytes (cur + step));
               BPut (order_key name (Uint64ToBytes (cur + step)) key) [];
               BDelete (order_key name (Uint64ToBytes cur) key)] with
      | (db', Some err) => (db', (0, Some err))
      | (db', None) => (db', (cur + step, None))
      end.
Proof.
  intros Hs cur. unfold Zincr. fold cur.
  rewrite (incr_num_spec cur step (Zget_range db name key) Hs).
  now destruct (_ || _)%bool.
Qed.

(** [Zincr] has the overflow policy of [Hincr]: it fails, writing nothing,
    when the score plus the step leaves [0, 2^64 - 1]; otherwise it returns
    the new score, which [Zget] reads afterwards, and for a step other than
    0 the order-index entry of the new score is there, the key of the old
    score is not, and indices that agreed still agree. *)
Theorem Zincr_moves_score (db : DB) (name : string) (key : bytes) (step : Z) :
  is_int64 step ->
  (forall k, read_fault db k = None) ->
  let cur := Zget db name key in
  let db' := fst (Zincr db name key step) in
  (~ 0 <= cur + step <= scoreMax ->
     Zincr db name key step = (db, (0, Some overflow))) /\
  (0 <= cur + step <= scoreMax -> write_fault db = None ->
     snd (Zincr db name key step) = (cur + step, None) /\
     Zget db' name key = cur + step /\
     (step <> 0 ->
        tbl_get (order_key name (Uint64ToBytes (cur + step)) key) (tbl db')
        = Some [] /\
        tbl_get (order_key name (Uint64ToBytes cur) key) (tbl db') = None /\
        (clean (StringToBytesNoCopy name) -> zset_indexed (tbl db) ->
           zset_indexed (tbl db')))).
Proof.
  intros Hs Hr cur db'.
  pose proof (Zget_range db name key) as Hc. fold cur in Hc.
  assert (Hs' := Hs). unfold is_int64 in Hs'. unfold is_uint64 in Hc.
  split.
  - intros Hout. rewrite (Zincr_unfold db name key step Hs). cbn zeta. fold cur.
    replace (_ || _)%bool with true; [reflexivity|].
    symmetry. apply orb_true_iff.
    destruct (Z.ltb_spec 0 step) as [L|G]; [left|right];
      apply andb_true_iff; rewrite ?Z.ltb_lt, ?Z.leb_le; lia.
  - intros Hin Hw.
    pose proof (Zincr_keeps_indices db name key step) as Hkeep. fold db' in Hkeep.
    unfold db' in *. rewrite (Zincr_unfold db name key step Hs) in *.
    cbn zeta in *. fold cur in Hkeep |- *.
    replace (_ || _)%bool with false in *
      by (symmetry; apply orb_false_iff; split; apply andb_false_iff;
          [destruct (Z.ltb_spec 0 step); [right; apply Z.ltb_ge; lia | now left]
          |destruct (Z.leb_spec step 0); [right; apply Z.ltb_ge; lia | now left]]).
    rewrite (db_Write_ok db _ Hw) in *. cbn [fst snd] in *.
    split; [reflexivity|].
    rewrite Zget_table by apply Hr.
    cbn [tbl apply_batch fold_left apply_op] in *.
    split.
    + rewrite tbl_get_del, tbl_get_put, tbl_get_put. distinct_keys.
      rewrite bytes_Equal_refl. now apply BytesToUint64_Uint64ToBytes.
    + intros Hstep.
      assert (Hon : order_key name (Uint64ToBytes (cur + step)) key
                    <> order_key name (Uint64ToBytes cur) key).
      { intros E. apply order_key_score_inj, Uint64ToBytes_inj in E;
          unfold is_uint64; lia. }
      split; [|split].
      * rewrite tbl_get_del, tbl_get_put.
        now rewrite (bytes_Equal_false _ _ Hon), bytes_Equal_refl.
      * apply tbl_get_del_same.
      * intros Hn Hinv. now apply Hkeep.
Qed.

Lemma Zincr_moves_score_witness :
  is_int64 (-30) /\
  (forall k, read_fault Examples.zset_db k = None) /\
  snd (Zincr Examples.zset_db "z" (Examples.b "m1") (-30)) = (70, None) /\
  Zincr Examples.zset_db "z" (Examples.b "m2") (-51)
  = (Examples.zset_db, (0, Some overflow)).
Proof.
  assert (H1 : is_int64 (-30)) by (unfold is_int64; lia).
  assert (H2 : is_int64 (-51)) by (unfold is_int64; lia).
  split; [exact H1|]. split; [reflexivity|].
  destruct (Zincr_moves_score Examples.zset_db "z" (Examples.b "m1") (-30) H1
              (fun _ => eq_refl)) as [_ Hok].
  destruct (Zincr_moves_score Examples.zset_db "z" (Examples.b "m2") (-51) H2
              (fun _ => eq_refl)) as [Hover _].
  split.
  - destruct Hok as [E _]; [vm_compute; split; discriminate | reflexivity|].
    exact E.
  - apply Hover. vm_compute. intros [H _]. now apply H.
Defined.

(** [Zincr] with the step 0 succeeds and returns the score unchanged, but
    its batch puts the order-index entry of that score and then deletes the
    same key: afterwards the member is in the direct index, created at 0 if
    it was absent, and has no order-index entry of its score. *)
Theorem Zincr_zero_loses_order_entry (db : DB) (name : string) (key : bytes) :
  write_fault db = None ->
  (forall k, read_fault db k = None) ->
  let cur := Zget db name key in
  let db' := fst (Zincr db name key 0) in
  snd (Zincr db name key 0) = (cur, None) /\
  tbl_get (direct_key name key) (tbl db') = Some (Uint64ToBytes cur) /\
  ZhasKey db' name key = true /\
  tbl_get (order_key name (Uint64ToBytes cur) key) (tbl db') = None.
Proof.
  intros Hw Hr cur db'.
  assert (H0 : is_int64 0) by (unfold is_int64; lia).
  pose proof (Zget_range db name key) as Hc. fold cur in Hc. unfold is_uint64 in Hc.
  unfold db'. rewrite (Zincr_unfold db name key 0 H0). cbn zeta. fold cur.
  replace (_ || _)%bool with false
    by (symmetry; apply orb_false_iff; split; apply andb_false_iff;
        [now left | right; apply Z.ltb_ge; lia]).
  rewrite Z.add_0_r, (db_Write_ok db _ Hw). cbn [fst snd].
  split; [reflexivity|].
  rewrite ZhasKey_table by apply Hr.
  cbn [tbl apply_batch fold_left apply_op].
  rewrite !tbl_get_del, !tbl_get_put. distinct_keys.
  rewrite !bytes_Equal_refl. repeat split.
Qed.

Lemma Zincr_zero_loses_order_entry_witness :
  write_fault Examples.zset_db = None /\
  (forall k, read_fault Examples.zset_db k = None) /\
  tbl_get (order_key "z" (Uint64ToBytes 50) (Examples.b "m2"))
    (tbl (fst (Zincr Examples.zset_db "z" (Examples.b "m2") 0))) = None.
Proof.
  split; [reflexivity|]. split; [reflexivity|].
  apply (Zincr_zero_loses_order_entry Examples.zset_db "z" (Examples.b "m2")
           eq_refl (fun _ => eq_refl)).
Defined.

End ZsetDelIncr.

(** ** Batched deletes of the sorted set *)

Section ZsetBatchDelete.

Lemma direct_key_member_inj (name : string) (m m' : bytes) :
  direct_key name m = direct_key name m' -> m = m'.
Proof.
  rewrite !direct_key_eq. intros E. injection E as E.
  apply app_inv_head in E. now injection E.
Qed.

(** The keys [Zmdel] deletes: for each listed member that reads with a
    score, its direct-index key and the order-index key of that score. *)
Lemma Zmdel_batch_keys (db : DB) (name : string) (keys : list bytes) :
  (forall k, read_fault db k = None) ->
  Zmdel_batch db
    (Bconcat [zetScorePrefix; StringToBytesNoCopy name; splitChar])
    (Bconcat [zetKeyPrefix; StringToBytesNoCopy name; splitChar]) keys
  = map BDelete
      (flat_map (fun key =>
                   match tbl_get (direct_key name key) (tbl db) with
                   | Some old => [direct_key name key; order_key name old key]
                   | None => []
                   end) keys).
Proof.
  intros Hr. induction keys as [|key keys IH]; [reflexivity|].
  cbn [Zmdel_batch flat_map].
  destruct (Zmset_keys name key []) as [-> _].
  unfold db_Get. rewrite Hr.
  destruct (tbl_get (direct_key name key) (tbl db)) as [old|]; [|exact IH].
  destruct (Zmset_keys name key old) as [_ ->].
  cbn [app map]. now rewrite IH.
Qed.

(** After a successful [Zmdel] no listed member has a score, the members
    that had none are passed over without an error, every member that is
    not listed keeps its score, and indices that agreed still agree. *)
Theorem Zmdel_removes_listed (db : DB) (name : string) (keys : list bytes) :
  write_fault db = None ->
  (forall k, read_fault db k = None) ->
  let db' := fst (Zmdel db name keys) in
  snd (Zmdel db name keys) = None /\
  (forall key, In key keys ->
     ZhasKey db' name key = false /\ Zget db' name key = 0) /\
  (forall m, ~ In m keys ->
     tbl_get (direct_key name m) (tbl db')
     = tbl_get (direct_key name m) (tbl db)) /\
  (clean (StringToBytesNoCopy name) -> zset_indexed (tbl db) ->
     zset_indexed (tbl db')).
Proof.
  intros Hw Hr db'.
  pose proof (Zmdel_keeps_indices db name keys) as Hkeep. fold db' in Hkeep.
  assert (Ht : forall K,
            tbl_get K (tbl db')
            = if existsb (bytes_Equal K)
                   (flat_map (fun key =>
                      match tbl_get (direct_key name key) (tbl db) with
                      | Some old => [direct_key name key; order_key name old key]
                      | None => []
                      end) keys)
              then None else tbl_get K (tbl db)).
  { intros K. unfold db', Zmdel. rewrite (Zmdel_batch_keys db name keys Hr).
    rewrite (db_Write_ok db _ Hw). cbn [fst tbl]. apply apply_deletes_get. }
  assert (Hrf : forall k, read_fault db' k = None).
  { intros k. unfold db', Zmdel. rewrite (db_Write_ok db _ Hw).
    cbn [fst read_fault]. apply Hr. }
  split; [unfold Zmdel; now rewrite (db_Write_ok db _ Hw)|].
  split; [|split; [|exact Hkeep]].
  - intros key Hin.
    assert (Hnone : tbl_get (direct_key name key) (tbl db') = None).
    { rewrite Ht. destruct (existsb _ _) eqn:Ee; [reflexivity|].
      destruct (tbl_get (direct_key name key) (tbl db)) as [old|] eqn:Eo;
        [|reflexivity].
      exfalso.
      assert (Hex : existsb (bytes_Equal (direct_key name key))
                      (flat_map (fun key =>
                         match tbl_get (direct_key name key) (tbl db) with
                         | Some old => [direct_key name key; order_key name old key]
                         | None => []
                         end) keys) = true).
      { apply existsb_exists. exists (direct_key name key).
        split; [|apply bytes_Equal_refl].
        apply in_flat_map. exists key. split; [exact Hin|].
        rewrite Eo. now left. }
      congruence. }
    rewrite ZhasKey_table, Zget_table by apply Hrf. now rewrite Hnone.
  - intros m Hm. rewrite Ht.
    replace (existsb _ _) with false; [reflexivity|].
    symmetry. apply not_true_is_false. intros E.
    apply existsb_exists in E as (K & HK & E).
    apply bytes_Equal_true in E. subst K.
    apply in_flat_map in HK as (key & Hin & HK).
    destruct (tbl_get (direct_key name key) (tbl db)) as [old|]; [|contradiction].
    destruct HK as [HK|[HK|[]]].
    + symmetry in HK. apply direct_key_member_inj in HK. congruence.
    + symmetry in HK. now apply direct_order_distinct in HK.
Qed.

Lemma Zmdel_removes_listed_witness :
  write_fault Examples.zset_db = None /\
  (forall k, read_fault Examples.zset_db k = None) /\
  ZhasKey (fst (Zmdel Examples.zset_db "z" [Examples.b "nobody"; Examples.b "m2"]))
    "z" (Examples.b "m2") = false.
Proof.
  split; [reflexivity|]. split; [reflexivity|].
  destruct (Zmdel_removes_listed Examples.zset_db "z"
              [Examples.b "nobody"; Examples.b "m2"] eq_refl (fun _ => eq_refl))
    as (_ & H & _).
  apply H. right. now left.
Defined.

(** Deleting the keys two iterators over the prefixes [p1] and [p2] yield
    leaves nothing under either prefix and everything else as it was. *)
Lemma delete_two_prefixes_get (p1 p2 : bytes) (t : table) (K : bytes) :
  tbl_get K
    (apply_batch
       (map (fun e => BDelete (fst e))
            (filter (fun e => in_range (BytesPrefix p1) (fst e)) t)
        ++ map (fun e => BDelete (fst e))
             (filter (fun e => in_range (BytesPrefix p2) (fst e)) t)) t)
  = if has_prefix p1 K || has_prefix p2 K then None else tbl_get K t.
Proof.
  rewrite apply_batch_app.
  rewrite <- (map_map fst BDelete
                (filter (fun e => in_range (BytesPrefix p2) (fst e)) t)).
  rewrite apply_deletes_get, delete_prefix_get.
  destruct (has_prefix p1 K); cbn [orb];
    [now destruct (existsb _ _)|].
  destruct (existsb (bytes_Equal K) _) eqn:Ee.
  - apply existsb_exists in Ee as (K' & HK' & E).
    apply bytes_Equal_true in E. subst K'.
    apply in_map_iff in HK' as ([k v] & <- & Hin).
    apply filter_In in Hin as [_ Hr]. cbn [fst] in *.
    rewrite in_range_BytesPrefix in Hr. now rewrite Hr.
  - destruct (has_prefix p2 K) eqn:Hp; [|reflexivity].
    destruct (tbl_get K t) as [v|] eqn:Eg; [|reflexivity].
    exfalso. apply tbl_get_In in Eg.
    assert (Ht : existsb (bytes_Equal K)
                   (map fst (filter (fun e => in_range (BytesPrefix p2) (fst e)) t))
                 = true).
    { apply existsb_exists. exists K. split; [|apply bytes_Equal_refl].
      apply in_map_iff. exists (K, v). split; [reflexivity|].
      apply filter_In. split; [exact Eg|]. cbn [fst].
      now rewrite in_range_BytesPrefix. }
    congruence.
Qed.

(** [ZdelBucket] on an iterator error returns that error and leaves the
    store as it is; otherwise it deletes, in one batch, every key under the
    direct-index and the order-index prefix of the set and nothing else:
    afterwards no member has a score and no order-index entry of the set is
    left. *)
Theorem ZdelBucket_empties_set (db : DB) (name : string) :
  (forall k, read_fault db k = None) ->
  (forall msg, iter_fault db = Some msg ->
     ZdelBucket db name = (db, Some (ErrStore msg))) /\
  (iter_fault db = None -> write_fault db = None ->
   let db' := fst (ZdelBucket db name) in
   snd (ZdelBucket db name) = None /\
   length (written db') = S (length (written db)) /\
   (forall K, tbl_get K (tbl db')
              = if has_prefix (Bconcat [zetScorePrefix; StringToBytesNoCopy name;
                                        splitChar]) K
                   || has_prefix (order_prefix name) K
                then None else tbl_get K (tbl db)) /\
   (forall key, ZhasKey db' name key = false /\ Zget db' name key = 0) /\
   (forall s key, tbl_get (order_key name s key) (tbl db') = None)).
Proof.
  intros Hr. split.
  - intros msg Hf. unfold ZdelBucket, NewIterator. cbn [iter_err]. now rewrite Hf.
  - intros Hf Hw db'.
    set (p1 := Bconcat [zetScorePrefix; StringToBytesNoCopy name; splitChar]).
    assert (E : ZdelBucket db name
                = db_Write db
                    (map (fun e => BDelete (fst e))
                       (filter (fun e => in_range (BytesPrefix p1) (fst e)) (tbl db))
                     ++ map (fun e => BDelete (fst e))
                          (filter (fun e => in_range (BytesPrefix (order_prefix name))
                                              (fst e)) (tbl db)))).
    { unfold ZdelBucket, NewIterator, forward. cbn [iter_err items].
      now rewrite Hf. }
    unfold db'. rewrite E, (db_Write_ok db _ Hw). cbn [fst snd written tbl].
    split; [reflexivity|].
    split; [rewrite length_app; cbn [length]; lia|].
    assert (Ht : forall K,
              tbl_get K
                (apply_batch
                   (map (fun e => BDelete (fst e))
                      (filter (fun e => in_range (BytesPrefix p1) (fst e)) (tbl db))
                    ++ map (fun e => BDelete (fst e))
                         (filter (fun e => in_range (BytesPrefix (order_prefix name))
                                             (fst e)) (tbl db))) (tbl db))
              = if has_prefix p1 K || has_prefix (order_prefix name) K
                then None else tbl_get K (tbl db))
      by (intros K; apply delete_two_prefixes_get).
    split; [exact Ht|]. split.
    + intros key. rewrite ZhasKey_table, Zget_table by apply Hr. cbn [tbl].
      rewrite Ht, direct_key_split. fold p1. rewrite has_prefix_app.
      cbn [orb]. now split.
    + intros s key. rewrite Ht, order_key_split, has_prefix_app.
      now rewrite orb_true_r.
Qed.

Lemma ZdelBucket_empties_set_witness :
  (forall k, read_fault Examples.zset_db k = None) /\
  iter_fault Examples.zset_db = None /\ write_fault Examples.zset_db = None /\
  Zget (fst (ZdelBucket Examples.zset_db "z")) "z" (Examples.b "m1") = 0.
Proof.
  split; [reflexivity|]. split; [reflexivity|]. split; [reflexivity|].
  destruct (ZdelBucket_empties_set Examples.zset_db "z" (fun _ => eq_refl))
    as [_ H].
  destruct (H eq_refl eq_refl) as (_ & _ & _ & Hz & _). apply Hz.
Defined.

End ZsetBatchDelete.

(** ** [Zmset] on distinct members, read back *)

Section ZmsetScores.

Variable db : DB.
Variable name : string.

Let p1 := Bconcat [zetScorePrefix; StringToBytesNoCopy name; splitChar].
Let p2 := Bconcat [zetKeyPrefix; StringToBytesNoCopy name; splitChar].

Hypothesis Hclean : clean (StringToBytesNoCopy name).
Hypothesis Hread : forall k, read_fault db k = None.

(** The records of [Zmset] for one pair. *)
Lemma Zmset_batch_cons (key score : bytes) (rest : list bytes) :
  Zmset_batch db p1 p2 (key :: score :: rest)
  = (if negb (bytes_Equal (match tbl_get (direct_key name key) (tbl db) with
                           | Some s => s | None => [] end) score)
     then [BPut (direct_key name key) score;
           BPut (order_key name score key) [];
           BDelete (order_key name
                      (match tbl_get (direct_key name key) (tbl db) with
                       | Some s => s | None => [] end) key)]
     else [])
    ++ Zmset_batch db p1 p2 rest.
Proof.
  cbn [Zmset_batch]. unfold p1, p2.
  destruct (Zmset_keys name key score) as [-> ->].
  destruct (Zmset_keys name key (fst (db_Get db (direct_key name key))))
    as [_ ->].
  now rewrite (old_score db _ (Hread _)).
Qed.

Lemma Zmset_batch_other (m : bytes) :
  forall n kvs t, (length kvs <= n)%nat ->
    ~ In m (map Key (pairs kvs)) ->
    tbl_get (direct_key name m) (apply_batch (Zmset_batch db p1 p2 kvs) t)
    = tbl_get (direct_key name m) t.
Proof.
  induction n as [|n IH]; intros kvs t Hlen Hm.
  - destruct kvs; [reflexivity|cbn [length] in Hlen; lia].
  - destruct kvs as [|key [|score rest]]; try reflexivity.
    rewrite Zmset_batch_cons, apply_batch_app.
    cbn [pairs map Key In] in Hm.
    rewrite IH; [|cbn [length] in Hlen; lia | tauto].
    destruct (negb _); [|reflexivity].
    apply replace_other_member; [exact Hclean|]. intros E. apply Hm. now left.
Qed.

Lemma Zmset_batch_direct :
  forall n kvs t, (length kvs <= n)%nat ->
    (forall e, In e (pairs kvs) -> length (Value e) = scoreByteLen) ->
    NoDup (map Key (pairs kvs)) ->
    (forall e, In e (pairs kvs) ->
       tbl_get (direct_key name (Key e)) t
       = tbl_get (direct_key name (Key e)) (tbl db)) ->
    forall e, In e (pairs kvs) ->
      tbl_get (direct_key name (Key e)) (apply_batch (Zmset_batch db p1 p2 kvs) t)
      = Some (Value e).
Proof.
  induction n as [|n IH]; intros kvs t Hlen Hwf Hnd Hsame e He.
  - destruct kvs; [contradiction|cbn [length] in Hlen; lia].
  - destruct kvs as [|key [|score rest]]; try contradiction.
    rewrite Zmset_batch_cons, apply_batch_app.
    cbn [pairs map Key] in Hwf, Hnd, Hsame, He.
    apply NoDup_cons_iff in Hnd as [Hnotin Hnd].
    pose proof (Hsame _ (or_introl eq_refl)) as Hk. cbn [Key] in Hk.
    pose proof (Hwf _ (or_introl eq_refl)) as Hs. cbn [Value] in Hs.
    destruct He as [<-|He]; cbn [Key Value].
    + rewrite (Zmset_batch_other key (length rest)) by (auto; lia).
      rewrite <- Hk.
      destruct (bytes_Equal _ score) eqn:Eeq; cbn [negb].
      * apply bytes_Equal_true in Eeq. cbn [apply_batch fold_left].
        destruct (tbl_get (direct_key name key) t); [now rewrite Eeq|].
        subst score. discriminate Hs.
      * cbn [apply_batch fold_left apply_op].
        rewrite tbl_get_del, tbl_get_put, tbl_get_put. distinct_keys.
        now rewrite bytes_Equal_refl.
    + apply (IH rest).
      * cbn [length] in Hlen. lia.
      * intros e' He'. apply Hwf. now right.
      * exact Hnd.
      * intros e' He'. rewrite <- (Hsame e' (or_intror He')).
        destruct (negb _); [|reflexivity].
        apply replace_other_member; [exact Hclean|].
        intros E. apply Hnotin. rewrite <- E. now apply in_map.
      * exact He.
Qed.

End ZmsetScores.

(** After a successful [Zmset] whose members are distinct, clean, and given
    8-byte scores, every member of the list has its score in the direct
    index and the order-index entry of that score and of no other, and
    indices that agreed still agree. *)
Theorem Zmset_distinct_members (db : DB) (name : string) (kvs : list bytes) :
  kvs <> [] -> Nat.Even (length kvs) ->
  clean (StringToBytesNoCopy name) ->
  (forall e, In e (pairs kvs) -> clean (Key e) /\ length (Value e) = scoreByteLen) ->
  NoDup (map Key (pairs kvs)) ->
  write_fault db = None ->
  (forall k, read_fault db k = None) ->
  zset_indexed (tbl db) ->
  let db' := fst (Zmset db name kvs) in
  snd (Zmset db name kvs) = None /\
  zset_indexed (tbl db') /\
  (forall e, In e (pairs kvs) ->
     tbl_get (direct_key name (Key e)) (tbl db') = Some (Value e) /\
     tbl_get (order_key name (Value e) (Key e)) (tbl db') <> None /\
     (forall s', length s' = scoreByteLen ->
        tbl_get (order_key name s' (Key e)) (tbl db') <> None -> s' = Value e)).
Proof.
  intros Hne Hev Hn Hwf Hnd Hw Hr Hinv db'.
  pose proof (Zmset_keeps_indices db name kvs Hn Hwf Hnd Hr Hinv) as Hinv'.
  fold db' in Hinv'.
  assert (Hb : bad_kvs kvs = false).
  { destruct (bad_kvs kvs) eqn:E; [|reflexivity].
    apply bad_kvs_spec in E as [E|[m E]].
    - destruct kvs; [contradiction|discriminate E].
    - destruct Hev as [n Hn']. lia. }
  assert (Hd : forall e, In e (pairs kvs) ->
             tbl_get (direct_key name (Key e)) (tbl db') = Some (Value e)).
  { intros e He. unfold db', Zmset. rewrite Hb, (db_Write_ok db _ Hw).
    cbn [fst tbl].
    apply (Zmset_batch_direct db name Hn Hr (length kvs)); auto.
    intros e' He'. now apply Hwf. }
  split; [unfold Zmset; now rewrite Hb, (db_Write_ok db _ Hw)|].
  split; [exact Hinv'|].
  intros e He. specialize (Hd e He).
  destruct (zset_indexed_consistent (tbl db') name (Key e) _ Hinv' Hn Hd)
    as [H1 H2].
  split; [exact Hd|]. split; [exact H1 | exact H2].
Qed.

Lemma Zmset_distinct_members_witness :
  let kvs := [Examples.b "m1"; Uint64ToBytes 7; Examples.b "m3"; Uint64ToBytes 9] in
  kvs <> [] /\ Nat.Even (length kvs) /\
  clean (StringToBytesNoCopy "z") /\
  (forall e, In e (pairs kvs) -> clean (Key e) /\ length (Value e) = scoreByteLen) /\
  NoDup (map Key (pairs kvs)) /\
  write_fault Examples.zset_db = None /\
  (forall k, read_fault Examples.zset_db k = None) /\
  zset_indexed (tbl Examples.zset_db) /\
  zset_indexed (tbl (fst (Zmset Examples.zset_db "z" kvs))).
Proof.
  intros kvs.
  assert (Hne : kvs <> []) by discriminate.
  assert (Hev : Nat.Even (length kvs)) by (exists 2%nat; reflexivity).
  assert (Hn : clean (StringToBytesNoCopy "z")) by (now apply clean_ascii).
  assert (Hwf : forall e, In e (pairs kvs) ->
                  clean (Key e) /\ length (Value e) = scoreByteLen).
  { intros e [<-|[<-|[]]]; (split; [|reflexivity]).
    - now apply (clean_ascii "m1").
    - now apply (clean_ascii "m3"). }
  assert (Hnd : NoDup (map Key (pairs kvs))).
  { repeat constructor; cbn; intuition discriminate. }
  repeat (split; [first [assumption | reflexivity | exact zset_db_indexed]|]).
  apply (Zmset_distinct_members Examples.zset_db "z" kvs Hne Hev Hn Hwf Hnd
           eq_refl (fun _ => eq_refl) zset_db_indexed).
Defined.

(** ** The sorted-set scans from a position *)

Section ZsetPositions.

Lemma order_key_lt (name : string) (s1 m1 s2 m2 : bytes) :
  length s1 = length s2 ->
  bytes_lt (order_key name s1 m1) (order_key name s2 m2) <->
  score_member_lt (mkEntry m1 s1) (mkEntry m2 s2).
Proof.
  intros Hlen. rewrite !order_key_split. unfold bytes_lt, score_member_lt.
  cbn [Key Value]. rewrite bytes_compare_app.
  rewrite bytes_compare_app_same_length by exact Hlen.
  unfold bytes_lt. rewrite (bytes_compare_app splitChar m1 m2).
  destruct (bytes_compare s1 s2) eqn:E.
  - apply bytes_compare_eq in E. split; [intros H; right; now split|].
    intros [H|[_ H]]; [discriminate H|exact H].
  - split; [now left | reflexivity].
  - split; [discriminate|]. intros [H|[H _]]; [discriminate|].
    subst. rewrite bytes_compare_refl in E. discriminate.
Qed.

Lemma Zscan_unfold_key (db : DB) (name : string) (keyStart scoreStart : bytes)
    (limit : Z) :
  keyStart <> [] -> scoreStart <> [] ->
  let p := order_prefix name in
  let it := NewIterator db
              (mkRange (p ++ scoreStart ++ splitChar ++ keyStart) (prefix_limit p)) in
  Zscan db name keyStart scoreStart limit =
    match scan_loop (fun k => bytes_ltb (p ++ scoreStart ++ splitChar ++ keyStart) k)
            (emit_zkey (length p) (length p + scoreByteLen)
                       (length p + scoreByteLen + 1)) limit (forward it) [] 0 with
    | None => None
    | Some res => Some (scan_reply it res)
    end.
Proof.
  intros Hk Hs. cbn zeta. unfold Zscan.
  destruct scoreStart as [|c0 s0]; [contradiction|].
  destruct keyStart as [|k0 ks]; [contradiction|].
  cbn [length Nat.eqb]. fold (order_prefix name).
  rewrite Bconcat4. cbn [BytesPrefix Limit]. reflexivity.
Qed.

(** With a start key [Zscan] returns the stored members that come strictly
    after the position (start score, start key) in the order by score and
    then member: those of a greater score, and those of the same score and
    a greater member; in that order; at most [limit] of them when [limit]
    is positive, and all of them when the limit does not bind. *)
Theorem Zscan_after_position (db : DB) (name : string)
    (keyStart scoreStart : bytes) (limit : Z) :
  ordered (tbl db) ->
  zorder_wf (tbl db) name ->
  length scoreStart = scoreByteLen ->
  keyStart <> [] ->
  exists r, Zscan db name keyStart scoreStart limit = Some r /\
    (forall e, In e (List r) ->
       length (Value e) = scoreByteLen /\
       score_member_lt (mkEntry keyStart scoreStart) e /\
       exists v, In (order_key name (Value e) (Key e), v) (tbl db)) /\
    StronglySorted score_member_lt (List r) /\
    (0 < limit -> Z.of_nat (length (List r)) <= limit) /\
    (iter_fault db = None ->
     limit <= 0 \/ Z.of_nat (length (List r)) < limit ->
     forall s m v, length s = scoreByteLen ->
       score_member_lt (mkEntry keyStart scoreStart) (mkEntry m s) ->
       In (order_key name s m, v) (tbl db) ->
       In (mkEntry m s) (List r)).
Proof.
  intros Ho Hwf Hlen Hk. set (p := order_prefix name).
  set (x := scoreStart ++ splitChar ++ keyStart).
  assert (Hs : scoreStart <> []) by (intros ->; discriminate Hlen).
  assert (Hpos : p ++ x = order_key name scoreStart keyStart)
    by (now rewrite order_key_split).
  assert (Hsel : exists r, Zscan db name keyStart scoreStart limit = Some r /\
            (iter_fault db = None ->
               List r = map (zstrip (length p)) (forward_selection db p x limit)) /\
            (forall msg, iter_fault db = Some msg -> r = mkReply msg [])).
  { rewrite (Zscan_unfold_key db name keyStart scoreStart limit Hk Hs).
    cbn zeta. fold p. fold x.
    apply forward_scan. intros [k v] Hin Hp _. cbn [fst snd] in *.
    destruct (Hwf k v Hin Hp) as (s & m & Hs' & ->). unfold p.
    rewrite (zstrip_order_key name s m v Hs'). cbn [Key Value].
    now apply emit_zkey_order_key. }
  destruct Hsel as (r & Hr & Hok & Hfault).
  exists r. split; [exact Hr|].
  destruct (iter_fault db) as [msg|] eqn:Ef.
  - rewrite (Hfault msg eq_refl). unfold List. cbn [Data pairs map length In].
    split; [intros e []|]. split; [constructor|]. split; [lia|].
    intros Hn. discriminate Hn.
  - specialize (Hok eq_refl). rewrite Hok.
    assert (Hdec : forall e, In e (forward_selection db p x limit) ->
              exists s m, length s = scoreByteLen /\
                fst e = order_key name s m /\
                zstrip (length p) e = mkEntry m s /\
                score_member_lt (mkEntry keyStart scoreStart) (mkEntry m s) /\
                In e (tbl db)).
    { intros [k v] He. apply forward_selection_In in He as (Hin & Hp & Hlt).
      cbn [fst] in *. destruct (Hwf k v Hin Hp) as (s & m & Hs' & ->).
      exists s, m. split; [exact Hs'|]. split; [reflexivity|].
      split; [now apply zstrip_order_key|]. split; [|exact Hin].
      rewrite Hpos in Hlt. apply order_key_lt in Hlt; [exact Hlt|congruence]. }
    split; [|split; [|split]].
    + intros e He. apply in_map_iff in He as ([k v] & <- & Hx).
      destruct (Hdec _ Hx) as (s & m & Hs' & Hkey & -> & Hlt & Hin).
      cbn [fst Key Value] in *. subst k.
      split; [exact Hs'|]. split; [exact Hlt | now exists v].
    + apply (StronglySorted_map key_lt);
        [|now apply forward_selection_ordered].
      intros a c Ha Hc Hac.
      destruct (Hdec _ Ha) as (s1 & m1 & Hs1 & Hk1 & -> & _).
      destruct (Hdec _ Hc) as (s2 & m2 & Hs2 & Hk2 & -> & _).
      unfold key_lt in Hac. rewrite Hk1, Hk2 in Hac.
      apply order_key_lt in Hac; [exact Hac|congruence].
    + intros Hl. rewrite length_map. unfold forward_selection.
      now apply take_limit_length.
    + intros _ Hl s m v Hs' Hlt Hin. rewrite length_map in Hl.
      apply (forward_selection_complete db p x limit _ Hl) in Hin.
      * apply in_map_iff. exists (order_key name s m, v). split; [|exact Hin].
        now apply zstrip_order_key.
      * cbn [fst]. rewrite order_key_split. apply has_prefix_app.
      * cbn [fst]. rewrite Hpos. apply order_key_lt; [congruence|exact Hlt].
Qed.

Lemma Zscan_after_position_witness :
  ordered (tbl Examples.zset_db) /\ zorder_wf (tbl Examples.zset_db) "z" /\
  length (Uint64ToBytes 50) = scoreByteLen /\ Examples.b "m2" <> [] /\
  exists r, Zscan Examples.zset_db "z" (Examples.b "m2") (Uint64ToBytes 50) 10 = Some r /\
    In (mkEntry (Examples.b "m1") (Uint64ToBytes 100)) (List r).
Proof.
  assert (Hne : Examples.b "m2" <> []) by discriminate.
  split; [exact zset_db_ordered|]. split; [exact zset_db_wf|].
  split; [reflexivity|]. split; [exact Hne|].
  destruct (Zscan_after_position Examples.zset_db "z" (Examples.b "m2")
              (Uint64ToBytes 50) 10 zset_db_ordered zset_db_wf eq_refl Hne)
    as (r & Hr & _ & _ & Hl & Hc).
  exists r. split; [exact Hr|].
  assert (E : Zscan Examples.zset_db "z" (Examples.b "m2") (Uint64ToBytes 50) 10
              = Some (mkReply replyOK [Examples.b "m1"; Uint64ToBytes 100]))
    by (vm_compute; reflexivity).
  refine (Hc eq_refl _ (Uint64ToBytes 100) (Examples.b "m1") [] _ _ _).
  - right. rewrite E in Hr. injection Hr as <-. vm_compute. reflexivity.
  - reflexivity.
  - left. vm_compute. reflexivity.
  - vm_compute. right. right. right. now left.
Defined.

End ZsetPositions.

(** ** The sorted-set reverse scan *)

Section ZsetReverse.

Lemma Zrscan_unfold (db : DB) (name : string) (scoreStart : bytes) (limit : Z) :
  scoreStart <> [] ->
  let p := order_prefix name in
  let it := NewIterator db (mkRange p (p ++ scoreStart ++ splitChar)) in
  Zrscan db name [] scoreStart limit =
    match scan_loop (fun k => bytes_ltb k (p ++ scoreStart ++ splitChar))
            (emit_zkey (length p) (length p + scoreByteLen)
                       (length p + scoreByteLen + 1)) limit (backward it) [] 0 with
    | None => None
    | Some res => Some (scan_reply it res)
    end.
Proof.
  intros Hs. cbn zeta. unfold Zrscan.
  destruct scoreStart as [|c0 s0]; [contradiction|].
  cbn [length Nat.eqb]. fold (order_prefix name).
  rewrite Bconcat3. cbn [BytesPrefix Start]. reflexivity.
Qed.

(** The start of the band of [scoreStart] is above exactly the order-index
    keys of a smaller score. *)
Lemma band_start_gt (scoreStart s m : bytes) :
  length scoreStart = scoreByteLen -> length s = scoreByteLen ->
  bytes_lt (s ++ splitChar ++ m) (scoreStart ++ splitChar) <-> bytes_lt s scoreStart.
Proof.
  intros H1 H2. unfold bytes_lt.
  rewrite bytes_compare_app_same_length by congruence.
  destruct (bytes_compare s scoreStart); split; try congruence.
  cbn. destruct m; discriminate.
Qed.

(** With an empty start key [Zrscan] starts right below the whole band of
    [scoreStart]: on a well-formed order index it returns stored members of
    a score strictly less than [scoreStart], so no member whose score is
    exactly [scoreStart], from the greatest score and member down; and when
    the limit does not bind every stored member of a strictly smaller score
    is among them. *)
Theorem Zrscan_below_start_band (db : DB) (name : string) (scoreStart : bytes)
    (limit : Z) :
  ordered (tbl db) ->
  zorder_wf (tbl db) name ->
  length scoreStart = scoreByteLen ->
  exists r, Zrscan db name [] scoreStart limit = Some r /\
    (forall e, In e (List r) ->
       length (Value e) = scoreByteLen /\
       bytes_lt (Value e) scoreStart /\
       exists v, In (order_key name (Value e) (Key e), v) (tbl db)) /\
    (forall m, ~ In (mkEntry m scoreStart) (List r)) /\
    StronglySorted (fun a c => score_member_lt c a) (List r) /\
    (iter_fault db = None ->
     limit <= 0 \/ Z.of_nat (length (List r)) < limit ->
     forall s m v, length s = scoreByteLen -> bytes_lt s scoreStart ->
       In (order_key name s m, v) (tbl db) ->
       In (mkEntry m s) (List r)).
Proof.
  intros Ho Hwf Hlen.
  assert (Hs : scoreStart <> []) by (intros ->; discriminate Hlen).
  rewrite (Zrscan_unfold db name scoreStart limit Hs). cbn zeta.
  set (p := order_prefix name).
  set (top := p ++ scoreStart ++ splitChar).
  set (it := NewIterator db (mkRange p top)).
  assert (Hwalk : forall e, In e (backward it) ->
            In e (tbl db) /\ bytes_lt (fst e) top /\
            exists s m, length s = scoreByteLen /\ fst e = order_key name s m /\
              bytes_lt s scoreStart).
  { intros [k v] He. unfold backward, it, NewIterator in He. cbn [items] in He.
    apply in_rev, filter_In in He as [Hin Hr]. cbn [fst] in *.
    apply in_range_limit in Hr as [Hge Hlt]. cbn [Start Limit] in *.
    assert (Hlt' : bytes_lt k top).
    { unfold top, p, order_prefix, Bconcat, zetKeyPrefix in Hlt |- *.
      cbn [concat app] in Hlt |- *. exact Hlt. }
    split; [exact Hin|]. split; [exact Hlt'|].
    assert (Hp : has_prefix p k = true)
      by (apply (between_has_prefix p (scoreStart ++ splitChar)); assumption).
    destruct (Hwf k v Hin Hp) as (s & m & Hs' & ->).
    exists s, m. split; [exact Hs'|]. split; [reflexivity|].
    unfold top in Hlt'. rewrite order_key_split in Hlt'. fold p in Hlt'.
    unfold bytes_lt in Hlt'. rewrite bytes_compare_app in Hlt'.
    now apply (band_start_gt scoreStart s m Hlen Hs'). }
  pose (f := fun e : bytes * bytes =>
               [Key (zstrip (length p) e); Value (zstrip (length p) e)]).
  assert (Hw : forall e, In e (backward it) -> bytes_ltb (fst e) top = true ->
             emit_zkey (length p) (length p + scoreByteLen)
               (length p + scoreByteLen + 1) (fst e) (snd e) = Some (f e)).
  { intros [k v] He _. destruct (Hwalk _ He) as (_ & _ & s & m & Hs' & Hk & _).
    cbn [fst snd] in *. subst k. unfold f, p.
    rewrite (zstrip_order_key name s m v Hs'). cbn [Key Value].
    now apply emit_zkey_order_key. }
  rewrite (scan_loop_spec (fun k => bytes_ltb k top) _ limit f (backward it) Hw [] 0).
  cbn zeta. cbn [app].
  assert (Hkeep : filter (fun e => bytes_ltb (fst e) top) (backward it) = backward it).
  { apply filter_all. intros e He. apply bytes_ltb_lt. now apply Hwalk. }
  rewrite Hkeep. set (sel := take_limit limit 0 (backward it)).
  eexists. split; [reflexivity|].
  destruct (iter_fault db) as [msg|] eqn:Ef.
  - rewrite (scan_reply_fault it _ msg) by exact Ef.
    unfold List. cbn [Data pairs map In].
    split; [intros e []|]. split; [intros m []|]. split; [constructor|].
    intros Hn. discriminate Hn.
  - rewrite scan_reply_ok by exact Ef. unfold List. cbn [Data].
    unfold f. rewrite pairs_flat_map.
    assert (Hdec : forall e, In e sel ->
              exists s m, length s = scoreByteLen /\
                fst e = order_key name s m /\
                zstrip (length p) e = mkEntry m s /\
                bytes_lt s scoreStart /\ In e (tbl db)).
    { intros [k v] He. apply take_limit_In in He.
      destruct (Hwalk _ He) as (Hin & _ & s & m & Hs' & Hk & Hlt).
      cbn [fst] in Hk. subst k. exists s, m.
      split; [exact Hs'|]. split; [reflexivity|].
      split; [now apply zstrip_order_key|]. now split. }
    assert (Hmem : forall e, In e (map (zstrip (length p)) sel) ->
              length (Value e) = scoreByteLen /\
              bytes_lt (Value e) scoreStart /\
              exists v, In (order_key name (Value e) (Key e), v) (tbl db)).
    { intros e He. apply in_map_iff in He as ([k v] & <- & Hx).
      destruct (Hdec _ Hx) as (s & m & Hs' & Hk & -> & Hlt & Hin).
      cbn [fst Key Value] in *. subst k.
      split; [exact Hs'|]. split; [exact Hlt | now exists v]. }
    split; [exact Hmem|]. split; [|split].
    + intros m Hin. apply Hmem in Hin as (_ & Hlt & _). cbn [Value] in Hlt.
      exact (bytes_lt_irrefl _ Hlt).
    + apply (StronglySorted_map (fun a c => key_lt c a)).
      * intros a c Ha Hc Hac.
        destruct (Hdec _ Ha) as (s1 & m1 & Hs1 & Hk1 & -> & _).
        destruct (Hdec _ Hc) as (s2 & m2 & Hs2 & Hk2 & -> & _).
        unfold key_lt in Hac. rewrite Hk1, Hk2 in Hac.
        apply order_key_lt in Hac; [exact Hac|congruence].
      * unfold sel. apply StronglySorted_take_limit.
        unfold backward, it, NewIterator. cbn [items].
        apply StronglySorted_rev. now apply StronglySorted_filter.
    + intros _ Hl s m v Hs' Hlt Hin. rewrite length_map in Hl.
      apply in_map_iff. exists (order_key name s m, v).
      split; [now apply zstrip_order_key|].
      unfold sel. rewrite take_limit_all by exact Hl.
      unfold backward, it, NewIterator. cbn [items].
      apply in_rev. rewrite rev_involutive. apply filter_In.
      split; [exact Hin|]. cbn [fst]. apply in_range_limit. cbn [Start Limit].
      assert (Hlt' : bytes_lt (order_key name s m) top).
      { unfold top. rewrite order_key_split. fold p. unfold bytes_lt.
        rewrite bytes_compare_app.
        now apply (band_start_gt scoreStart s m Hlen Hs'). }
      split.
      * rewrite order_key_split. apply prefix_not_below.
      * unfold top, p, order_prefix, Bconcat, zetKeyPrefix in Hlt' |- *.
        cbn [concat app] in Hlt' |- *. exact Hlt'.
Qed.

Lemma Zrscan_below_start_band_witness :
  ordered (tbl Examples.zset_db) /\ zorder_wf (tbl Examples.zset_db) "z" /\
  length (Uint64ToBytes 100) = scoreByteLen /\
  exists r, Zrscan Examples.zset_db "z" [] (Uint64ToBytes 100) 10 = Some r /\
    ~ In (mkEntry (Examples.b "m1") (Uint64ToBytes 100)) (List r).
Proof.
  split; [exact zset_db_ordered|]. split; [exact zset_db_wf|].
  split; [reflexivity|].
  destruct (Zrscan_below_start_band Examples.zset_db "z" (Uint64ToBytes 100) 10
              zset_db_ordered zset_db_wf eq_refl) as (r & Hr & _ & Hn & _).
  exists r. split; [exact Hr | apply Hn].
Defined.

End ZsetReverse.

(** ** Views of a reply *)

Section ReplyViews.

Lemma pairs_length (data : list bytes) :
  Z.of_nat (length (pairs data)) = Z.of_nat (length data) / 2.
Proof.
  assert (H : forall n data, (length data <= n)%nat ->
            Z.of_nat (length (pairs data)) = Z.of_nat (length data) / 2).
  { induction n as [|n IH]; intros l Hl.
    - destruct l; [reflexivity|cbn [length] in Hl; lia].
    - destruct l as [|k [|v rest]]; try reflexivity.
      cbn [pairs length]. rewrite !Nat2Z.inj_succ, IH by (cbn [length] in Hl; lia).
      replace (Z.succ (Z.succ (Z.of_nat (length rest))))
        with (Z.of_nat (length rest) + 1 * 2) by lia.
      rewrite Z.div_add by lia. lia. }
  now apply (H (length data)).
Qed.

Lemma KvEach_loop_pairs {S : Type} (fn : bytes -> bytes -> S -> S)
    (data : list bytes) (s : S) :
  KvEach_loop fn data s
  = fold_left (fun st e => fn (Key e) (Value e) st) (pairs data) s.
Proof.
  assert (H : forall n data s, (length data <= n)%nat ->
            KvEach_loop fn data s
            = fold_left (fun st e => fn (Key e) (Value e) st) (pairs data) s).
  { induction n as [|n IH]; intros l st Hl.
    - destruct l; [reflexivity|cbn [length] in Hl; lia].
    - destruct l as [|k [|v rest]]; try reflexivity.
      cbn [KvEach_loop pairs fold_left Key Value].
      apply IH. cbn [length] in Hl. lia. }
  now apply (H (length data)).
Qed.

(** [KvLen] is the number of entries [List] returns, whatever the data: a
    trailing buffer without a partner is dropped by both.  [KvEach] calls
    its function on exactly those entries, in order, and returns that
    number; and on data of even length the entries cover all the data. *)
Theorem KvEach_visits_List (S : Type) (r : Reply)
    (fn : bytes -> bytes -> S -> S) (s : S) :
  KvLen r = Z.of_nat (length (List r)) /\
  KvEach r fn s
  = (fold_left (fun st e => fn (Key e) (Value e) st) (List r) s,
     Z.of_nat (length (List r))) /\
  (Nat.Even (length (Data r)) ->
     flat_map (fun e => [Key e; Value e]) (List r) = Data r).
Proof.
  assert (HL : KvLen r = Z.of_nat (length (List r)))
    by (unfold KvLen, List; now rewrite pairs_length).
  split; [exact HL|]. split.
  - unfold KvEach. now rewrite KvEach_loop_pairs, HL.
  - apply pairs_cover.
Qed.

Lemma Dict_loop_puts (data : list bytes) (dict : table) :
  Dict_loop data dict
  = apply_batch (map (fun e => BPut ([] ++ Key e) (Value e)) (pairs data)) dict.
Proof.
  assert (H : forall n data dict, (length data <= n)%nat ->
            Dict_loop data dict
            = apply_batch (map (fun e => BPut ([] ++ Key e) (Value e)) (pairs data))
                dict).
  { induction n as [|n IH]; intros l d Hl.
    - destruct l; [reflexivity|cbn [length] in Hl; lia].
    - destruct l as [|k [|v rest]]; try reflexivity.
      cbn [Dict_loop pairs map Key Value app]. unfold apply_batch.
      cbn [fold_left apply_op]. apply IH. cbn [length] in Hl. lia. }
  now apply (H (length data)).
Qed.

Lemma find_all_false {A : Type} (f : A -> bool) (l : list A) :
  (forall x, In x l -> f x = false) -> find f l = None.
Proof.
  induction l as [|x l IH]; intros H; [reflexivity|].
  cbn [find]. rewrite (H x (or_introl eq_refl)).
  apply IH. intros y Hy. apply H. now right.
Qed.

Lemma sorted_keys_last_pair (l : list Entry) (e : Entry) :
  StronglySorted bytes_lt (map Key l) -> In e l ->
  last_pair (Key e) l = Some e.
Proof.
  unfold last_pair. induction l as [|x l IH]; intros Hs Hin; [contradiction|].
  cbn [map] in Hs. apply StronglySorted_inv in Hs as [Hs Hall].
  rewrite Forall_forall in Hall. cbn [rev]. rewrite find_app.
  destruct Hin as [->|Hin].
  - replace (find _ (rev l)) with (@None Entry).
    + cbn [find]. now rewrite bytes_Equal_refl.
    + symmetry. apply find_all_false. intros y Hy. apply in_rev in Hy.
      apply bytes_Equal_false, bytes_lt_neq, Hall. now apply in_map.
  - now rewrite (IH Hs Hin).
Qed.

(** [Dict] maps a key to the value of the last pair of the reply with that
    key, and to nothing if there is none; when the keys of the reply are
    in strictly ascending order, as those of a forward scan are, it maps
    every returned key to the value returned with it. *)
Theorem Dict_lookup (r : Reply) :
  (forall k, tbl_get k (Dict r)
             = match last_pair k (List r) with
               | Some e => Some (Value e)
               | None => None
               end) /\
  (StronglySorted bytes_lt (map Key (List r)) ->
   forall e, In e (List r) -> tbl_get (Key e) (Dict r) = Some (Value e)).
Proof.
  assert (H : forall k, tbl_get k (Dict r)
                        = match last_pair k (List r) with
                          | Some e => Some (Value e)
                          | None => None
                          end).
  { intros k. unfold Dict, List, last_pair.
    rewrite Dict_loop_puts, apply_puts_get.
    now destruct (find _ (rev (pairs (Data r)))). }
  split; [exact H|].
  intros Hs e He. rewrite H. now rewrite (sorted_keys_last_pair _ _ Hs He).
Qed.

Lemma Dict_lookup_witness :
  let r := mkReply replyOK
             [Examples.b "a"; Examples.b "v3"; Examples.b "ab"; Examples.b "v0"] in
  StronglySorted bytes_lt (map Key (List r)) /\
  tbl_get (Examples.b "ab") (Dict r) = Some (Examples.b "v0").
Proof.
  intros r.
  assert (Hs : StronglySorted bytes_lt (map Key (List r))) by concrete_ordered.
  split; [exact Hs|].
  destruct (Dict_lookup r) as [_ H].
  apply (H Hs (mkEntry (Examples.b "ab") (Examples.b "v0"))).
  right. now left.
Defined.

(** [BS.Uint64] is 0 on fewer than eight bytes and otherwise the number the
    first eight bytes encode, whatever follows them; [BS.Int64] reads the
    same bytes as a two's-complement number, so an encoded value of 2^63 or
    more comes back negative. *)
Theorem BS_Uint64_first_eight :
  (forall b, (length b < 8)%nat -> BS_Uint64 b = 0 /\ BS_Int64 b = 0) /\
  (forall b, is_uint64 (BS_Uint64 b)) /\
  (forall v rest, is_uint64 v -> BS_Uint64 (Uint64ToBytes v ++ rest) = v) /\
  (forall v, is_uint64 v ->
     BS_Int64 (Uint64ToBytes v) = if v <? 2 ^ 63 then v else v - 2 ^ 64).
Proof.
  assert (Hsmall : forall b, (length b < 8)%nat -> BS_Uint64 b = 0).
  { intros b Hb. unfold BS_Uint64. apply Nat.ltb_lt in Hb. now rewrite Hb. }
  assert (Henc : forall v rest, is_uint64 v ->
             BS_Uint64 (Uint64ToBytes v ++ rest) = v).
  { intros v rest Hv. rewrite <- (BytesToUint64_Uint64ToBytes v Hv) at 2.
    reflexivity. }
  split; [|split; [|split]].
  - intros b Hb. unfold BS_Int64. rewrite (Hsmall b Hb). now split.
  - intros b. rewrite BS_Uint64_BytesToUint64. apply BytesToUint64_range.
  - exact Henc.
  - intros v Hv. unfold BS_Int64.
    rewrite <- (app_nil_r (Uint64ToBytes v)), (Henc v [] Hv).
    unfold int64, is_uint64, scoreMax in *.
    change (2 ^ 63) with 9223372036854775808 in *.
    change (2 ^ 64) with 18446744073709551616 in *.
    destruct (Z.ltb_spec v 9223372036854775808);
      Z.to_euclidean_division_equations; lia.
Qed.

End ReplyViews.

Lemma KvEach_visits_List_witness :
  let r := mkReply replyOK [Examples.b "a"; Examples.b "1"; Examples.b "b"] in
  KvLen r = 1 /\
  KvEach r (fun k _ acc => acc ++ [k]) [] = ([Examples.b "a"], 1) /\
  flat_map (fun e => [Key e; Value e])
    (List (mkReply replyOK [Examples.b "a"; Examples.b "1"]))
  = [Examples.b "a"; Examples.b "1"].
Proof.
  intros r. split; [|split].
  - apply (KvEach_visits_List (list bytes) r (fun k _ acc => acc ++ [k]) []).
  - apply (KvEach_visits_List (list bytes) r (fun k _ acc => acc ++ [k]) []).
  - apply (KvEach_visits_List (list bytes)
             (mkReply replyOK [Examples.b "a"; Examples.b "1"])
             (fun k _ acc => acc ++ [k]) []).
    exists 1%nat. reflexivity.
Defined.

Lemma BS_Uint64_first_eight_witness :
  BS_Uint64 (Examples.b "1234567") = 0 /\
  BS_Uint64 (Uint64ToBytes 258 ++ Examples.b "tail") = 258 /\
  BS_Int64 (Uint64ToBytes 18446744073709551615) = -1.
Proof.
  destruct BS_Uint64_first_eight as (Hshort & _ & Hfirst & Hsigned).
  split; [|split].
  - apply (Hshort (Examples.b "1234567")). cbn. lia.
  - apply (Hfirst 258 (Examples.b "tail")). unfold is_uint64, scoreMax. lia.
  - apply (Hsigned 18446744073709551615). unfold is_uint64, scoreMax. lia.
Defined.

(** ** Reading many scores at once *)

Section ZsetMultiGet.

Lemma pairs_flat_map_opt {A : Type} (g : A -> option Entry) (l : list A) :
  pairs (flat_map (fun x => match g x with
                            | Some e => [Key e; Value e]
                            | None => []
                            end) l)
  = flat_map (fun x => match g x with Some e => [e] | None => [] end) l.
Proof.
  induction l as [|x l IH]; cbn [flat_map]; [reflexivity|].
  destruct (g x) as [[k v]|]; cbn [app Key Value pairs]; now rewrite IH.
Qed.

(** [Zmget] returns, in the order asked, one entry for every requested
    member that has a score and can be read, and skips the others without
    an error; a returned value decodes to what [Zget] returns for its
    member; the reply is OK exactly when at least one requested member was
    found. *)
Theorem Zmget_scores (db : DB) (name : string) (keys : list bytes) :
  let r := Zmget db name keys in
  let stored key :=
    match read_fault db (direct_key name key) with
    | Some _ => None
    | None => tbl_get (direct_key name key) (tbl db)
    end in
  List r = flat_map (fun key => match stored key with
                                | Some s => [mkEntry key s]
                                | None => []
                                end) keys /\
  (forall e, In e (List r) ->
     In (Key e) keys /\ ZhasKey db name (Key e) = true /\
     BS_Uint64 (Value e) = Zget db name (Key e)) /\
  (OK r = true <-> exists key, In key keys /\ ZhasKey db name key = true).
Proof.
  intros r stored.
  assert (Hf : forall key,
            fetched db (Bconcat [zetScorePrefix; StringToBytesNoCopy name; splitChar])
              key
            = match option_map (mkEntry key) (stored key) with
              | Some e => [Key e; Value e]
              | None => []
              end).
  { intros key. unfold fetched, stored, db_Get.
    rewrite Bconcat2, <- Bconcat_bucket. fold (direct_key name key).
    destruct (read_fault db (direct_key name key)); [reflexivity|].
    now destruct (tbl_get (direct_key name key) (tbl db)). }
  assert (Hd : Data r
               = flat_map (fun key => match option_map (mkEntry key) (stored key) with
                                      | Some e => [Key e; Value e]
                                      | None => []
                                      end) keys).
  { unfold r, Zmget.
    destruct (mget_reply_shape
                (mget_loop db (Bconcat [zetScorePrefix; StringToBytesNoCopy name;
                                        splitChar]) keys [])) as (-> & _).
    rewrite mget_loop_flat_map. cbn [app].
    apply flat_map_ext. exact Hf. }
  assert (Hl : List r = flat_map (fun key => match stored key with
                                             | Some s => [mkEntry key s]
                                             | None => []
                                             end) keys).
  { unfold List. rewrite Hd, pairs_flat_map_opt. apply flat_map_ext.
    intros key. now destruct (stored key). }
  assert (Hhas : forall key, ZhasKey db name key = true <-> stored key <> None).
  { intros key. unfold ZhasKey, db_Has, stored. fold (direct_key name key).
    destruct (read_fault db (direct_key name key)); [split; congruence|].
    destruct (tbl_get (direct_key name key) (tbl db)); split; congruence. }
  split; [exact Hl|]. split.
  - intros e He. rewrite Hl in He. apply in_flat_map in He as (key & Hk & He).
    destruct (stored key) as [s|] eqn:Es; [|contradiction].
    destruct He as [<-|[]]. cbn [Key Value].
    split; [exact Hk|]. split; [apply Hhas; congruence|].
    rewrite BS_Uint64_BytesToUint64. unfold stored in Es.
    destruct (read_fault db (direct_key name key)) eqn:Er; [discriminate|].
    rewrite (Zget_table db name key Er). now rewrite Es.
  - unfold r, Zmget.
    destruct (mget_reply_shape
                (mget_loop db (Bconcat [zetScorePrefix; StringToBytesNoCopy name;
                                        splitChar]) keys [])) as (Hdata & -> & _).
    fold (Zmget db name keys) in Hdata. fold r in Hdata. rewrite <- Hdata, Hd.
    split.
    + intros Hne.
      destruct (flat_map _ keys) as [|x rest] eqn:E; [congruence|].
      assert (Hx : In x (flat_map (fun key =>
                     match option_map (mkEntry key) (stored key) with
                     | Some e => [Key e; Value e]
                     | None => []
                     end) keys)) by (rewrite E; now left).
      apply in_flat_map in Hx as (key & Hk & Hx).
      exists key. split; [exact Hk|]. apply Hhas.
      destruct (stored key); [congruence|contradiction].
    + intros (key & Hk & Hh). apply Hhas in Hh.
      destruct (stored key) as [s|] eqn:Es; [|congruence].
      intros E.
      assert (Hx : In key (flat_map (fun key =>
                     match option_map (mkEntry key) (stored key) with
                     | Some e => [Key e; Value e]
                     | None => []
                     end) keys)).
      { apply in_flat_map. exists key. split; [exact Hk|].
        rewrite Es. now left. }
      rewrite E in Hx. contradiction.
Qed.

Lemma Zmget_scores_witness :
  In (mkEntry (Examples.b "m2") (Uint64ToBytes 50))
     (List (Zmget Examples.zset_db "z"
              [Examples.b "m2"; Examples.b "nobody"; Examples.b "m1"])) /\
  BS_Uint64 (Uint64ToBytes 50) = Zget Examples.zset_db "z" (Examples.b "m2").
Proof.
  assert (Hin : In (mkEntry (Examples.b "m2") (Uint64ToBytes 50))
                  (List (Zmget Examples.zset_db "z"
                     [Examples.b "m2"; Examples.b "nobody"; Examples.b "m1"])))
    by (vm_compute; now left).
  split; [exact Hin|].
  destruct (Zmget_scores Examples.zset_db "z"
              [Examples.b "m2"; Examples.b "nobody"; Examples.b "m1"])
    as (_ & H & _).
  apply (H (mkEntry (Examples.b "m2") (Uint64ToBytes 50)) Hin).
Defined.

End ZsetMultiGet.

(** ** Scores as decimal strings *)

Section DigitStrings.

Lemma digit_code (d : Z) : 0 <= d < 10 -> Z_of_byte (byte_of_Z (48 + d)) = 48 + d.
Proof. intros Hd. rewrite Z_of_byte_of_Z. apply Z.mod_small. lia. Qed.

Lemma ParseUint_loop_digit (d n : Z) (rest : bytes) :
  0 <= d < 10 -> 0 <= n -> n * 10 + d <= scoreMax ->
  ParseUint_loop (byte_of_Z (48 + d) :: rest) n = ParseUint_loop rest (n * 10 + d).
Proof.
  intros Hd Hn Hmax. cbn [ParseUint_loop]. rewrite (digit_code d Hd).
  replace (48 + d - 48) with d by lia.
  replace ((48 <=? 48 + d) && (48 + d <=? 57)) with true
    by (symmetry; apply andb_true_iff; split; apply Z.leb_le; lia).
  assert (Hc : (cutoff <=? n) = false).
  { apply Z.leb_gt. unfold cutoff, scoreMax in *.
    change (2 ^ 64 - 1) with 18446744073709551615 in *.
    change (18446744073709551615 / 10 + 1) with 1844674407370955162. lia. }
  rewrite Hc.
  rewrite (uint64_small (n * 10)) by (unfold is_uint64; lia).
  rewrite (uint64_small (n * 10 + d)) by (unfold is_uint64; lia).
  replace ((n * 10 + d <? n * 10) || (scoreMax <? n * 10 + d)) with false;
    [reflexivity|].
  symmetry. apply orb_false_iff. split; apply Z.ltb_ge; lia.
Qed.

Lemma ParseUint_FormatUint_loop (fuel : nat) (v : Z) (acc : bytes) :
  0 <= v < 10 ^ Z.of_nat fuel -> v <= scoreMax ->
  ParseUint_loop (FormatUint_loop fuel v acc) 0 = ParseUint_loop acc v.
Proof.
  revert v acc. induction fuel as [|fuel IH]; intros v acc Hv Hmax.
  - cbn [FormatUint_loop]. change (10 ^ Z.of_nat 0) with 1 in Hv.
    now replace v with 0 by lia.
  - cbn [FormatUint_loop]. destruct (Z.ltb_spec v 10) as [Hlt|Hge].
    + now rewrite (ParseUint_loop_digit v 0 acc) by (cbn; lia).
    + rewrite Nat2Z.inj_succ, Z.pow_succ_r in Hv by lia.
      rewrite IH by (try split; try apply Z.div_pos; try lia;
                     try (apply Z.div_lt_upper_bound; lia);
                     Z.to_euclidean_division_equations; lia).
      rewrite ParseUint_loop_digit;
        try (f_equal; Z.to_euclidean_division_equations; lia);
        try (Z.to_euclidean_division_equations; lia).
Qed.

Lemma FormatUint_loop_acc (fuel : nat) (v : Z) (acc : bytes) :
  acc <> [] -> FormatUint_loop fuel v acc <> [].
Proof.
  revert v acc. induction fuel as [|fuel IH]; intros v acc Hacc; [exact Hacc|].
  cbn [FormatUint_loop]. destruct (v <? 10); [discriminate|].
  apply IH. discriminate.
Qed.

Lemma FormatUint_loop_nonempty (fuel : nat) (v : Z) (acc : bytes) :
  FormatUint_loop (S fuel) v acc <> [].
Proof.
  cbn [FormatUint_loop]. destruct (v <? 10); [discriminate|].
  apply FormatUint_loop_acc. discriminate.
Qed.

Lemma ParseUint_FormatUint (v : Z) : is_uint64 v -> ParseUint (FormatUint v) = Some v.
Proof.
  intros Hv. unfold ParseUint, FormatUint.
  rewrite list_byte_of_string_of_list_byte.
  assert (Hne : FormatUint_loop 20 v [] <> [])
    by apply FormatUint_loop_nonempty.
  assert (Hp : ParseUint_loop (FormatUint_loop 20 v []) 0 = Some v).
  { rewrite ParseUint_FormatUint_loop; [reflexivity| |apply Hv].
    unfold is_uint64, scoreMax in Hv.
    change (2 ^ 64 - 1) with 18446744073709551615 in Hv.
    change (10 ^ Z.of_nat 20) with 100000000000000000000. lia. }
  destruct (FormatUint_loop 20 v []); [congruence|exact Hp].
Qed.

Lemma ParseUint_loop_not_digit (s : bytes) (n : Z) (c : byte) :
  In c s -> ~ 48 <= Z_of_byte c <= 57 -> ParseUint_loop s n = None.
Proof.
  revert n. induction s as [|x s IH]; intros n Hin Hc; [contradiction|].
  cbn [ParseUint_loop].
  destruct ((48 <=? Z_of_byte x) && (Z_of_byte x <=? 57)) eqn:E; [|reflexivity].
  destruct (cutoff <=? n); [reflexivity|].
  destruct (_ || _); [reflexivity|].
  destruct Hin as [->|Hin]; [|now apply IH].
  apply andb_true_iff in E as [E1 E2].
  apply Z.leb_le in E1. apply Z.leb_le in E2. lia.
Qed.

Lemma BigEndian_Uint64_BytesToUint64 (b : bytes) :
  (8 <= length b)%nat -> BigEndian_Uint64 b = BytesToUint64 b.
Proof.
  intros Hb. unfold BytesToUint64.
  replace (length b <? 8)%nat with false by (symmetry; apply Nat.ltb_ge; lia).
  do 8 (destruct b as [|? b]; [cbn [length] in Hb; lia|]).
  reflexivity.
Qed.

(** With [strconv] as described above: a buffer of at least eight bytes is
    written as the decimal string of the number in its first eight bytes,
    and that string converts back to those eight bytes and to that number;
    a shorter buffer makes [BytesToDigitString] panic.  The empty string
    and any string with a byte that is not a decimal digit give the empty
    buffer and the number 0, not an error. *)
Theorem digit_string_round_trip :
  (forall b, (8 <= length b)%nat ->
     exists s, BytesToDigitString b = Some s /\
               DigitStringToBytes s = firstn 8 b /\
               DigitStringToUint64 s = BytesToUint64 b) /\
  (forall v, is_uint64 v ->
     BytesToDigitString (Uint64ToBytes v) = Some (FormatUint v) /\
     DigitStringToUint64 (FormatUint v) = v) /\
  (forall b, (length b < 8)%nat -> BytesToDigitString b = None) /\
  (forall s, (s = EmptyString \/
              exists c, In c (list_byte_of_string s) /\
                        ~ 48 <= Z_of_byte c <= 57) ->
     DigitStringToBytes s = [] /\ DigitStringToUint64 s = 0).
Proof.
  split; [|split; [|split]].
  - intros b Hb. exists (FormatUint (BytesToUint64 b)).
    unfold BytesToDigitString, DigitStringToBytes, DigitStringToUint64.
    replace (length b <? 8)%nat with false by (symmetry; apply Nat.ltb_ge; lia).
    rewrite (BigEndian_Uint64_BytesToUint64 b Hb).
    rewrite (ParseUint_FormatUint _ (BytesToUint64_range b)).
    split; [reflexivity|]. split; [|reflexivity].
    assert (E : BytesToUint64 b = BytesToUint64 (firstn 8 b)).
    { do 8 (destruct b as [|? b]; [cbn [length] in Hb; lia|]). reflexivity. }
    rewrite E. apply Uint64ToBytes_BytesToUint64.
    rewrite length_firstn. unfold scoreByteLen. lia.
  - intros v Hv. unfold BytesToDigitString, DigitStringToUint64.
    rewrite Uint64ToBytes_length. cbn [Nat.ltb Nat.leb].
    rewrite BigEndian_Uint64_BytesToUint64
      by (rewrite Uint64ToBytes_length; lia).
    rewrite (BytesToUint64_Uint64ToBytes v Hv), (ParseUint_FormatUint v Hv).
    now split.
  - intros b Hb. unfold BytesToDigitString. apply Nat.ltb_lt in Hb. now rewrite Hb.
  - intros s Hs.
    assert (Hp : ParseUint s = None).
    { unfold ParseUint. destruct Hs as [->|(c & Hin & Hc)]; [reflexivity|].
      pose proof (ParseUint_loop_not_digit _ 0 c Hin Hc) as Hn.
      now destruct (list_byte_of_string s). }
    unfold DigitStringToBytes, DigitStringToUint64. now rewrite Hp.
Qed.

Lemma digit_string_round_trip_witness :
  BytesToDigitString (Uint64ToBytes 123456) = Some (FormatUint 123456) /\
  DigitStringToUint64 (FormatUint 123456) = 123456 /\
  BytesToDigitString (Examples.b "1234567") = None /\
  DigitStringToBytes "12a4" = [] /\ DigitStringToUint64 "12a4" = 0.
Proof.
  destruct digit_string_round_trip as (_ & Hv & Hshort & Hbad).
  destruct (Hv 123456) as [H1 H2]; [unfold is_uint64, scoreMax; lia|].
  split; [exact H1|]. split; [exact H2|]. split.
  - apply Hshort. cbn. lia.
  - apply Hbad. right. exists "a"%byte. split.
    + cbn. auto.
    + cbn. lia.
Defined.

End DigitStrings.

(** ** The two namespaces *)

Section Namespaces.

Let hash_tag (c : byte) : bool := Byte.eqb c x1e.
Let zset_tag (c : byte) : bool := Byte.eqb c x1d || Byte.eqb c x1f.

Lemma apply_batch_frame (accept : byte -> bool) (b : Batch) (t : table) (K : bytes) :
  batch_tagged accept b ->
  (forall c, tag_of K = Some c -> accept c = false) ->
  tbl_get K (apply_batch b t) = tbl_get K t.
Proof.
  revert t. induction b as [|op b IH]; intros t Hb HK; [reflexivity|].
  unfold apply_batch. cbn [fold_left]. fold (apply_batch b (apply_op t op)).
  rewrite IH by (auto; intros op' H; apply Hb; now right).
  pose proof (Hb op (or_introl eq_refl)) as Hop.
  assert (Hne : forall k,
            match tag_of k with Some c => accept c = true | None => False end ->
            K <> k).
  { intros k Hk ->. destruct (tag_of k) as [c|]; [|exact Hk].
    rewrite (HK c eq_refl) in Hk. discriminate. }
  destruct op; cbn [apply_op];
    [apply tbl_get_put_other|apply tbl_get_del_other]; auto.
Qed.

Lemma db_Write_frame (accept : byte -> bool) (db : DB) (b : Batch) (K : bytes) :
  batch_tagged accept b ->
  (forall c, tag_of K = Some c -> accept c = false) ->
  tbl_get K (tbl (fst (db_Write db b))) = tbl_get K (tbl db).
Proof.
  intros Hb HK. unfold db_Write. destruct (write_fault db); cbn [fst tbl];
    [reflexivity|now apply (apply_batch_frame accept)].
Qed.

Lemma batch_tagged_nil (accept : byte -> bool) : batch_tagged accept [].
Proof. intros op []. Qed.

Lemma batch_tagged_app (accept : byte -> bool) (b1 b2 : Batch) :
  batch_tagged accept b1 -> batch_tagged accept b2 ->
  batch_tagged accept (b1 ++ b2).
Proof.
  intros H1 H2 op Hin.
  apply in_app_or in Hin as [Hin|Hin]; [now apply H1|now apply H2].
Qed.

Lemma prefix_deletes_tagged (accept : byte -> bool) (c : byte) (p : bytes)
    (t : table) :
  accept c = true ->
  batch_tagged accept
    (map (fun e => BDelete (fst e))
         (filter (fun e => in_range (BytesPrefix (c :: p)) (fst e)) t)).
Proof.
  intros Hc op Hin. apply in_map_iff in Hin as ([k v] & <- & Hin).
  apply filter_In in Hin as [_ Hr]. cbn [fst] in *.
  rewrite in_range_BytesPrefix in Hr.
  apply has_prefix_spec in Hr as (m & ->). exact Hc.
Qed.

Lemma Zmset_batch_tagged (db : DB) (name : string) (kvs : list bytes) :
  batch_tagged zset_tag
    (Zmset_batch db (Bconcat [zetScorePrefix; StringToBytesNoCopy name; splitChar])
       (Bconcat [zetKeyPrefix; StringToBytesNoCopy name; splitChar]) kvs).
Proof.
  assert (H : forall n kvs, (length kvs <= n)%nat ->
    batch_tagged zset_tag
      (Zmset_batch db (Bconcat [zetScorePrefix; StringToBytesNoCopy name; splitChar])
         (Bconcat [zetKeyPrefix; StringToBytesNoCopy name; splitChar]) kvs)).
  { induction n as [|n IH]; intros l Hl.
    - destruct l; [apply batch_tagged_nil|cbn [length] in Hl; lia].
    - destruct l as [|k [|v rest]]; try apply batch_tagged_nil.
      cbn [Zmset_batch]. apply batch_tagged_app.
      + destruct (negb _); [|apply batch_tagged_nil].
        intros op [<-|[<-|[<-|[]]]]; reflexivity.
      + apply IH. cbn [length] in Hl. lia. }
  now apply (H (length kvs)).
Qed.

Lemma Zmdel_batch_tagged (db : DB) (name : string) (keys : list bytes) :
  batch_tagged zset_tag
    (Zmdel_batch db (Bconcat [zetScorePrefix; StringToBytesNoCopy name; splitChar])
       (Bconcat [zetKeyPrefix; StringToBytesNoCopy name; splitChar]) keys).
Proof.
  induction keys as [|key keys IH]; [apply batch_tagged_nil|].
  cbn [Zmdel_batch]. destruct (db_Get db _) as [old [e|]]; [exact IH|].
  intros op [<-|[<-|Hin]]; try reflexivity. now apply IH.
Qed.

Lemma not_tag_false (K : bytes) (t : byte) :
  tag_of K <> Some t -> forall c, tag_of K = Some c -> Byte.eqb c t = false.
Proof.
  intros Hne c Hc. destruct (Byte.eqb c t) eqn:E; [|reflexivity].
  apply Byte.byte_dec_bl in E. congruence.
Qed.

(** No write of the hashmap API touches a key outside the hashmap
    namespace: whatever the bucket and the arguments, and whether or not
    the store fails, every key that does not start with the hashmap tag
    reads after the call as before it; and all the keys of the sorted sets
    are such keys. *)
Theorem hashmap_writes_keep_other_keys (db : DB) (name : string) (K : bytes) :
  tag_of K <> Some x1e ->
  (forall key val,
     tbl_get K (tbl (fst (Hset db name key val))) = tbl_get K (tbl db)) /\
  (forall kvs, tbl_get K (tbl (fst (Hmset db name kvs))) = tbl_get K (tbl db)) /\
  (forall key step,
     tbl_get K (tbl (fst (Hincr db name key step))) = tbl_get K (tbl db)) /\
  (forall key, tbl_get K (tbl (fst (Hdel db name key))) = tbl_get K (tbl db)) /\
  (forall keys, tbl_get K (tbl (fst (Hmdel db name keys))) = tbl_get K (tbl db)) /\
  tbl_get K (tbl (fst (HdelBucket db name))) = tbl_get K (tbl db).
Proof.
  intros HK.
  assert (Hf : forall c, tag_of K = Some c -> hash_tag c = false)
    by (apply not_tag_false; exact HK).
  split; [|split; [|split; [|split; [|split]]]].
  - intros key val. unfold Hset, db_Put.
    apply (db_Write_frame hash_tag); [|exact Hf].
    intros op [<-|[]]. reflexivity.
  - intros kvs. unfold Hmset. destruct (bad_kvs kvs); [reflexivity|].
    apply (db_Write_frame hash_tag); [|exact Hf].
    rewrite Hmset_batch_pairs. intros op Hin.
    apply in_map_iff in Hin as (e & <- & _). reflexivity.
  - intros key step. unfold Hincr. destruct (incr_num _ step); [|reflexivity].
    unfold db_Put.
    match goal with
    | |- context [db_Write db ?b] =>
        pose proof (db_Write_frame hash_tag db b K) as Hw;
        destruct (db_Write db b) as [db' [e|]]
    end; cbn [fst] in *; apply Hw; try exact Hf;
      intros op [<-|[]]; reflexivity.
  - intros key. unfold Hdel, db_Delete.
    apply (db_Write_frame hash_tag); [|exact Hf].
    intros op [<-|[]]. reflexivity.
  - intros keys. unfold Hmdel.
    apply (db_Write_frame hash_tag); [|exact Hf].
    intros op Hin. apply in_map_iff in Hin as (key & <- & _). reflexivity.
  - unfold HdelBucket. cbn [iter_err NewIterator].
    destruct (iter_fault db); [reflexivity|].
    apply (db_Write_frame hash_tag); [|exact Hf].
    unfold forward. cbn [items].
    apply (prefix_deletes_tagged hash_tag x1e). reflexivity.
Qed.

Lemma hashmap_writes_keep_other_keys_witness :
  tbl_get (direct_key "z" (Examples.b "m1"))
    (tbl (fst (HdelBucket Examples.zset_db "z")))
  = tbl_get (direct_key "z" (Examples.b "m1")) (tbl Examples.zset_db).
Proof.
  apply (hashmap_writes_keep_other_keys Examples.zset_db "z"
           (direct_key "z" (Examples.b "m1"))).
  cbn. discriminate.
Defined.

(** No write of the sorted-set API touches a key outside the two
    sorted-set namespaces: every key that starts with neither the tag of
    the scores nor the tag of the order index, so every key of a hashmap,
    reads after the call as before it. *)
Theorem zset_writes_keep_other_keys (db : DB) (name : string) (K : bytes) :
  tag_of K <> Some x1d -> tag_of K <> Some x1f ->
  (forall key val,
     tbl_get K (tbl (fst (Zset db name key val))) = tbl_get K (tbl db)) /\
  (forall kvs, tbl_get K (tbl (fst (Zmset db name kvs))) = tbl_get K (tbl db)) /\
  (forall key step,
     tbl_get K (tbl (fst (Zincr db name key step))) = tbl_get K (tbl db)) /\
  (forall key, tbl_get K (tbl (fst (Zdel db name key))) = tbl_get K (tbl db)) /\
  (forall keys, tbl_get K (tbl (fst (Zmdel db name keys))) = tbl_get K (tbl db)) /\
  tbl_get K (tbl (fst (ZdelBucket db name))) = tbl_get K (tbl db).
Proof.
  intros HK1 HK2.
  assert (Hf : forall c, tag_of K = Some c -> zset_tag c = false).
  { intros c Hc. unfold zset_tag.
    now rewrite (not_tag_false K x1d HK1 c Hc), (not_tag_false K x1f HK2 c Hc). }
  split; [|split; [|split; [|split; [|split]]]].
  - intros key val. unfold Zset. destruct (negb _); [|reflexivity].
    apply (db_Write_frame zset_tag); [|exact Hf].
    intros op [<-|[<-|[<-|[]]]]; reflexivity.
  - intros kvs. unfold Zmset. destruct (bad_kvs kvs); [reflexivity|].
    apply (db_Write_frame zset_tag); [|exact Hf]. apply Zmset_batch_tagged.
  - intros key step. unfold Zincr. destruct (incr_num _ step); [|reflexivity].
    match goal with
    | |- context [db_Write db ?b] =>
        pose proof (db_Write_frame zset_tag db b K) as Hw;
        destruct (db_Write db b) as [db' [e|]]
    end; cbn [fst] in *; apply Hw; try exact Hf;
      intros op [<-|[<-|[<-|[]]]]; reflexivity.
  - intros key. unfold Zdel. destruct (db_Get db _) as [old [e|]]; [reflexivity|].
    apply (db_Write_frame zset_tag); [|exact Hf].
    intros op [<-|[<-|[]]]; reflexivity.
  - intros keys. unfold Zmdel.
    apply (db_Write_frame zset_tag); [|exact Hf]. apply Zmdel_batch_tagged.
  - unfold ZdelBucket. cbn [iter_err NewIterator].
    destruct (iter_fault db); [reflexivity|].
    apply (db_Write_frame zset_tag); [|exact Hf].
    unfold forward. cbn [items]. apply batch_tagged_app.
    + apply (prefix_deletes_tagged zset_tag x1d). reflexivity.
    + apply (prefix_deletes_tagged zset_tag x1f). reflexivity.
Qed.

Lemma zset_writes_keep_other_keys_witness :
  tbl_get (hash_key "h" (Examples.b "ab"))
    (tbl (fst (ZdelBucket Examples.hash_db "h")))
  = tbl_get (hash_key "h" (Examples.b "ab")) (tbl Examples.hash_db).
Proof.
  apply (zset_writes_keep_other_keys Examples.hash_db "h"
           (hash_key "h" (Examples.b "ab"))); cbn; discriminate.
Defined.

End Namespaces.
